(** * Skynet core: a shallow embedding of the C sources and its checked properties

    The development follows the layout of the C tree:
    - [Mq]      : skynet_mq.c      (per-service ring-buffer mailbox, global run queue)
    - [Handle]  : skynet_handle.c  (slot registry and the sorted name table)
    - [Server]  : skynet_server.c  (contexts, sessions, send, dispatch, STAT),
                  with skynet_harbor.c and skynet_error.c
    - [Monitor] : skynet_monitor.c (stall monitor)
    - [Timer]   : skynet_timer.c   (hierarchical timing wheel)
    - [Socket]  : socket_server.c / socket_epoll.h / socket_kqueue.h (enable_write)
    - [MqFacts], [Registry], [Delivery], [Watchdog], [SocketFacts], [Clock] :
                  further properties of the same files

    C integers are modelled in [Z]; arithmetic that can leave the range of
    its C type is wrapped explicitly ([wrap_int], [wrap_u32], [wrap_size]). *)

From Stdlib Require Import ZArith Lia List Bool Strings.Ascii Strings.String Strings.Byte.
From Stdlib Require DecimalString HexadecimalString.
From stdpp Require Import base tactics option list numbers sorting gmap.

Local Open Scope Z_scope.

(** ** Machine integers *)

(** [int] is 32 bits wide, two's complement. *)
Definition INT_MAX : Z := 2147483647.
Definition INT_MIN : Z := -2147483648.

Definition wrap_int (z : Z) : Z := (z + 2147483648) mod 4294967296 - 2147483648.

(** [uint32_t]. *)
Definition wrap_u32 (z : Z) : Z := z mod 4294967296.

(** [size_t] on an LP64 target: 8 bytes. *)
Definition sizeof_size_t : Z := 8.
Definition SIZE_MAX : Z := 2 ^ (8 * sizeof_size_t) - 1.
Definition wrap_size (z : Z) : Z := z mod (SIZE_MAX + 1).

Definition in_int (z : Z) : Prop := INT_MIN <= z <= INT_MAX.
Definition in_u32 (z : Z) : Prop := 0 <= z < 4294967296.
Definition in_size (z : Z) : Prop := 0 <= z <= SIZE_MAX.

Lemma wrap_int_id z : in_int z -> wrap_int z = z.
Proof.
  unfold in_int, wrap_int, INT_MIN, INT_MAX. intros Hz.
  rewrite Z.mod_small; lia.
Qed.

Lemma wrap_int_range z : in_int (wrap_int z).
Proof.
  unfold in_int, wrap_int, INT_MIN, INT_MAX.
  pose proof (Z.mod_pos_bound (z + 2147483648) 4294967296). lia.
Qed.

Lemma wrap_u32_id z : in_u32 z -> wrap_u32 z = z.
Proof. unfold in_u32, wrap_u32. intros Hz. apply Z.mod_small; lia. Qed.

Lemma wrap_u32_range z : in_u32 (wrap_u32 z).
Proof. unfold in_u32, wrap_u32. apply Z.mod_pos_bound. lia. Qed.

(** ** skynet.h / skynet_mq.h: messages *)

Definition PTYPE_TEXT : Z := 0.
Definition PTYPE_RESPONSE : Z := 1.
Definition PTYPE_CLIENT : Z := 3.
Definition PTYPE_SYSTEM : Z := 4.
Definition PTYPE_HARBOR : Z := 5.
Definition PTYPE_ERROR : Z := 7.
Definition PTYPE_TAG_DONTCOPY : Z := 65536.
Definition PTYPE_TAG_ALLOCSESSION : Z := 131072.

(** [MESSAGE_TYPE_MASK] is [SIZE_MAX >> 8], [MESSAGE_TYPE_SHIFT] is
    [(sizeof(size_t)-1) * 8]. *)
Definition MESSAGE_TYPE_MASK : Z := Z.shiftr SIZE_MAX 8.
Definition MESSAGE_TYPE_SHIFT : Z := (sizeof_size_t - 1) * 8.

(** skynet_harbor.h: [struct remote_message]; the destination is either a
    handle or a (padded) global name. *)
Record remote_message := RemoteMessage {
  rdest_name : list byte;
  rdest_handle : Z;
  rmessage : option (list byte);
  rsz : Z;
  rtype : Z
}.

(** What the [void * data] of a message points to: nothing, a byte
    buffer, or a [struct remote_message] handed to the harbor service. *)
Inductive payload :=
| PNull
| PBytes (b : list byte)
| PRemote (r : remote_message).

Record skynet_message := Message {
  source : Z;      (* uint32_t *)
  session : Z;     (* int *)
  data : payload;  (* void * *)
  sz : Z           (* size_t, type in the high 8 bits *)
}.

Definition is_null (p : payload) : bool :=
  match p with PNull => true | _ => false end.

(** Contents of memory returned by [skynet_malloc] before it is written. *)
Definition uninit_message : skynet_message := Message 0 0 PNull 0.

#[global] Instance skynet_message_inhabited : Inhabited skynet_message :=
  populate uninit_message.

(** ** skynet_mq.c *)
Module Mq.

Definition DEFAULT_QUEUE_SIZE : Z := 64.
Definition MQ_IN_GLOBAL : Z := 1.
Definition MQ_OVERLOAD : Z := 1024.

Record message_queue := MessageQueue {
  handle : Z;
  cap : Z;
  head : Z;
  tail : Z;
  release : Z;
  in_global : Z;
  overload : Z;
  overload_threshold : Z;
  queue : list skynet_message
}.

Definition set_ring (q : message_queue) (c h t : Z) (a : list skynet_message) :=
  MessageQueue (handle q) c h t (release q) (in_global q) (overload q)
               (overload_threshold q) a.

Definition set_in_global (q : message_queue) (g : Z) :=
  MessageQueue (handle q) (cap q) (head q) (tail q) (release q) g (overload q)
               (overload_threshold q) (queue q).

Definition set_overload (q : message_queue) (o th : Z) :=
  MessageQueue (handle q) (cap q) (head q) (tail q) (release q) (in_global q) o
               th (queue q).

Definition set_release (q : message_queue) (r : Z) :=
  MessageQueue (handle q) (cap q) (head q) (tail q) r (in_global q) (overload q)
               (overload_threshold q) (queue q).

(** [q->queue[i]] *)
Definition slot (a : list skynet_message) (i : Z) : skynet_message :=
  a !!! Z.to_nat i.

Definition skynet_mq_create (h : Z) : message_queue :=
  MessageQueue h DEFAULT_QUEUE_SIZE 0 0 0 MQ_IN_GLOBAL 0 MQ_OVERLOAD
               (replicate (Z.to_nat DEFAULT_QUEUE_SIZE) uninit_message).

Definition skynet_mq_handle (q : message_queue) : Z := handle q.

Definition skynet_mq_length (q : message_queue) : Z :=
  if head q <=? tail q then tail q - head q
  else tail q + cap q - head q.

(** [skynet_mq_overload]: report and clear the sticky overload field. *)
Definition skynet_mq_overload (q : message_queue) : message_queue * Z :=
  if overload q =? 0 then (q, 0)
  else (set_overload q 0 (overload_threshold q), overload q).

(** The [while (length > q->overload_threshold)] loop of [skynet_mq_pop].
    The threshold is an [int] that doubles, so 32 rounds always suffice
    while it is positive; the fuel is the number of rounds allowed. *)
Fixpoint overload_loop (fuel : nat) (length o th : Z) : Z * Z :=
  match fuel with
  | O => (o, th)
  | S f =>
      if th <? length then overload_loop f length length (wrap_int (th * 2))
      else (o, th)
  end.

(** [skynet_mq_pop]: [None] stands for return value 1 (queue empty). *)
Definition skynet_mq_pop (q : message_queue)
  : message_queue * option skynet_message :=
  if negb (head q =? tail q) then
    let m := slot (queue q) (head q) in
    let head1 := wrap_int (head q + 1) in
    let head2 := if cap q <=? head1 then 0 else head1 in
    let length0 := tail q - head2 in
    let length := if length0 <? 0 then length0 + cap q else length0 in
    let '(o, th) := overload_loop 32 length (overload q) (overload_threshold q) in
    (MessageQueue (handle q) (cap q) head2 (tail q) (release q) (in_global q)
                  o th (queue q), Some m)
  else
    (MessageQueue (handle q) (cap q) (head q) (tail q) (release q) 0
                  (overload q) MQ_OVERLOAD (queue q), None).

(** The copy loop of [expand_queue]:
    [new_queue[i] = q->queue[(q->head + i) % q->cap]] for [i] in [0, cap). *)
Definition expand_copy (q : message_queue) : list skynet_message :=
  (fun i : nat => slot (queue q) ((head q + Z.of_nat i) mod cap q))
    <$> seq 0 (Z.to_nat (cap q)).

Definition expand_queue (q : message_queue) : message_queue :=
  let new_queue :=
    expand_copy q ++ replicate (Z.to_nat (cap q)) uninit_message in
  set_ring q (wrap_int (cap q * 2)) 0 (cap q) new_queue.

(** [skynet_mq_push]: the returned flag tells that the mailbox was not on
    the global run queue and [skynet_globalmq_push(q)] has been called. *)
Definition skynet_mq_push (q : message_queue) (message : skynet_message)
  : message_queue * bool :=
  let a := <[Z.to_nat (tail q) := message]> (queue q) in
  let tail1 := wrap_int (tail q + 1) in
  let tail2 := if cap q <=? tail1 then 0 else tail1 in
  let q1 := set_ring q (cap q) (head q) tail2 a in
  let q2 := if head q1 =? tail q1 then expand_queue q1 else q1 in
  if in_global q2 =? 0 then (set_in_global q2 MQ_IN_GLOBAL, true)
  else (q2, false).

(** [skynet_mq_mark_release]: [None] is the failed
    [assert(q->release == 0)]; the flag again reports a global push. *)
Definition skynet_mq_mark_release (q : message_queue)
  : option (message_queue * bool) :=
  if release q =? 0 then
    let q1 := set_release q 1 in
    Some (q1, negb (in_global q1 =? MQ_IN_GLOBAL))
  else None.

(** *** Abstract view of a mailbox *)

(** The queued messages, oldest first: the ring read from [head] for
    [skynet_mq_length] slots. *)
Definition messages (q : message_queue) : list skynet_message :=
  (fun i : nat => slot (queue q) ((head q + Z.of_nat i) mod cap q))
    <$> seq 0 (Z.to_nat (skynet_mq_length q)).

(** Representation invariant of the ring. *)
Record wf (q : message_queue) : Prop := Wf {
  wf_cap : 0 < cap q;
  wf_cap_int : cap q <= INT_MAX;
  wf_head : 0 <= head q < cap q;
  wf_tail : 0 <= tail q < cap q;
  wf_len : length (queue q) = Z.to_nat (cap q)
}.

(** [n] successive slots of the ring [a] of capacity [c], from index [h]. *)
Definition ring_slice (a : list skynet_message) (h c : Z) (n : nat) :=
  (fun i : nat => slot a ((h + Z.of_nat i) mod c)) <$> seq 0 n.

Lemma messages_ring_slice q :
  messages q = ring_slice (queue q) (head q) (cap q) (Z.to_nat (skynet_mq_length q)).
Proof. reflexivity. Qed.

Lemma length_ring_slice a h c n : length (ring_slice a h c n) = n.
Proof. unfold ring_slice. by rewrite length_fmap, length_seq. Qed.

Lemma length_messages q : length (messages q) = Z.to_nat (skynet_mq_length q).
Proof. apply length_ring_slice. Qed.

Lemma skynet_mq_length_range q :
  wf q -> 0 <= skynet_mq_length q < cap q.
Proof.
  intros [? ? ? ? ?]. unfold skynet_mq_length.
  destruct (Z.leb_spec (head q) (tail q)); lia.
Qed.

Lemma skynet_mq_length_mod q :
  wf q -> (head q + skynet_mq_length q) mod cap q = tail q.
Proof.
  intros [Hc _ Hh Ht _]. unfold skynet_mq_length.
  destruct (Z.leb_spec (head q) (tail q)).
  - replace (head q + (tail q - head q)) with (tail q) by lia.
    apply Z.mod_small; lia.
  - replace (head q + (tail q + cap q - head q)) with (tail q + 1 * cap q) by lia.
    rewrite Z.mod_add by lia. apply Z.mod_small; lia.
Qed.

(** Two ring offsets below the capacity address the same slot only if
    they are equal. *)
Lemma ring_index_inj h c i j :
  0 < c -> 0 <= i < c -> 0 <= j < c ->
  (h + i) mod c = (h + j) mod c -> i = j.
Proof.
  intros Hc Hi Hj Heq.
  assert (Hd : (i - j) mod c = 0).
  { replace (i - j) with ((h + i) - (h + j)) by lia.
    rewrite Zminus_mod, Heq, Z.sub_diag. apply Z.mod_0_l. lia. }
  apply Z.mod_divide in Hd; [|lia]. destruct Hd as [k Hk].
  assert (k = 0) by nia. lia.
Qed.

(** Writing the slot that follows a slice extends the slice. *)
Lemma ring_slice_write a h c n m :
  0 < c -> length a = Z.to_nat c -> Z.of_nat n < c ->
  ring_slice (<[Z.to_nat ((h + Z.of_nat n) mod c) := m]> a) h c (S n)
  = ring_slice a h c n ++ [m].
Proof.
  intros Hc Hlen Hn. unfold ring_slice.
  rewrite seq_S, fmap_app. simpl. f_equal.
  - apply list_fmap_ext. intros k i Hi.
    apply lookup_seq in Hi as [-> Hk]. simpl. unfold slot.
    apply list_lookup_total_insert_ne. intros Heq.
    apply Z2Nat.inj in Heq; try (apply Z.mod_pos_bound; lia).
    apply ring_index_inj in Heq; lia.
  - f_equal. unfold slot. apply list_lookup_total_insert_eq.
    rewrite Hlen. pose proof (Z.mod_pos_bound (h + Z.of_nat n) c Hc). lia.
Qed.

(** The copy made by [expand_queue] holds the whole old ring, in order. *)
Lemma expand_copy_slice q :
  expand_copy q = ring_slice (queue q) (head q) (cap q) (Z.to_nat (cap q)).
Proof. reflexivity. Qed.

Lemma ring_slice_prefix a b c n :
  0 < c -> (n <= length a)%nat -> Z.of_nat (length a) <= c ->
  ring_slice (a ++ b) 0 c n = take n a.
Proof.
  intros Hc Hn Hl. unfold ring_slice. apply list_eq. intros i.
  rewrite list_lookup_fmap.
  destruct (decide (i < n)%nat) as [Hi|Hi].
  - rewrite lookup_seq_lt by done. simpl.
    rewrite lookup_take_lt by done. unfold slot.
    rewrite Z.add_0_l, Z.mod_small by lia. rewrite Nat2Z.id.
    rewrite lookup_total_app_l by lia.
    symmetry. apply list_lookup_lookup_total_lt. lia.
  - rewrite lookup_seq_ge by lia. simpl.
    symmetry. apply lookup_take_ge. lia.
Qed.

(** The wrapped tail of [skynet_mq_push] is the successor modulo [cap]. *)
Lemma next_tail_mod q :
  wf q ->
  (if cap q <=? wrap_int (tail q + 1) then 0 else wrap_int (tail q + 1))
  = (tail q + 1) mod cap q.
Proof.
  intros [Hc Hci Hh Ht _].
  rewrite wrap_int_id by (unfold in_int, INT_MIN, INT_MAX in *; lia).
  destruct (Z.leb_spec (cap q) (tail q + 1)).
  - assert (tail q + 1 = cap q) as -> by lia. by rewrite Z.mod_same by lia.
  - by rewrite Z.mod_small by lia.
Qed.

Lemma length_after_write q :
  wf q -> (tail q + 1) mod cap q <> head q ->
  skynet_mq_length (set_ring q (cap q) (head q) ((tail q + 1) mod cap q) (queue q))
  = skynet_mq_length q + 1.
Proof.
  intros Hwf Hne. pose proof Hwf as [Hc Hci Hh Ht _].
  unfold skynet_mq_length; simpl.
  destruct (Z.eq_dec (tail q + 1) (cap q)) as [He|He].
  - rewrite He, Z.mod_same in * by lia.
    destruct (Z.leb_spec (head q) 0), (Z.leb_spec (head q) (tail q)); lia.
  - rewrite Z.mod_small in * by lia.
    destruct (Z.leb_spec (head q) (tail q + 1)), (Z.leb_spec (head q) (tail q)); lia.
Qed.

Lemma length_when_full q :
  wf q -> (tail q + 1) mod cap q = head q ->
  skynet_mq_length q = cap q - 1.
Proof.
  intros Hwf Heq. pose proof Hwf as [Hc Hci Hh Ht _].
  unfold skynet_mq_length.
  destruct (Z.eq_dec (tail q + 1) (cap q)) as [He|He].
  - rewrite He, Z.mod_same in * by lia.
    destruct (Z.leb_spec (head q) (tail q)); lia.
  - rewrite Z.mod_small in * by lia.
    destruct (Z.leb_spec (head q) (tail q)); lia.
Qed.

(** FIFO view of the array write at [tail]. *)
Lemma write_tail_slice q m :
  wf q ->
  ring_slice (<[Z.to_nat (tail q) := m]> (queue q)) (head q) (cap q)
             (S (Z.to_nat (skynet_mq_length q)))
  = messages q ++ [m].
Proof.
  intros Hwf. pose proof Hwf as [Hc Hci Hh Ht Hl].
  pose proof (skynet_mq_length_range q Hwf) as Hr.
  rewrite <- (skynet_mq_length_mod q Hwf) at 1.
  rewrite <- (Z2Nat.id (skynet_mq_length q)) at 1 by lia.
  rewrite ring_slice_write; [done|done|done|lia].
Qed.

Section PushFacts.
Variables (q : message_queue) (message : skynet_message).
Hypothesis Hwf : wf q.

Let q' := (skynet_mq_push q message).1.

Lemma push_keeps_cap :
  (tail q + 1) mod cap q <> head q ->
  cap q' = cap q /\ head q' = head q /\ tail q' = (tail q + 1) mod cap q
  /\ queue q' = <[Z.to_nat (tail q) := message]> (queue q).
Proof.
  intros Hne. subst q'. unfold skynet_mq_push. simpl.
  rewrite next_tail_mod by done.
  destruct (Z.eqb_spec (head q) ((tail q + 1) mod cap q)); [congruence|].
  simpl. by destruct (in_global q =? 0).
Qed.

Lemma push_doubles_cap :
  (tail q + 1) mod cap q = head q ->
  cap q' = wrap_int (cap q * 2) /\ head q' = 0 /\ tail q' = cap q
  /\ queue q'
     = ring_slice (<[Z.to_nat (tail q) := message]> (queue q))
                  (head q) (cap q) (Z.to_nat (cap q))
       ++ replicate (Z.to_nat (cap q)) uninit_message.
Proof.
  intros Heq. subst q'. unfold skynet_mq_push. simpl.
  rewrite next_tail_mod by done.
  destruct (Z.eqb_spec (head q) ((tail q + 1) mod cap q)); [|congruence].
  unfold expand_queue, expand_copy, ring_slice. simpl.
  rewrite <- Heq. by destruct (in_global q =? 0).
Qed.

Lemma push_messages :
  cap q * 2 <= INT_MAX -> messages q' = messages q ++ [message].
Proof.
  intros Hmax. pose proof Hwf as [Hc Hci Hh Ht Hl].
  pose proof (skynet_mq_length_range q Hwf) as Hr.
  destruct (Z.eq_dec ((tail q + 1) mod cap q) (head q)) as [Hfull|Hroom].
  - destruct (push_doubles_cap Hfull) as (Hcap & Hhd & Htl & Hq).
    rewrite wrap_int_id in Hcap
      by (unfold in_int, INT_MIN, INT_MAX in *; lia).
    rewrite messages_ring_slice. unfold skynet_mq_length.
    rewrite Hcap, Hhd, Htl, Hq.
    destruct (Z.leb_spec 0 (cap q)); [|lia].
    rewrite Z.sub_0_r, ring_slice_prefix.
    + rewrite take_ge by (rewrite length_ring_slice; lia).
      rewrite <- write_tail_slice by done.
      rewrite (length_when_full q Hwf Hfull).
      replace (S (Z.to_nat (cap q - 1))) with (Z.to_nat (cap q)) by lia.
      done.
    + lia.
    + rewrite length_ring_slice; lia.
    + rewrite length_ring_slice; lia.
  - destruct (push_keeps_cap Hroom) as (Hcap & Hhd & Htl & Hq).
    rewrite messages_ring_slice.
    assert (Hlen : skynet_mq_length q' = skynet_mq_length q + 1).
    { rewrite <- (length_after_write q Hwf Hroom).
      unfold skynet_mq_length. simpl. by rewrite Hcap, Hhd, Htl. }
    rewrite Hlen, Hcap, Hhd, Hq.
    replace (Z.to_nat (skynet_mq_length q + 1))
      with (S (Z.to_nat (skynet_mq_length q))) by lia.
    by apply write_tail_slice.
Qed.

Lemma push_wf : cap q * 2 <= INT_MAX -> wf q'.
Proof.
  intros Hmax. pose proof Hwf as [Hc Hci Hh Ht Hl].
  destruct (Z.eq_dec ((tail q + 1) mod cap q) (head q)) as [Hfull|Hroom].
  - destruct (push_doubles_cap Hfull) as (Hcap & Hhd & Htl & Hq).
    rewrite wrap_int_id in Hcap
      by (unfold in_int, INT_MIN, INT_MAX in *; lia).
    constructor; rewrite ?Hcap, ?Hhd, ?Htl, ?Hq; try lia.
    rewrite length_app, length_ring_slice, length_replicate. lia.
  - destruct (push_keeps_cap Hroom) as (Hcap & Hhd & Htl & Hq).
    pose proof (Z.mod_pos_bound (tail q + 1) (cap q) Hc).
    constructor; rewrite ?Hcap, ?Hhd, ?Htl, ?Hq; try lia.
    by rewrite length_insert.
Qed.
End PushFacts.

(** *** Popping *)

Lemma overload_loop_fst_snd fuel len o th :
  exists o' th', overload_loop fuel len o th = (o', th').
Proof. destruct (overload_loop fuel len o th); eauto. Qed.

Lemma ring_slice_cons a h c n :
  0 < c -> 0 <= h < c ->
  ring_slice a h c (S n) = slot a h :: ring_slice a ((h + 1) mod c) c n.
Proof.
  intros Hc Hh. unfold ring_slice. simpl. f_equal.
  - by rewrite Z.add_0_r, Z.mod_small by lia.
  - rewrite <- fmap_S_seq, <- list_fmap_compose. apply list_fmap_ext.
    intros _ i _. simpl. f_equal.
    rewrite Zplus_mod_idemp_l. f_equal. lia.
Qed.

(** A non-empty mailbox gives up its oldest message. *)
Lemma pop_nonempty q :
  wf q -> 1 <= skynet_mq_length q ->
  exists q1 m,
    skynet_mq_pop q = (q1, Some m)
    /\ messages q = m :: messages q1
    /\ wf q1
    /\ skynet_mq_length q1 = skynet_mq_length q - 1
    /\ handle q1 = handle q.
Proof.
  intros Hwf Hlen. pose proof Hwf as [Hc Hci Hh Ht Hl].
  unfold skynet_mq_pop.
  assert (Hne : head q <> tail q).
  { intros Heq. unfold skynet_mq_length in Hlen. rewrite Heq, Z.leb_refl in Hlen. lia. }
  destruct (Z.eqb_spec (head q) (tail q)) as [|_]; [done|]. cbn [negb].
  rewrite wrap_int_id by (unfold in_int, INT_MIN, INT_MAX in *; lia).
  set (head2 := if cap q <=? head q + 1 then 0 else head q + 1).
  assert (Hhead2 : head2 = (head q + 1) mod cap q).
  { subst head2. destruct (Z.leb_spec (cap q) (head q + 1)).
    - assert (head q + 1 = cap q) as -> by lia. by rewrite Z.mod_same by lia.
    - by rewrite Z.mod_small by lia. }
  destruct (overload_loop_fst_snd 32
              (if tail q - head2 <? 0 then tail q - head2 + cap q else tail q - head2)
              (overload q) (overload_threshold q)) as (o' & th' & ->).
  eexists _, _. split; [reflexivity|].
  pose proof (Z.mod_pos_bound (head q + 1) (cap q) Hc) as Hb.
  assert (Hlen1 : skynet_mq_length
            (MessageQueue (handle q) (cap q) head2 (tail q) (release q)
               (in_global q) o' th' (queue q)) = skynet_mq_length q - 1).
  { unfold skynet_mq_length. cbn [head tail cap]. rewrite Hhead2.
    destruct (Z.eq_dec (head q + 1) (cap q)) as [He|He].
    - rewrite He, Z.mod_same by lia.
      destruct (Z.leb_spec 0 (tail q)), (Z.leb_spec (head q) (tail q)); lia.
    - rewrite Z.mod_small by lia.
      destruct (Z.leb_spec (head q + 1) (tail q)), (Z.leb_spec (head q) (tail q)); lia. }
  split; [|split; [|split; [exact Hlen1|reflexivity]]].
  - rewrite !messages_ring_slice, Hlen1. cbn [head tail cap queue].
    replace (Z.to_nat (skynet_mq_length q))
      with (S (Z.to_nat (skynet_mq_length q - 1))) by lia.
    rewrite ring_slice_cons by done. by rewrite Hhead2.
  - constructor; cbn [head tail cap queue]; try done. lia.
Qed.

Lemma overload_keeps_ring q :
  let q2 := (skynet_mq_overload q).1 in
  messages q2 = messages q /\ skynet_mq_length q2 = skynet_mq_length q
  /\ handle q2 = handle q /\ (wf q -> wf q2).
Proof.
  unfold skynet_mq_overload. destruct (overload q =? 0); cbn; [done|].
  split; [done|]. split; [done|]. split; [done|].
  intros [? ? ? ? ?]. by constructor.
Qed.

(** A fresh mailbox and its first pushes: the capacity stays 64 for 63
    pushes and the 64th, which makes [head == tail], doubles it. *)
Definition push_n (n : nat) (q : message_queue) : message_queue :=
  fold_left (fun acc i => (skynet_mq_push acc (Message 0 (Z.of_nat i) PNull 0)).1)
            (seq 0 n) q.

Lemma fresh_mailbox_wf h : wf (skynet_mq_create h).
Proof. constructor; simpl; unfold DEFAULT_QUEUE_SIZE, INT_MAX; try lia; done. Qed.

Lemma fresh_mailbox_grows_at_64 :
  cap (push_n 63 (skynet_mq_create 1)) = 64
  /\ cap (push_n 64 (skynet_mq_create 1)) = 128
  /\ messages (push_n 64 (skynet_mq_create 1))
     = (fun i : nat => Message 0 (Z.of_nat i) PNull 0) <$> seq 0 64.
Proof. vm_compute. auto. Qed.

(** C5. [skynet_mq_push] stores the message in slot [tail] and advances
    [tail] modulo the capacity; the capacity doubles exactly when that
    makes [head == tail] (64 becomes 128), the doubled ring holding the
    old ring copied in order from its head; in both cases the queued
    messages are the old ones followed by the new one (FIFO). *)
Theorem skynet_mq_push_ring (q : message_queue) (message : skynet_message) :
  wf q -> cap q * 2 <= INT_MAX ->
  let q' := (skynet_mq_push q message).1 in
  let written := <[Z.to_nat (tail q) := message]> (queue q) in
  let wraps := (tail q + 1) mod cap q in
  slot written (tail q) = message
  /\ (wraps <> head q ->
      cap q' = cap q /\ head q' = head q /\ tail q' = wraps /\ queue q' = written)
  /\ (wraps = head q ->
      cap q' = 2 * cap q /\ head q' = 0 /\ tail q' = cap q
      /\ take (Z.to_nat (cap q)) (queue q')
         = ring_slice written (head q) (cap q) (Z.to_nat (cap q)))
  /\ (cap q' = 2 * cap q <-> wraps = head q)
  /\ (cap q = 64 -> wraps = head q -> cap q' = 128)
  /\ messages q' = messages q ++ [message]
  /\ wf q'.
Proof.
  intros Hwf Hmax q' written wraps. pose proof Hwf as [Hc Hci Hh Ht Hl].
  assert (Hgrow : wraps = head q -> cap q' = 2 * cap q /\ head q' = 0
            /\ tail q' = cap q
            /\ take (Z.to_nat (cap q)) (queue q')
               = ring_slice written (head q) (cap q) (Z.to_nat (cap q))).
  { intros Hfull.
    destruct (push_doubles_cap q message Hwf Hfull) as (Hcap & Hhd & Htl & Hq).
    rewrite wrap_int_id in Hcap by (unfold in_int, INT_MIN, INT_MAX in *; lia).
    subst q'. rewrite Hcap, Hhd, Htl, Hq. repeat split; try lia.
    rewrite take_app_length'; [done|]. by rewrite length_ring_slice. }
  split; [|split; [|split; [|split; [|split; [|split]]]]].
  - unfold slot, written. apply list_lookup_total_insert_eq. lia.
  - intros Hroom. by apply push_keeps_cap.
  - exact Hgrow.
  - split.
    + intros Hcap. destruct (Z.eq_dec wraps (head q)) as [|Hroom]; [done|].
      destruct (push_keeps_cap q message Hwf Hroom) as (Hcap' & _).
      subst q'. lia.
    + intros Hfull. by destruct (Hgrow Hfull).
  - intros H64 Hfull. destruct (Hgrow Hfull) as (-> & _). lia.
  - by apply push_messages.
  - by apply push_wf.
Qed.

Lemma skynet_mq_push_ring_witness :
  let q := push_n 63 (skynet_mq_create 1) in
  let q' := (skynet_mq_push q (Message 9 9 PNull 0)).1 in
  cap q = 64 /\ cap q' = 128 /\ length (messages q') = 64%nat.
Proof.
  assert (Hwf : wf (push_n 63 (skynet_mq_create 1))).
  { constructor; vm_compute; try done; try (split; congruence). }
  assert (Hmax : cap (push_n 63 (skynet_mq_create 1)) * 2 <= INT_MAX).
  { vm_compute. congruence. }
  pose proof (skynet_mq_push_ring _ (Message 9 9 PNull 0) Hwf Hmax) as H.
  cbv zeta in H. destruct H as (_ & _ & _ & _ & H64 & Hm & _).
  intros q q'. split; [reflexivity|]. split.
  - apply H64; reflexivity.
  - subst q q'. rewrite Hm. reflexivity.
Defined.

End Mq.

(** ** C strings *)

(** [strcmp]: bytes are compared as [unsigned char]; the end of a string
    reads as the terminating NUL. *)
Fixpoint strcmp (a b : string) : Z :=
  match a, b with
  | EmptyString, EmptyString => 0
  | EmptyString, String c _ => 0 - Z.of_nat (nat_of_ascii c)
  | String c _, EmptyString => Z.of_nat (nat_of_ascii c)
  | String c1 a', String c2 b' =>
      if Z.of_nat (nat_of_ascii c1) =? Z.of_nat (nat_of_ascii c2)
      then strcmp a' b'
      else Z.of_nat (nat_of_ascii c1) - Z.of_nat (nat_of_ascii c2)
  end.

(** A C string holds no NUL before its terminator. *)
Fixpoint cstring (s : string) : Prop :=
  match s with
  | EmptyString => True
  | String c s' => nat_of_ascii c <> 0%nat /\ cstring s'
  end.

Lemma strcmp_refl a : strcmp a a = 0.
Proof. induction a as [|c a IH]; cbn [strcmp]; [done|]. by rewrite Z.eqb_refl. Qed.

Lemma ascii_code_inj c1 c2 :
  Z.of_nat (nat_of_ascii c1) = Z.of_nat (nat_of_ascii c2) -> c1 = c2.
Proof.
  intros H. apply Nat2Z.inj in H.
  rewrite <- (ascii_nat_embedding c1), <- (ascii_nat_embedding c2). by rewrite H.
Qed.

Lemma strcmp_eq a b : cstring a -> cstring b -> strcmp a b = 0 -> a = b.
Proof.
  revert b. induction a as [|c a IH]; intros [|d b]; cbn [strcmp cstring]; try done.
  - intros _ [Hd _] H. exfalso; lia.
  - intros [Hc _] _ H. exfalso; lia.
  - intros [_ Ha] [_ Hb].
    destruct (Z.eqb_spec (Z.of_nat (nat_of_ascii c)) (Z.of_nat (nat_of_ascii d)))
      as [Hcd|Hcd]; [|intros; exfalso; lia].
    intros H. apply ascii_code_inj in Hcd as ->. f_equal. by apply IH.
Qed.

Lemma strcmp_antisym a b : cstring a -> cstring b -> strcmp a b < 0 -> 0 < strcmp b a.
Proof.
  revert b. induction a as [|c a IH]; intros [|d b]; cbn [strcmp cstring]; try lia.
  intros [_ Ha] [_ Hb].
  destruct (Z.eqb_spec (Z.of_nat (nat_of_ascii c)) (Z.of_nat (nat_of_ascii d))),
           (Z.eqb_spec (Z.of_nat (nat_of_ascii d)) (Z.of_nat (nat_of_ascii c)));
    try lia.
  by apply IH.
Qed.

Lemma strcmp_antisym_gt a b :
  cstring a -> cstring b -> 0 < strcmp a b -> strcmp b a < 0.
Proof.
  revert b. induction a as [|c a IH]; intros [|d b]; cbn [strcmp cstring]; try lia.
  intros [_ Ha] [_ Hb].
  destruct (Z.eqb_spec (Z.of_nat (nat_of_ascii c)) (Z.of_nat (nat_of_ascii d))),
           (Z.eqb_spec (Z.of_nat (nat_of_ascii d)) (Z.of_nat (nat_of_ascii c)));
    try lia.
  by apply IH.
Qed.

Lemma strcmp_trans a b c :
  cstring a -> cstring b -> cstring c ->
  strcmp a b < 0 -> strcmp b c < 0 -> strcmp a c < 0.
Proof.
  revert b c. induction a as [|x a IH]; intros [|y b] [|z c]; cbn [strcmp cstring]; try lia.
  intros [_ Ha] [_ Hb] [_ Hc].
  destruct (Z.eqb_spec (Z.of_nat (nat_of_ascii x)) (Z.of_nat (nat_of_ascii y))),
             (Z.eqb_spec (Z.of_nat (nat_of_ascii y)) (Z.of_nat (nat_of_ascii z))),
             (Z.eqb_spec (Z.of_nat (nat_of_ascii x)) (Z.of_nat (nat_of_ascii z)));
    try lia.
  apply IH; done.
Qed.

(** ** Service contexts (struct skynet_context of skynet_server.c)

    The reference count is not modelled: every modelled path pairs a grab
    with a release, and the registry keeps its own reference meanwhile.
    Pointers are addresses ([nat]) into the heaps of the world record. *)

(** Contents of the [char result[32]] buffer: a literal, or what
    [sprintf] renders from an integer ("%d", "%zu") or from a time in
    microseconds shown in seconds ("%lf"). *)
Inductive result_text :=
| Lit (s : string)
| Dec (z : Z)
| Seconds (micros : Z).

Record skynet_context := Context {
  ctx_handle : Z;        (* uint32_t handle *)
  session_id : Z;        (* int session_id *)
  ctx_queue : nat;       (* struct message_queue *queue *)
  has_cb : bool;         (* cb != NULL *)
  message_count : Z;     (* size_t message_count *)
  cpu_cost : Z;          (* uint64_t, microseconds *)
  cpu_start : Z;         (* uint64_t, microseconds *)
  init : bool;
  endless : bool;
  profile : bool;
  result : result_text   (* char result[32] *)
}.

Definition set_session_id (c : skynet_context) (s : Z) :=
  Context (ctx_handle c) s (ctx_queue c) (has_cb c) (message_count c)
          (cpu_cost c) (cpu_start c) (init c) (endless c) (profile c) (result c).

Definition set_endless (c : skynet_context) (e : bool) :=
  Context (ctx_handle c) (session_id c) (ctx_queue c) (has_cb c)
          (message_count c) (cpu_cost c) (cpu_start c) (init c) e (profile c)
          (result c).

Definition set_result (c : skynet_context) (r : result_text) :=
  Context (ctx_handle c) (session_id c) (ctx_queue c) (has_cb c)
          (message_count c) (cpu_cost c) (cpu_start c) (init c) (endless c)
          (profile c) r.

Definition set_message_count (c : skynet_context) (n : Z) :=
  Context (ctx_handle c) (session_id c) (ctx_queue c) (has_cb c) n
          (cpu_cost c) (cpu_start c) (init c) (endless c) (profile c) (result c).

(** Results of code that may stop the process: a failed [assert] or a
    NULL dereference is [Abort]; [Fuel] is a bounded loop of the model
    running out of rounds (shown not to happen where it matters). *)
Inductive outcome (A : Type) :=
| Ok (a : A)
| Abort
| Fuel.
Arguments Ok {A} a.
Arguments Abort {A}.
Arguments Fuel {A}.

#[global] Instance outcome_bind : MBind outcome := fun A B f x =>
  match x with
  | Ok a => f a
  | Abort => Abort
  | Fuel => Fuel
  end.

#[global] Instance outcome_ret : MRet outcome := fun A a => Ok a.

(** ** skynet_handle.c *)
Module Handle.

Definition DEFAULT_SLOT_SIZE : Z := 4.
Definition MAX_SLOT_SIZE : Z := 1073741824.

(** skynet_handle.h: a handle has the node in its high 8 bits and the
    local slot in its low 24 bits. *)
Definition HANDLE_MASK : Z := 16777215.
Definition HANDLE_REMOTE_SHIFT : Z := 24.

Record handle_name := HandleName {
  name : string;
  nhandle : Z
}.

#[global] Instance handle_name_inhabited : Inhabited handle_name :=
  populate (HandleName EmptyString 0).

(** [slot] holds context pointers (addresses in the context heap, [None]
    for NULL); [names] is the live prefix [name[0 .. name_count)] of the
    name array. *)
Record handle_storage := HandleStorage {
  harbor : Z;
  handle_index : Z;
  slot_size : Z;
  slot : list (option nat);
  name_cap : Z;
  names : list handle_name
}.

Definition name_count (s : handle_storage) : Z := Z.of_nat (length (names s)).

Definition set_names (s : handle_storage) (cap : Z) (ns : list handle_name) :=
  HandleStorage (harbor s) (handle_index s) (slot_size s) (slot s) cap ns.

Definition skynet_handle_init (harbor : Z) : handle_storage :=
  HandleStorage (Z.shiftl (Z.land harbor 255) HANDLE_REMOTE_SHIFT) 1
                DEFAULT_SLOT_SIZE
                (replicate (Z.to_nat DEFAULT_SLOT_SIZE) None) 2 [].

(** [hash = handle & (s->slot_size-1)] *)
Definition hash_of (s : handle_storage) (handle : Z) : nat :=
  Z.to_nat (Z.land handle (slot_size s - 1)).

(** [skynet_handle_grab]: the context in the slot of [handle], provided it
    carries that very handle. [ctxs] is the heap the pointers refer to. *)
Definition skynet_handle_grab (ctxs : gmap nat skynet_context)
    (s : handle_storage) (handle : Z) : option nat :=
  match slot s !! hash_of s handle with
  | Some (Some p) =>
      match ctxs !! p with
      | Some ctx => if ctx_handle ctx =? handle then Some p else None
      | None => None
      end
  | _ => None
  end.

(** [skynet_handle_retire]: clears the slot and drops the names of the
    handle; returns the new storage and the [ret] flag. *)
Definition skynet_handle_retire (ctxs : gmap nat skynet_context)
    (s : handle_storage) (handle : Z) : handle_storage * Z :=
  match skynet_handle_grab ctxs s handle with
  | Some _ =>
      let a := <[hash_of s handle := None]> (slot s) in
      let ns := filter (fun n => nhandle n <> handle) (names s) in
      (HandleStorage (harbor s) (handle_index s) (slot_size s) a (name_cap s) ns, 1)
  | None => (s, 0)
  end.

(** Result of the binary search that [skynet_handle_findname] and
    [_insert_name] both run: the index of the entry, or the value of
    [begin] when the loop ends without a match. *)
Inductive search_result :=
| Found (mid : Z)
| NotFound (begin : Z).

(** [while (begin<=end) { mid = (begin+end)/2; c = strcmp(...); ... }].
    [None] means the fuel ran out before the loop ended. *)
Fixpoint name_search (fuel : nat) (a : list handle_name) (nm : string)
    (begin end_ : Z) : option search_result :=
  if begin <=? end_ then
    match fuel with
    | O => None
    | S f =>
        let mid := Z.quot (begin + end_) 2 in
        let n := a !!! Z.to_nat mid in
        let c := strcmp (name n) nm in
        if c =? 0 then Some (Found mid)
        else if c <? 0 then name_search f a nm (mid + 1) end_
        else name_search f a nm begin (mid - 1)
    end
  else Some (NotFound begin).

(** The loop halves [end - begin + 1] each round; that many rounds is
    more than enough. *)
Definition search_names (s : handle_storage) (nm : string) : option search_result :=
  name_search (S (length (names s))) (names s) nm 0 (name_count s - 1).

Definition skynet_handle_findname (s : handle_storage) (nm : string) : Z :=
  match search_names s nm with
  | Some (Found mid) => nhandle (names s !!! Z.to_nat mid)
  | _ => 0
  end.

(** [_insert_name_before]: grows the table when full (asserting the new
    capacity), shifts the tail up by one and stores the entry. *)
Definition _insert_name_before (s : handle_storage) (nm : string) (handle : Z)
    (before : Z) : outcome handle_storage :=
  let entry := HandleName nm handle in
  let ns := take (Z.to_nat before) (names s) ++ entry
            :: drop (Z.to_nat before) (names s) in
  if name_cap s <=? name_count s then
    let cap2 := wrap_int (name_cap s * 2) in
    if cap2 <=? MAX_SLOT_SIZE then Ok (set_names s cap2 ns) else Abort
  else Ok (set_names s (name_cap s) ns).

(** [_insert_name]: [None] in the result is the NULL returned for a name
    that is already present. *)
Definition _insert_name (s : handle_storage) (nm : string) (handle : Z)
  : outcome (handle_storage * option string) :=
  match search_names s nm with
  | Some (Found _) => Ok (s, None)
  | Some (NotFound begin) =>
      s' ← _insert_name_before s nm handle begin;
      Ok (s', Some nm)
  | None => Fuel
  end.

Definition skynet_handle_namehandle (s : handle_storage) (handle : Z) (nm : string)
  : outcome (handle_storage * option string) :=
  _insert_name s nm handle.

(** *** Invariant of the name table *)

Definition name_lt (a b : handle_name) : Prop := strcmp (name a) (name b) < 0.

Record names_wf (s : handle_storage) : Prop := NamesWf {
  nw_sorted : StronglySorted name_lt (names s);
  nw_cstring : forall a, a ∈ names s -> cstring (name a);
  nw_cap : 0 < name_cap s <= MAX_SLOT_SIZE;
  nw_count : name_count s <= name_cap s
}.

(** The table is not full, or it may still double. *)
Definition has_room (s : handle_storage) : Prop :=
  name_count s < name_cap s \/ name_cap s * 2 <= MAX_SLOT_SIZE.

Definition bound (s : handle_storage) (nm : string) : Prop :=
  exists a, a ∈ names s /\ name a = nm.

Lemma sorted_lookup_lt (l : list handle_name) i j a b :
  StronglySorted name_lt l ->
  l !! i = Some a -> l !! j = Some b -> (i < j)%nat -> name_lt a b.
Proof.
  intros Hs Ha Hb Hij. rewrite <- (take_drop j l) in Hs.
  eapply StronglySorted_app_1_elem_of; [exact Hs| |].
  - apply elem_of_take. eauto.
  - apply list_elem_of_lookup. exists 0%nat. rewrite lookup_drop.
    by rewrite Nat.add_0_r.
Qed.

Section Search.
Variables (a : list handle_name) (nm : string).
Hypothesis Hsorted : StronglySorted name_lt a.
Hypothesis Hcs : forall x, x ∈ a -> cstring (name x).
Hypothesis Hnm : cstring nm.

(** Entries strictly below index [p] sort before [nm], those from
    [p] on sort after it. *)
Definition splits_at (lo hi : Z) : Prop :=
  (forall i x, a !! i = Some x -> Z.of_nat i < lo -> strcmp (name x) nm < 0)
  /\ (forall i x, a !! i = Some x -> hi < Z.of_nat i -> 0 < strcmp (name x) nm).

Lemma below_mid mid x i y :
  a !! mid = Some x -> strcmp (name x) nm < 0 ->
  a !! i = Some y -> (i <= mid)%nat -> strcmp (name y) nm < 0.
Proof.
  intros Hx Hc Hy Hi. destruct (decide (i = mid)) as [->|Hne].
  - congruence.
  - assert (cstring (name x)) by eauto using list_elem_of_lookup_2.
    assert (cstring (name y)) by eauto using list_elem_of_lookup_2.
    apply (strcmp_trans (name y) (name x) nm); [done..| |done].
    apply (sorted_lookup_lt a i mid); [done..|lia].
Qed.

Lemma above_mid mid x i y :
  a !! mid = Some x -> 0 < strcmp (name x) nm ->
  a !! i = Some y -> (mid <= i)%nat -> 0 < strcmp (name y) nm.
Proof.
  intros Hx Hc Hy Hi. destruct (decide (i = mid)) as [->|Hne].
  - congruence.
  - assert (cstring (name x)) by eauto using list_elem_of_lookup_2.
    assert (cstring (name y)) by eauto using list_elem_of_lookup_2.
    apply strcmp_antisym; [done..|].
    apply (strcmp_trans nm (name x) (name y)); [done..| |].
    + by apply strcmp_antisym_gt.
    + apply (sorted_lookup_lt a mid i); [done..|lia].
Qed.

Lemma name_search_spec fuel lo hi :
  0 <= lo <= hi + 1 -> hi < Z.of_nat (length a) ->
  hi - lo + 1 < Z.of_nat fuel ->
  splits_at lo hi ->
  match name_search fuel a nm lo hi with
  | Some (Found mid) => exists x, a !! Z.to_nat mid = Some x /\ name x = nm /\ 0 <= mid
  | Some (NotFound p) => 0 <= p <= Z.of_nat (length a) /\ splits_at p (p - 1)
  | None => False
  end.
Proof.
  revert lo hi. induction fuel as [|f IH]; intros lo hi Hlo Hhi Hfuel [Hlt Hgt].
  - simpl. destruct (Z.leb_spec lo hi); [lia|].
    split; [lia|]. split; [done|]. intros i x Hx Hi. apply (Hgt i x Hx). lia.
  - cbn [name_search]. destruct (Z.leb_spec lo hi) as [Hle|Hgt'].
    + assert (Hq : Z.quot (lo + hi) 2 = (lo + hi) / 2)
        by (apply Z.quot_div_nonneg; lia).
      rewrite Hq. set (mid := (lo + hi) / 2).
      assert (Hmid : lo <= mid <= hi).
      { subst mid. split.
        - apply Z.div_le_lower_bound; lia.
        - apply Z.div_le_upper_bound; lia. }
      destruct (lookup_lt_is_Some_2 a (Z.to_nat mid)) as [x Hx]; [lia|].
      rewrite (list_lookup_total_correct _ _ _ Hx).
      assert (Hcx : cstring (name x)) by eauto using list_elem_of_lookup_2.
      destruct (Z.eqb_spec (strcmp (name x) nm) 0) as [Hc0|Hc0].
      { exists x. split; [done|]. split; [by apply strcmp_eq|lia]. }
      destruct (Z.ltb_spec (strcmp (name x) nm) 0) as [Hc|Hc].
      * apply IH; [lia|lia|lia|]. split.
        -- intros i y Hy Hi. apply (below_mid (Z.to_nat mid) x i y); [done..|lia].
        -- done.
      * apply IH; [lia|lia|lia|]. split.
        -- done.
        -- intros i y Hy Hi. apply (above_mid (Z.to_nat mid) x i y); [done|lia|done|lia].
    + split; [lia|]. split; [done|].
      intros i x Hx Hi. apply (Hgt i x Hx). lia.
Qed.
End Search.

Lemma search_names_spec s nm :
  names_wf s -> cstring nm ->
  match search_names s nm with
  | Some (Found mid) =>
      exists x, names s !! Z.to_nat mid = Some x /\ name x = nm /\ 0 <= mid
  | Some (NotFound p) =>
      0 <= p <= name_count s /\ splits_at (names s) nm p (p - 1)
  | None => False
  end.
Proof.
  intros [Hs Hc _ _] Hnm. unfold search_names, name_count.
  apply name_search_spec; try done; try lia.
  split; intros i x Hx Hi; [lia|].
  apply lookup_lt_Some in Hx. lia.
Qed.

Lemma name_lt_irrefl x y : name x = name y -> ~ name_lt x y.
Proof. unfold name_lt. intros ->. rewrite strcmp_refl. lia. Qed.

(** In a sorted table a name occurs once. *)
Lemma sorted_name_unique (l : list handle_name) x y :
  StronglySorted name_lt l -> x ∈ l -> y ∈ l -> name x = name y -> x = y.
Proof.
  intros Hs [i Hi]%list_elem_of_lookup [j Hj]%list_elem_of_lookup Heq.
  destruct (Nat.lt_trichotomy i j) as [Hlt|[->|Hlt]].
  - by destruct (name_lt_irrefl x y Heq (sorted_lookup_lt l i j x y Hs Hi Hj Hlt)).
  - congruence.
  - by destruct (name_lt_irrefl y x (eq_sym Heq) (sorted_lookup_lt l j i y x Hs Hj Hi Hlt)).
Qed.

Lemma splits_unbound s nm p :
  splits_at (names s) nm p (p - 1) -> ~ bound s nm.
Proof.
  intros [Hlt Hgt] (x & [i Hi]%list_elem_of_lookup & Hx).
  destruct (Z.lt_ge_cases (Z.of_nat i) p) as [Hip|Hip].
  - specialize (Hlt i x Hi Hip). rewrite Hx, strcmp_refl in Hlt. lia.
  - assert (Hip' : p - 1 < Z.of_nat i) by lia.
    specialize (Hgt i x Hi Hip'). rewrite Hx, strcmp_refl in Hgt. lia.
Qed.

(** What [skynet_handle_findname] returns on a well-formed table. *)
Lemma findname_bound s nm x :
  names_wf s -> cstring nm -> x ∈ names s -> name x = nm ->
  skynet_handle_findname s nm = nhandle x.
Proof.
  intros Hwf Hnm Hx Hname. pose proof (search_names_spec s nm Hwf Hnm) as Hsp.
  unfold skynet_handle_findname. destruct (search_names s nm) as [[mid|p]|]; [| |done].
  - destruct Hsp as (y & Hy & Hyn & _).
    rewrite (list_lookup_total_correct _ _ _ Hy). f_equal.
    apply (sorted_name_unique (names s)); [by destruct Hwf| |done|congruence].
    by eapply list_elem_of_lookup_2.
  - destruct Hsp as [_ Hsplit]. destruct (splits_unbound s nm p Hsplit).
    by exists x.
Qed.

Lemma findname_unbound s nm :
  names_wf s -> cstring nm -> ~ bound s nm -> skynet_handle_findname s nm = 0.
Proof.
  intros Hwf Hnm Hnb. pose proof (search_names_spec s nm Hwf Hnm) as Hsp.
  unfold skynet_handle_findname. destruct (search_names s nm) as [[mid|p]|]; try done.
  destruct Hsp as (y & Hy & Hyn & _). destruct Hnb. exists y.
  split; [by eapply list_elem_of_lookup_2|done].
Qed.

(** Inserting at the position the search stopped at keeps the table sorted. *)
Lemma insert_sorted (l : list handle_name) nm h p :
  StronglySorted name_lt l -> (forall x, x ∈ l -> cstring (name x)) -> cstring nm ->
  0 <= p -> splits_at l nm p (p - 1) ->
  StronglySorted name_lt
    (take (Z.to_nat p) l ++ HandleName nm h :: drop (Z.to_nat p) l).
Proof.
  intros Hs Hcs Hnm Hp [Hlt Hgt].
  rewrite <- (take_drop (Z.to_nat p) l) in Hs.
  apply StronglySorted_app in Hs as (Hcross & Hs1 & Hs2).
  assert (Hbelow : forall x, x ∈ take (Z.to_nat p) l -> name_lt x (HandleName nm h)).
  { intros x (i & Hi & Hip)%elem_of_take. apply (Hlt i x Hi). lia. }
  assert (Habove : forall x, x ∈ drop (Z.to_nat p) l -> name_lt (HandleName nm h) x).
  { intros x [i Hi]%list_elem_of_lookup. rewrite lookup_drop in Hi.
    unfold name_lt. simpl. apply strcmp_antisym_gt; [|done|].
    - apply Hcs. by eapply list_elem_of_lookup_2.
    - apply (Hgt _ x Hi). lia. }
  apply StronglySorted_app. split; [|split; [done|]].
  - intros x1 x2 Hx1 [->|Hx2]%elem_of_cons; [by apply Hbelow|by apply Hcross].
  - apply StronglySorted_cons. split; [|done].
    apply Forall_forall. intros x Hx. by apply Habove.
Qed.

Lemma elem_of_inserted (l : list handle_name) e n x :
  x ∈ take n l ++ e :: drop n l <-> x = e \/ x ∈ l.
Proof.
  assert (Hl : x ∈ l <-> x ∈ take n l \/ x ∈ drop n l)
    by (by rewrite <- elem_of_app, take_drop).
  rewrite elem_of_app, elem_of_cons, Hl. tauto.
Qed.

Section Bind.
Variables (s : handle_storage) (nm : string) (handle : Z).
Hypothesis Hwf : names_wf s.
Hypothesis Hnm : cstring nm.
Hypothesis Hroom : has_room s.

Lemma insert_before_ok p :
  exists cap',
    _insert_name_before s nm handle p
    = Ok (set_names s cap'
            (take (Z.to_nat p) (names s)
             ++ HandleName nm handle :: drop (Z.to_nat p) (names s)))
    /\ name_cap s <= cap' <= MAX_SLOT_SIZE /\ name_count s < cap'.
Proof.
  destruct Hwf as [_ _ Hcap Hcount]. unfold _insert_name_before.
  destruct (Z.leb_spec (name_cap s) (name_count s)) as [Hfull|Hfree].
  - assert (Hdbl : name_cap s * 2 <= MAX_SLOT_SIZE) by (destruct Hroom; lia).
    rewrite wrap_int_id
      by (unfold in_int, INT_MIN, INT_MAX, MAX_SLOT_SIZE in *; lia).
    destruct (Z.leb_spec (name_cap s * 2) MAX_SLOT_SIZE); [|lia].
    exists (name_cap s * 2). split; [done|lia].
  - exists (name_cap s). split; [done|lia].
Qed.

Lemma insert_name_fresh :
  ~ bound s nm ->
  exists s',
    _insert_name s nm handle = Ok (s', Some nm)
    /\ names_wf s'
    /\ (forall x, x ∈ names s' <-> x = HandleName nm handle \/ x ∈ names s).
Proof.
  intros Hfresh. pose proof (search_names_spec s nm Hwf Hnm) as Hsp.
  unfold _insert_name. destruct (search_names s nm) as [[mid|p]|]; [| |done].
  - destruct Hsp as (y & Hy & Hyn & _). destruct Hfresh. exists y.
    split; [by eapply list_elem_of_lookup_2|done].
  - destruct Hsp as [Hp Hsplit].
    destruct (insert_before_ok p) as (cap' & -> & Hcap' & Hcnt).
    eexists. split; [done|]. destruct Hwf as [Hs Hcs Hcap Hcount].
    split; [|intros x; apply elem_of_inserted].
    constructor; simpl.
    + apply insert_sorted; try done. lia.
    + intros x [->|Hx]%elem_of_inserted; [done|by apply Hcs].
    + unfold MAX_SLOT_SIZE in *. lia.
    + unfold name_count in *. simpl.
      rewrite length_app. simpl. rewrite length_take, length_drop. lia.
Qed.

Lemma insert_name_duplicate :
  bound s nm -> _insert_name s nm handle = Ok (s, None).
Proof.
  intros Hb. pose proof (search_names_spec s nm Hwf Hnm) as Hsp.
  unfold _insert_name. destruct (search_names s nm) as [[mid|p]|]; [done| |done].
  destruct Hsp as [_ Hsplit]. by destruct (splits_unbound s nm p Hsplit).
Qed.

Lemma insert_name_null s' :
  _insert_name s nm handle = Ok (s', None) -> bound s nm.
Proof.
  pose proof (search_names_spec s nm Hwf Hnm) as Hsp.
  unfold _insert_name. destruct (search_names s nm) as [[mid|p]|]; [| |done].
  - intros _. destruct Hsp as (y & Hy & Hyn & _). exists y.
    split; [by eapply list_elem_of_lookup_2|done].
  - by destruct (_insert_name_before s nm handle p).
Qed.
End Bind.

(** C7. On a well-formed registry (sorted table of C strings that is not
    at its hard capacity limit), binding a name that is not yet bound
    succeeds and a following lookup of that name returns the bound
    handle; binding fails (returns NULL, table unchanged) exactly when
    the name is already in the table; names bound before keep resolving
    to the handle they had. *)
Theorem bind_then_find (s : handle_storage) (nm : string) (handle : Z) :
  names_wf s -> cstring nm -> has_room s ->
  (~ bound s nm ->
     exists s',
       skynet_handle_namehandle s handle nm = Ok (s', Some nm)
       /\ skynet_handle_findname s' nm = handle
       /\ names_wf s'
       /\ (forall x, x ∈ names s ->
             skynet_handle_findname s' (name x) = skynet_handle_findname s (name x)))
  /\ (bound s nm <->
       exists s', skynet_handle_namehandle s handle nm = Ok (s', None))
  /\ (bound s nm -> skynet_handle_namehandle s handle nm = Ok (s, None)).
Proof.
  intros Hwf Hnm Hroom. unfold skynet_handle_namehandle.
  split; [|split].
  - intros Hfresh.
    destruct (insert_name_fresh s nm handle Hwf Hnm Hroom Hfresh)
      as (s' & Hins & Hwf' & Hmem).
    exists s'. split; [done|]. split; [|split; [done|]].
    + rewrite (findname_bound s' nm (HandleName nm handle)); try done.
      apply Hmem. by left.
    + intros x Hx. destruct Hwf as [Hs Hcs Hcap Hcount].
      rewrite (findname_bound s' (name x) x), (findname_bound s (name x) x);
        try done; try (by apply Hcs).
      apply Hmem. by right.
  - split.
    + intros Hb. exists s. by apply insert_name_duplicate.
    + intros [s' Hins]. by apply (insert_name_null s nm handle Hwf Hnm s').
  - by apply insert_name_duplicate.
Qed.

(** A registry with two names, to which a third is bound. *)
Definition two_names : handle_storage :=
  set_names (skynet_handle_init 1) 2
            [HandleName "alpha" 16777217; HandleName "omega" 16777218].

Lemma two_names_wf : names_wf two_names.
Proof.
  constructor.
  - repeat constructor.
  - intros a Ha. unfold two_names in Ha. simpl in Ha.
    repeat (apply elem_of_cons in Ha as [->|Ha]);
      [cbn; repeat split; discriminate..|].
    by apply elem_of_nil in Ha.
  - vm_compute. split; [reflexivity|discriminate].
  - vm_compute. discriminate.
Qed.

Lemma bind_then_find_witness :
  exists s',
    skynet_handle_namehandle two_names 16777219 "gate" = Ok (s', Some "gate"%string)
    /\ skynet_handle_findname s' "gate" = 16777219
    /\ skynet_handle_findname s' "omega" = 16777218.
Proof.
  assert (Hc : cstring "gate") by (cbn; repeat split; discriminate).
  assert (Hroom : has_room two_names) by (right; vm_compute; discriminate).
  assert (Hfresh : ~ bound two_names "gate").
  { intros (a & Ha & Hn). unfold two_names in Ha. simpl in Ha.
    repeat (apply elem_of_cons in Ha as [->|Ha]); try discriminate.
    by apply elem_of_nil in Ha. }
  destruct (bind_then_find two_names "gate" 16777219 two_names_wf Hc Hroom)
    as [Hbind _].
  destruct (Hbind Hfresh) as (s' & Hins & Hfind & _ & Hold).
  exists s'. split; [exact Hins|]. split; [exact Hfind|].
  assert (Hin : HandleName "omega" 16777218 ∈ names two_names).
  { unfold two_names. simpl. apply elem_of_cons. right. apply elem_of_cons. by left. }
  exact (Hold _ Hin).
Defined.

End Handle.

(** ** skynet_monitor.c: the per-worker record *)
Module Monitor.

Record skynet_monitor := SkynetMonitor {
  version : Z;        (* ATOM_INT *)
  check_version : Z;  (* int *)
  msource : Z;        (* uint32_t source *)
  destination : Z     (* uint32_t *)
}.

Definition skynet_monitor_new : skynet_monitor := SkynetMonitor 0 0 0 0.

Definition skynet_monitor_trigger (sm : skynet_monitor) (source destination : Z)
  : skynet_monitor :=
  SkynetMonitor (wrap_int (version sm + 1)) (check_version sm) source destination.

End Monitor.

(** ** skynet_server.c (with skynet_harbor.c and skynet_error.c) *)
Module Server.

(** The lines the modelled code hands to [skynet_error], each with the
    arguments of its format string. *)
Inductive error_line :=
| TooLarge (destination : Z)
| DestinationZero
| MayOverload (length : Z)
| MaybeEndless (source destination version : Z).

(** The conversions of [vsnprintf] that these lines use: "%d" of an
    [int], "%x" and "%08x" of an [unsigned]. *)
Definition fmt_d (z : Z) : string :=
  DecimalString.NilZero.string_of_int (Z.to_int z).

Definition fmt_x (z : Z) : string :=
  HexadecimalString.NilZero.string_of_uint (N.to_hex_uint (Z.to_N z)).

Fixpoint zeros (n : nat) : string :=
  match n with
  | O => EmptyString
  | S k => String "0"%char (zeros k)
  end.

Definition fmt_08x (z : Z) : string :=
  let digits := fmt_x z in
  String.append (zeros (8 - String.length digits)) digits.

(** The text [log_try_vasprintf] produces for a line; all of them are
    shorter than [LOG_MESSAGE_SIZE], so the first attempt succeeds. *)
Definition log_text (line : error_line) : string :=
  match line with
  | TooLarge destination =>
      String.append "error: The message to "
        (String.append (fmt_x destination) " is too large")
  | DestinationZero => "error: Destination address can't be 0"
  | MayOverload length =>
      String.append "error: May overload, message queue length = " (fmt_d length)
  | MaybeEndless source destination version =>
      String.append "error: A message from [ :"
        (String.append (fmt_08x source)
           (String.append " ] to [ :"
              (String.append (fmt_08x destination)
                 (String.append " ] maybe in an endless loop (version = "
                    (String.append (fmt_d version) ")")))))
  end.

(** The message [skynet_error] builds: the text, NUL-terminated by
    [skynet_strndup], of type PTYPE_TEXT and session 0. *)
Definition log_message (source : Z) (line : error_line) : skynet_message :=
  let text := list_byte_of_string (log_text line) in
  Message source 0 (PBytes (text ++ [x00]))
          (Z.lor (Z.of_nat (length text)) (Z.shiftl PTYPE_TEXT MESSAGE_TYPE_SHIFT)).

(** The process state the modelled functions share. [errors] and
    [handled] are history variables that the C code does not have:
    [errors] lists the lines [skynet_error] was called with, [handled]
    the messages the dispatch loop took from a mailbox. *)
Record world := World {
  H : Handle.handle_storage;             (* skynet_handle.c: H *)
  ctxs : gmap nat skynet_context;        (* heap of contexts *)
  mqs : gmap nat Mq.message_queue;       (* heap of mailboxes *)
  Q : list nat;                          (* skynet_mq.c: Q, head first *)
  HARBOR : Z;                            (* skynet_harbor.c: HARBOR *)
  REMOTE : option nat;                   (* skynet_harbor.c: REMOTE *)
  logger : Z;                            (* skynet_error.c: static logger *)
  errors : list (Z * error_line);        (* history: calls of skynet_error *)
  handled : list (Z * skynet_message)    (* history: messages dispatched *)
}.

Definition set_H (w : world) (h : Handle.handle_storage) :=
  World h (ctxs w) (mqs w) (Q w) (HARBOR w) (REMOTE w) (logger w) (errors w) (handled w).
Definition set_ctxs (w : world) (c : gmap nat skynet_context) :=
  World (H w) c (mqs w) (Q w) (HARBOR w) (REMOTE w) (logger w) (errors w) (handled w).
Definition set_mqs (w : world) (m : gmap nat Mq.message_queue) :=
  World (H w) (ctxs w) m (Q w) (HARBOR w) (REMOTE w) (logger w) (errors w) (handled w).
Definition set_Q (w : world) (q : list nat) :=
  World (H w) (ctxs w) (mqs w) q (HARBOR w) (REMOTE w) (logger w) (errors w) (handled w).
Definition set_logger (w : world) (l : Z) :=
  World (H w) (ctxs w) (mqs w) (Q w) (HARBOR w) (REMOTE w) l (errors w) (handled w).
Definition set_errors (w : world) (e : list (Z * error_line)) :=
  World (H w) (ctxs w) (mqs w) (Q w) (HARBOR w) (REMOTE w) (logger w) e (handled w).
Definition set_handled (w : world) (c : list (Z * skynet_message)) :=
  World (H w) (ctxs w) (mqs w) (Q w) (HARBOR w) (REMOTE w) (logger w) (errors w) c.

(** The handle a line is attributed to: that of the reporting context,
    0 for NULL. *)
Definition reporter (w : world) (context : option nat) : Z :=
  match context with
  | Some p => default 0 (ctx_handle <$> ctxs w !! p)
  | None => 0
  end.

(** *** Global run queue *)

Definition skynet_globalmq_push (q : nat) (w : world) : world :=
  set_Q w (Q w ++ [q]).

Definition skynet_globalmq_pop (w : world) : world * option nat :=
  match Q w with
  | [] => (w, None)
  | q :: rest => (set_Q w rest, Some q)
  end.

(** [skynet_mq_push(q, message)] on the mailbox at address [q]. *)
Definition mq_push (q : nat) (message : skynet_message) (w : world) : outcome world :=
  match mqs w !! q with
  | Some mq =>
      let '(mq', linked) := Mq.skynet_mq_push mq message in
      let w1 := set_mqs w (<[q := mq']> (mqs w)) in
      Ok (if linked then skynet_globalmq_push q w1 else w1)
  | None => Abort
  end.

(** *** Sessions *)

Definition skynet_context_newsession (ctx : skynet_context) : skynet_context * Z :=
  let session := wrap_int (session_id ctx + 1) in
  if session <=? 0 then (set_session_id ctx 1, 1)
  else (set_session_id ctx session, session).

(** *** Sending *)

(** [skynet_context_push]: 0 on success, -1 when the handle is not registered. *)
Definition skynet_context_push (handle : Z) (message : skynet_message) (w : world)
  : outcome (world * Z) :=
  match Handle.skynet_handle_grab (ctxs w) (H w) handle with
  | None => Ok (w, -1)
  | Some p =>
      match ctxs w !! p with
      | Some ctx => w' ← mq_push (ctx_queue ctx) message w; Ok (w', 0)
      | None => Abort
      end
  end.

(** skynet_error.c. [skynet_error] looks the logger service up by name
    once and keeps its handle; without a logger the line is dropped.
    Otherwise the formatted line is pushed on the logger's mailbox as a
    PTYPE_TEXT message from the reporting context; the result of
    [skynet_context_push] is ignored. *)
Definition skynet_error (context : option nat) (line : error_line) (w : world)
  : outcome world :=
  let logger_ :=
    if logger w =? 0 then Handle.skynet_handle_findname (H w) "logger"
    else logger w in
  let w0 := set_errors (set_logger w logger_)
                       (errors w ++ [(reporter w context, line)]) in
  if logger_ =? 0 then Ok w0
  else
    source ← match context with
             | None => Ok 0
             | Some p =>
                 match ctxs w !! p with
                 | Some ctx => Ok (ctx_handle ctx)
                 | None => Abort
                 end
             end;
    '(w1, _) ← skynet_context_push logger_ (log_message source line) w0;
    Ok w1.

(** [skynet_context_send]: push on the mailbox of a context held by pointer. *)
Definition skynet_context_send (p : nat) (msg : payload) (sz source type session : Z)
    (w : world) : outcome world :=
  match ctxs w !! p with
  | Some ctx =>
      mq_push (ctx_queue ctx)
              (Message source session msg (Z.lor sz (Z.shiftl type MESSAGE_TYPE_SHIFT))) w
  | None => Abort
  end.

(** skynet_harbor.c *)
Definition invalid_type (type : Z) : bool :=
  negb (type =? PTYPE_SYSTEM) && negb (type =? PTYPE_HARBOR).

(** [sizeof(struct remote_message)] on LP64. *)
Definition sizeof_remote_message : Z := 48.

Definition skynet_harbor_send (rmsg : remote_message) (source session : Z) (w : world)
  : outcome world :=
  match REMOTE w with
  | Some remote =>
      if invalid_type (rtype rmsg) then
        skynet_context_send remote (PRemote rmsg) sizeof_remote_message source
                            PTYPE_SYSTEM session w
      else Abort
  | None => Abort
  end.

(** [~HANDLE_MASK] within 32 bits. *)
Definition HARBOR_BITS : Z := 4278190080.

Definition skynet_harbor_message_isremote (w : world) (handle : Z) : outcome bool :=
  if HARBOR w =? 4294967295 then Abort
  else
    let h := Z.land handle HARBOR_BITS in
    Ok (negb (h =? HARBOR w) && negb (h =? 0)).

(** [_filter_args]: yields the session, the (possibly copied) payload and
    the size word with the type packed into its high byte. *)
Definition _filter_args (context : option nat) (type session : Z) (data : payload)
    (sz : Z) (w : world) : outcome (world * Z * payload * Z) :=
  let needcopy := Z.land type PTYPE_TAG_DONTCOPY =? 0 in
  let allocsession := negb (Z.land type PTYPE_TAG_ALLOCSESSION =? 0) in
  let type := Z.land type 255 in
  '(w1, session1) ←
    (if allocsession then
       if session =? 0 then
         match context with
         | Some p =>
             match ctxs w !! p with
             | Some ctx =>
                 let '(ctx', s) := skynet_context_newsession ctx in
                 Ok (set_ctxs w (<[p := ctx']> (ctxs w)), s)
             | None => Abort
             end
         | None => Abort
         end
       else Abort
     else Ok (w, session));
  let data1 :=
    if needcopy then
      match data with
      | PBytes b => PBytes (take (Z.to_nat sz) b ++ [x00])
      | d => d
      end
    else data in
  Ok (w1, session1, data1, Z.lor sz (Z.shiftl type MESSAGE_TYPE_SHIFT)).

(** [skynet_send]. Freeing a payload has no counterpart in the model. *)
Definition skynet_send (context : option nat) (source destination type session : Z)
    (data : payload) (sz : Z) (w : world) : outcome (world * Z) :=
  if negb (Z.land sz MESSAGE_TYPE_MASK =? sz) then
    w1 ← skynet_error context (TooLarge destination) w;
    Ok (w1, -2)
  else
    '(w1, session, data, sz) ← _filter_args context type session data sz w;
    source ←
      (if source =? 0 then
         match context with
         | Some p =>
             match ctxs w1 !! p with
             | Some ctx => Ok (ctx_handle ctx)
             | None => Abort
             end
         | None => Abort
         end
       else Ok source);
    if destination =? 0 then
      if negb (is_null data) then
        w2 ← skynet_error context DestinationZero w1;
        Ok (w2, -1)
      else Ok (w1, session)
    else
      remote ← skynet_harbor_message_isremote w1 destination;
      if remote : bool then
        let rmsg := RemoteMessage [] destination
                      (match data with PBytes b => Some b | _ => None end)
                      (Z.land sz MESSAGE_TYPE_MASK)
                      (Z.shiftr sz MESSAGE_TYPE_SHIFT) in
        w2 ← skynet_harbor_send rmsg source session w1;
        Ok (w2, session)
      else
        '(w2, r) ← skynet_context_push destination (Message source session data sz) w1;
        if r =? 0 then Ok (w2, session) else Ok (w2, -1).

(** [drop_message]: the drop policy of a retired service's mailbox;
    [d] is the handle stored in the [struct drop_t]. *)
Definition drop_message (msg : skynet_message) (d : Z) (w : world) : outcome world :=
  if d =? 0 then Abort
  else
    '(w', _) ← skynet_send None d (source msg) PTYPE_ERROR (session msg) PNull 0 w;
    Ok w'.
(** *** Sessions are positive *)

(** C10. [skynet_context_newsession] always returns a session of at
    least 1 and leaves the counter equal to it: the counter goes up by
    one, and when the incremented [int] is not positive (overflow past
    [INT_MAX]) the counter restarts so that 1 is returned; 0 is never
    handed out. *)
Theorem newsession_positive (ctx : skynet_context) :
  let '(ctx', session) := skynet_context_newsession ctx in
  1 <= session <= INT_MAX
  /\ session_id ctx' = session
  /\ (0 <= session_id ctx < INT_MAX -> session = session_id ctx + 1)
  /\ (wrap_int (session_id ctx + 1) <= 0 -> session = 1)
  /\ (session_id ctx = INT_MAX -> session = 1)
  /\ session <> 0.
Proof.
  unfold skynet_context_newsession.
  pose proof (wrap_int_range (session_id ctx + 1)) as Hr.
  destruct (Z.leb_spec (wrap_int (session_id ctx + 1)) 0) as [Hle|Hgt]; simpl.
  - unfold INT_MAX. repeat split; try lia.
    intros Hs. rewrite wrap_int_id in Hle; unfold in_int, INT_MIN, INT_MAX in *; lia.
  - unfold in_int in Hr. repeat split; try lia.
    + intros Hs. apply wrap_int_id. unfold in_int, INT_MIN, INT_MAX in *. lia.
    + intros Hs. rewrite Hs in Hgt. vm_compute in Hgt. discriminate.
Qed.

(** Sessions handed out by [n] successive requests on one context. *)
Fixpoint sessions (n : nat) (ctx : skynet_context) : list Z :=
  match n with
  | O => []
  | S k => let '(ctx', s) := skynet_context_newsession ctx in s :: sessions k ctx'
  end.

Lemma sessions_positive n ctx : Forall (fun s => 1 <= s) (sessions n ctx).
Proof.
  revert ctx. induction n as [|n IH]; intros ctx; simpl; [constructor|].
  unfold skynet_context_newsession.
  destruct (Z.leb_spec (wrap_int (session_id ctx + 1)) 0);
    (constructor; [lia|apply IH]).
Qed.

(** *** The size check of [skynet_send] *)

Lemma MESSAGE_TYPE_MASK_ones : MESSAGE_TYPE_MASK = Z.ones 56.
Proof. reflexivity. Qed.

Lemma size_check sz :
  0 <= sz -> (Z.land sz MESSAGE_TYPE_MASK = sz <-> sz <= MESSAGE_TYPE_MASK).
Proof.
  intros Hsz. rewrite MESSAGE_TYPE_MASK_ones, Z.land_ones by lia.
  rewrite Z.ones_equiv. split.
  - intros Hm. pose proof (Z.mod_pos_bound sz (2 ^ 56)). lia.
  - intros Hle. apply Z.mod_small. lia.
Qed.

(** *** Reasoning about [outcome] *)

Lemma bind_ok {A B} (x : outcome A) (f : A -> outcome B) (b : B) :
  x ≫= f = Ok b -> exists a, x = Ok a /\ f a = Ok b.
Proof. destruct x as [a| |]; [|done..]. intros Hf. by exists a. Qed.

(** The parts of the world that a push never touches. *)
Record same_services (w w' : world) : Prop := SameServices {
  ss_H : H w' = H w;
  ss_ctxs : ctxs w' = ctxs w;
  ss_HARBOR : HARBOR w' = HARBOR w;
  ss_REMOTE : REMOTE w' = REMOTE w;
  ss_logger : logger w' = logger w;
  ss_errors : errors w' = errors w;
  ss_handled : handled w' = handled w
}.

Lemma mq_push_services q m w w' :
  mq_push q m w = Ok w' -> same_services w w'.
Proof.
  unfold mq_push. destruct (mqs w !! q) as [mq|]; [|done].
  destruct (Mq.skynet_mq_push mq m) as [mq' [|]]; intros [= <-]; by constructor.
Qed.

Lemma skynet_context_push_services h m w w' r :
  skynet_context_push h m w = Ok (w', r) -> same_services w w'.
Proof.
  unfold skynet_context_push.
  destruct (Handle.skynet_handle_grab (ctxs w) (H w) h) as [p|].
  - destruct (ctxs w !! p) as [ctx|]; [|done].
    intros (w1 & Hp & [= <- <-])%bind_ok. by eapply mq_push_services.
  - intros [= <- <-]. by constructor.
Qed.

(** An unregistered destination: the push is refused and nothing moves. *)
Lemma skynet_context_push_unregistered h m w :
  Handle.skynet_handle_grab (ctxs w) (H w) h = None ->
  skynet_context_push h m w = Ok (w, -1).
Proof. intros Hg. unfold skynet_context_push. by rewrite Hg. Qed.

(** [skynet_handle_grab] reads a context only for its handle. *)
Lemma grab_same_handles (c1 c2 : gmap nat skynet_context) s h :
  (forall p, ctx_handle <$> c1 !! p = ctx_handle <$> c2 !! p) ->
  Handle.skynet_handle_grab c1 s h = Handle.skynet_handle_grab c2 s h.
Proof.
  intros Hsame. unfold Handle.skynet_handle_grab.
  destruct (Handle.slot s !! Handle.hash_of s h) as [[p|]|]; [|done..].
  specialize (Hsame p).
  destruct (c1 !! p) as [x1|], (c2 !! p) as [x2|]; simpl in Hsame; try done.
  by injection Hsame as ->.
Qed.

Lemma grab_live (c : gmap nat skynet_context) s h p :
  Handle.skynet_handle_grab c s h = Some p ->
  exists ctx, c !! p = Some ctx /\ ctx_handle ctx = h.
Proof.
  unfold Handle.skynet_handle_grab.
  destruct (Handle.slot s !! Handle.hash_of s h) as [[p'|]|]; [|done..].
  destruct (c !! p') as [ctx|] eqn:Hc; [|done].
  destruct (Z.eqb_spec (ctx_handle ctx) h); [|done].
  intros [= <-]. by exists ctx.
Qed.

Lemma newsession_handle ctx ctx' s :
  skynet_context_newsession ctx = (ctx', s) ->
  ctx_handle ctx' = ctx_handle ctx /\ ctx_queue ctx' = ctx_queue ctx /\ 1 <= s.
Proof.
  unfold skynet_context_newsession.
  destruct (Z.leb_spec (wrap_int (session_id ctx + 1)) 0); intros [= <- <-];
    (split; [done|split; [done|lia]]).
Qed.

(** What [_filter_args] leaves alone: it may only bump one session counter. *)
Record same_routing (w w' : world) : Prop := SameRouting {
  sr_H : H w' = H w;
  sr_handles : forall p, ctx_handle <$> ctxs w' !! p = ctx_handle <$> ctxs w !! p;
  sr_queues : forall p, ctx_queue <$> ctxs w' !! p = ctx_queue <$> ctxs w !! p;
  sr_mqs : mqs w' = mqs w;
  sr_Q : Q w' = Q w;
  sr_HARBOR : HARBOR w' = HARBOR w;
  sr_REMOTE : REMOTE w' = REMOTE w;
  sr_logger : logger w' = logger w;
  sr_errors : errors w' = errors w;
  sr_handled : handled w' = handled w
}.

Lemma same_routing_refl w : same_routing w w.
Proof. by constructor. Qed.

Lemma same_routing_grab w w' h :
  same_routing w w' ->
  Handle.skynet_handle_grab (ctxs w') (H w') h
  = Handle.skynet_handle_grab (ctxs w) (H w) h.
Proof. intros Hr. rewrite (sr_H _ _ Hr). apply grab_same_handles, Hr. Qed.

Lemma same_routing_reporter w w' context :
  same_routing w w' -> reporter w' context = reporter w context.
Proof.
  intros Hr. destruct context as [p|]; [|done].
  unfold reporter. by rewrite (sr_handles _ _ Hr).
Qed.

Lemma filter_args_routing context type session data sz w w1 session1 data1 sz1 :
  _filter_args context type session data sz w = Ok (w1, session1, data1, sz1) ->
  same_routing w w1
  /\ is_null data1 = is_null data
  /\ sz1 = Z.lor sz (Z.shiftl (Z.land type 255) MESSAGE_TYPE_SHIFT)
  /\ (Z.land type PTYPE_TAG_ALLOCSESSION = 0 -> w1 = w /\ session1 = session).
Proof.
  unfold _filter_args. intros ([w0 s0] & Hsess & Hrest)%bind_ok.
  injection Hrest as <- <- <- <-.
  assert (Hnull : is_null
            (if Z.land type PTYPE_TAG_DONTCOPY =? 0
             then match data with
                  | PBytes b => PBytes (take (Z.to_nat sz) b ++ [x00])
                  | d => d
                  end
             else data) = is_null data).
  { destruct (Z.land type PTYPE_TAG_DONTCOPY =? 0); [|done]. by destruct data. }
  destruct (Z.eqb_spec (Z.land type PTYPE_TAG_ALLOCSESSION) 0) as [Hna|Ha];
    cbn [negb] in Hsess.
  - injection Hsess as <- <-. split; [apply same_routing_refl|]. auto.
  - destruct (session =? 0); [|done].
    destruct context as [p|]; [|done].
    destruct (ctxs w !! p) as [ctx|] eqn:Hctx; [|done].
    destruct (skynet_context_newsession ctx) as [ctx' s] eqn:Hns.
    injection Hsess as <- <-. apply newsession_handle in Hns as (Hh & Hq & _).
    split; [|split; [done|split; [done|lia]]].
    constructor; try done; intros p'; cbn [ctxs set_ctxs];
      (destruct (decide (p = p')) as [<-|Hne];
       [rewrite lookup_insert_eq, Hctx; cbn; congruence
       |by rewrite lookup_insert_ne]).
Qed.

(** *** What [skynet_error] does *)

(** The logger handle [skynet_error] works with: the cached one, or the
    service named "logger". *)
Definition resolve_logger (w : world) : Z :=
  if logger w =? 0 then Handle.skynet_handle_findname (H w) "logger"
  else logger w.

(** The mailbox a line is pushed on: that of the logger service, if
    there is one and it is still registered. *)
Definition log_mailbox (w : world) : option nat :=
  if resolve_logger w =? 0 then None
  else
    p ← Handle.skynet_handle_grab (ctxs w) (H w) (resolve_logger w);
    ctx_queue <$> ctxs w !! p.

(** Between [w] and [w'] the mailbox at [q] gained the message [m] at its
    tail, and was linked to the global run queue unless it was there
    already; no other mailbox changed. *)
Definition appended (w w' : world) (q : nat) (m : skynet_message) : Prop :=
  exists mq mq',
    mqs w !! q = Some mq
    /\ mqs w' = <[q := mq']> (mqs w)
    /\ Mq.messages mq' = Mq.messages mq ++ [m]
    /\ Q w' = (if Mq.in_global mq =? 0 then Q w ++ [q] else Q w).

(** Every service owns a well-formed mailbox that can still grow. *)
Definition mailboxes_ok (w : world) : Prop :=
  forall p ctx, ctxs w !! p = Some ctx ->
    exists mq, mqs w !! ctx_queue ctx = Some mq
               /\ Mq.wf mq /\ Mq.cap mq * 2 <= INT_MAX.

Lemma push_linked mq m :
  (Mq.skynet_mq_push mq m).2 = (Mq.in_global mq =? 0).
Proof.
  unfold Mq.skynet_mq_push. cbn.
  destruct (Mq.head mq =? _); cbn; by destruct (Mq.in_global mq =? 0).
Qed.

Lemma mq_push_appended q m w mq :
  mqs w !! q = Some mq -> Mq.wf mq -> Mq.cap mq * 2 <= INT_MAX ->
  exists w', mq_push q m w = Ok w' /\ appended w w' q m.
Proof.
  intros Hmq Hwf Hcap. unfold mq_push. rewrite Hmq.
  pose proof (Mq.push_messages mq m Hwf Hcap) as Hms.
  pose proof (push_linked mq m) as Hl.
  destruct (Mq.skynet_mq_push mq m) as [mq' linked]. cbn in Hms, Hl. subst linked.
  eexists. split; [reflexivity|]. exists mq, mq'.
  destruct (Mq.in_global mq =? 0); by cbn.
Qed.

(** What a call of [skynet_error] that returns has done, apart from the
    push. *)
Lemma skynet_error_frame context line w w' :
  skynet_error context line w = Ok w' ->
  H w' = H w /\ ctxs w' = ctxs w /\ HARBOR w' = HARBOR w /\ REMOTE w' = REMOTE w
  /\ handled w' = handled w
  /\ logger w' = resolve_logger w
  /\ errors w' = errors w ++ [(reporter w context, line)].
Proof.
  unfold skynet_error. fold (resolve_logger w).
  destruct (resolve_logger w =? 0).
  - by intros [= <-].
  - intros (src & _ & ([w1 r] & Hp & [= <-])%bind_ok)%bind_ok.
    by apply skynet_context_push_services in Hp as [].
Qed.

(** With mailboxes able to take a message, [skynet_error] returns, and
    the one thing it pushes is the formatted line, on the logger's
    mailbox. *)
Lemma skynet_error_pushes context line w :
  mailboxes_ok w ->
  (forall p, context = Some p -> is_Some (ctxs w !! p)) ->
  exists w',
    skynet_error context line w = Ok w'
    /\ match log_mailbox w with
       | Some q => appended w w' q (log_message (reporter w context) line)
       | None => mqs w' = mqs w /\ Q w' = Q w
       end.
Proof.
  intros Hok Hctx. unfold skynet_error, log_mailbox. fold (resolve_logger w).
  destruct (resolve_logger w =? 0); [by eexists|].
  assert (Hsrc : match context with
                 | Some p => match ctxs w !! p with
                             | Some ctx => Ok (ctx_handle ctx)
                             | None => Abort
                             end
                 | None => Ok 0
                 end = Ok (reporter w context)).
  { destruct context as [p|]; [|done]. cbn.
    destruct (Hctx p eq_refl) as [ctx ->]. done. }
  rewrite Hsrc. cbn [mbind outcome_bind].
  unfold skynet_context_push. cbn [ctxs H set_errors set_logger].
  destruct (Handle.skynet_handle_grab (ctxs w) (H w) (resolve_logger w))
    as [pl|] eqn:Hg; cbn [mbind option_bind].
  - destruct (grab_live _ _ _ _ Hg) as (lctx & Hl & _). rewrite Hl. cbn [fmap option_fmap option_map].
    destruct (Hok pl lctx Hl) as (mq & Hmq & Hwf & Hcap).
    destruct (mq_push_appended (ctx_queue lctx)
                (log_message (reporter w context) line)
                (set_errors (set_logger w (resolve_logger w))
                   (errors w ++ [(reporter w context, line)])) mq Hmq Hwf Hcap)
      as (w' & -> & Happ).
    cbn [mbind outcome_bind]. by exists w'.
  - by eexists.
Qed.
(** *** Sends that cannot be routed *)

(** A mailbox of the sender gains a PTYPE_ERROR message with the given
    session and no payload. *)
Definition receives_error (w w' : world) (sender session : Z) : Prop :=
  exists p ctx mq mq' src,
    Handle.skynet_handle_grab (ctxs w) (H w) sender = Some p
    /\ ctxs w !! p = Some ctx
    /\ mqs w !! ctx_queue ctx = Some mq
    /\ mqs w' !! ctx_queue ctx = Some mq'
    /\ Mq.messages mq'
       = Mq.messages mq
         ++ [Message src session PNull (Z.shiftl PTYPE_ERROR MESSAGE_TYPE_SHIFT)].

(** The destination is a local handle with no registered service. *)
Definition unregistered (w : world) (destination : Z) : Prop :=
  skynet_harbor_message_isremote w destination = Ok false
  /\ Handle.skynet_handle_grab (ctxs w) (H w) destination = None.

Lemma isremote_same_routing w w' h :
  same_routing w w' ->
  skynet_harbor_message_isremote w' h = skynet_harbor_message_isremote w h.
Proof.
  intros Hr. unfold skynet_harbor_message_isremote. by rewrite (sr_HARBOR _ _ Hr).
Qed.

Lemma same_routing_mailboxes w w' :
  same_routing w w' -> mailboxes_ok w -> mailboxes_ok w'.
Proof.
  intros Hr Hok p ctx' Hc.
  pose proof (sr_queues _ _ Hr p) as Hq. rewrite Hc in Hq.
  destruct (ctxs w !! p) as [ctx|] eqn:Hc0; [|done].
  injection Hq as Hq. rewrite Hq, (sr_mqs _ _ Hr). by eapply Hok.
Qed.

Lemma same_routing_log_mailbox w w' :
  same_routing w w' -> log_mailbox w' = log_mailbox w.
Proof.
  intros Hr. unfold log_mailbox.
  assert (resolve_logger w' = resolve_logger w) as ->.
  { unfold resolve_logger. by rewrite (sr_logger _ _ Hr), (sr_H _ _ Hr). }
  destruct (resolve_logger w =? 0); [done|].
  rewrite (same_routing_grab _ _ _ Hr).
  destruct (Handle.skynet_handle_grab _ _ _) as [p|]; [|done]. cbn.
  apply (sr_queues _ _ Hr).
Qed.

Lemma same_routing_appended w w1 w' q m :
  same_routing w w1 -> appended w1 w' q m -> appended w w' q m.
Proof.
  intros Hr (mq & mq' & Hmq & Hmqs & Hms & HQ).
  rewrite (sr_mqs _ _ Hr) in Hmq, Hmqs. rewrite (sr_Q _ _ Hr) in HQ.
  by exists mq, mq'.
Qed.

(** A world whose mailboxes did not change delivered no error reply. *)
Lemma unchanged_no_error w w' sender session :
  mqs w' = mqs w -> ~ receives_error w w' sender session.
Proof.
  intros Hmqs (p & ctx & mq & mq' & src & _ & _ & Hm & Hm' & Hms).
  rewrite Hmqs, Hm in Hm'. injection Hm' as <-.
  apply (f_equal length) in Hms. rewrite length_app in Hms. simpl in Hms. lia.
Qed.

(** Nor did one whose only new message carries a payload. *)
Lemma appended_no_error w w' q m sender session :
  appended w w' q m -> data m <> PNull -> ~ receives_error w w' sender session.
Proof.
  intros (mq0 & mq0' & Hmq0 & Hmqs & Hms0 & _) Hdata
         (p & ctx & mq & mq' & src & _ & _ & Hm & Hm' & Hms).
  rewrite Hmqs in Hm'.
  destruct (decide (q = ctx_queue ctx)) as [->|Hne].
  - rewrite lookup_insert_eq in Hm'. injection Hm' as <-.
    rewrite Hmq0 in Hm. injection Hm as <-.
    rewrite Hms0 in Hms. apply app_inv_head in Hms. injection Hms as ->.
    by apply Hdata.
  - rewrite lookup_insert_ne, Hm in Hm' by done. injection Hm' as <-.
    apply (f_equal length) in Hms. rewrite length_app in Hms. simpl in Hms. lia.
Qed.

(** C1 (amended). A [skynet_send] that passes the size check, issued by a
    live context, to destination 0 or to a local handle that is not
    registered (a retired service) returns without delivering any
    PTYPE_ERROR message to anyone. For a destination other than 0, and
    for destination 0 without payload, no mailbox and no run queue
    changes and nothing is logged. For destination 0 with a payload the
    line "Destination address can't be 0" goes to [skynet_error], whose
    PTYPE_TEXT message on the logger's mailbox (when a logger is
    registered) is the only push. The call returns -1, except for
    destination 0 with no payload, where it returns the session. *)
Theorem send_unroutable (p : nat) (ctx : skynet_context)
    (source destination type session : Z) (data : payload) (sz : Z) (w : world) :
  ctxs w !! p = Some ctx ->
  mailboxes_ok w ->
  Z.land sz MESSAGE_TYPE_MASK = sz ->
  (Z.land type PTYPE_TAG_ALLOCSESSION <> 0 -> session = 0) ->
  destination = 0 \/ unregistered w destination ->
  exists w' r,
    skynet_send (Some p) source destination type session data sz w = Ok (w', r)
    /\ (forall sender session', ~ receives_error w w' sender session')
    /\ (destination <> 0 \/ data = PNull ->
        mqs w' = mqs w /\ Q w' = Q w /\ errors w' = errors w)
    /\ (destination = 0 -> data <> PNull ->
        errors w' = errors w ++ [(ctx_handle ctx, DestinationZero)]
        /\ match log_mailbox w with
           | Some q => appended w w' q (log_message (ctx_handle ctx) DestinationZero)
           | None => mqs w' = mqs w /\ Q w' = Q w
           end)
    /\ (destination = 0 -> data = PNull ->
        1 <= r \/ (Z.land type PTYPE_TAG_ALLOCSESSION = 0 /\ r = session))
    /\ (destination <> 0 \/ data <> PNull -> r = -1).
Proof.
  intros Hctx Hok Hsz Halloc Hdest.
  unfold skynet_send. rewrite Hsz, Z.eqb_refl. cbn [negb].
  (* the session and payload steps always succeed here *)
  assert (Hfa : exists w1 session1 data1 sz1,
             _filter_args (Some p) type session data sz w
             = Ok (w1, session1, data1, sz1)
             /\ (1 <= session1
                 \/ (Z.land type PTYPE_TAG_ALLOCSESSION = 0 /\ session1 = session))).
  { unfold _filter_args.
    destruct (Z.eqb_spec (Z.land type PTYPE_TAG_ALLOCSESSION) 0) as [Hna|Ha];
      cbn [negb].
    - do 4 eexists. split; [reflexivity|]. by right.
    - rewrite (Halloc Ha), Z.eqb_refl, Hctx.
      destruct (skynet_context_newsession ctx) as [ctx' s] eqn:Hns.
      apply newsession_handle in Hns as (_ & _ & Hpos).
      do 4 eexists. split; [reflexivity|]. by left. }
  destruct Hfa as (w1 & session1 & data1 & sz1 & Hfa & Hsession).
  rewrite Hfa. cbn [mbind outcome_bind].
  destruct (filter_args_routing _ _ _ _ _ _ _ _ _ _ Hfa)
    as (Hroute & Hnull & _ & _).
  pose proof (sr_handles _ _ Hroute p) as Hhandle. rewrite Hctx in Hhandle.
  destruct (ctxs w1 !! p) as [ctx1|] eqn:Hctx1; [|done].
  injection Hhandle as Hhandle.
  assert (Hsrc : exists src,
             (if source =? 0 then Ok (ctx_handle ctx1) else Ok source) = Ok src).
  { destruct (source =? 0); by eexists. }
  destruct Hsrc as [src ->]. cbn [mbind outcome_bind].
  assert (Hnone : forall sender session', ~ receives_error w w1 sender session').
  { intros sender session'. apply unchanged_no_error, Hroute. }
  assert (Hsame : mqs w1 = mqs w /\ Q w1 = Q w /\ errors w1 = errors w).
  { split_and!; apply Hroute. }
  destruct (Z.eqb_spec destination 0) as [Hd0|Hdn].
  - destruct (is_null data1) eqn:Hd1; cbn [negb].
    + assert (data = PNull) as -> by (rewrite Hnull in Hd1; by destruct data).
      exists w1, session1. split_and!; try done. by intros [|].
    + assert (Hdata : data <> PNull) by (intros ->; by rewrite Hnull in Hd1).
      destruct (skynet_error_pushes (Some p) DestinationZero w1) as (w2 & Herr & Hpush).
      { by apply (same_routing_mailboxes w). }
      { intros ? [= <-]. by rewrite Hctx1. }
      rewrite Herr. cbn [mbind outcome_bind].
      assert (Hrep : reporter w1 (Some p) = ctx_handle ctx).
      { unfold reporter. rewrite Hctx1. cbn. done. }
      rewrite Hrep, (same_routing_log_mailbox w w1) in Hpush by done.
      apply skynet_error_frame in Herr as (_ & _ & _ & _ & _ & _ & Herrs).
      rewrite Hrep, (sr_errors _ _ Hroute) in Herrs.
      exists w2, (-1). split_and!; try done.
      * intros sender session'. destruct (log_mailbox w) as [q|].
        -- eapply appended_no_error; [by eapply same_routing_appended|done].
        -- destruct Hpush as [Hm _]. apply unchanged_no_error.
           by rewrite Hm, (sr_mqs _ _ Hroute).
      * by intros [|].
      * intros _ _. split; [done|]. destruct (log_mailbox w) as [q|].
        -- by eapply same_routing_appended.
        -- destruct Hpush as [-> ->]. split; apply Hroute.
  - destruct Hdest as [Hd0|[Hrem Hgrab]]; [done|].
    rewrite (isremote_same_routing w w1) by done. rewrite Hrem.
    cbn [mbind outcome_bind].
    rewrite skynet_context_push_unregistered
      by (by rewrite (same_routing_grab w w1)).
    cbn [mbind outcome_bind]. replace (-1 =? 0) with false by done.
    exists w1, (-1). by split_and!.
Qed.

(** A node with harbor 1 and one service, [:01000001], whose mailbox is
    empty; handle [:01000002] is not registered. *)
Definition sender_handle : Z := 16777217.

Definition demo_ctx : skynet_context :=
  Context sender_handle 0 0%nat true 0 0 0 true false false (Lit "").

Definition demo_world : world :=
  World (Handle.HandleStorage 16777216 2 4 [None; Some 0%nat; None; None] 2 [])
        {[ 0%nat := demo_ctx ]}
        {[ 0%nat := Mq.set_in_global (Mq.skynet_mq_create sender_handle) 0 ]}
        [] 16777216 None 0 [] [].

Lemma demo_world_sender :
  Handle.skynet_handle_grab (ctxs demo_world) (H demo_world) sender_handle = Some 0%nat
  /\ ctxs demo_world !! 0%nat = Some demo_ctx
  /\ unregistered demo_world 16777218.
Proof. repeat split. Qed.

Lemma singleton_mailbox_ok (h : Handle.handle_storage) ctx mq q hb r l e c :
  ctx_queue ctx = 0%nat -> Mq.wf mq -> Mq.cap mq * 2 <= INT_MAX ->
  mailboxes_ok (World h {[ 0%nat := ctx ]} {[ 0%nat := mq ]} q hb r l e c).
Proof.
  intros Hq Hwf Hcap p ctx' Hc. cbn in Hc |- *.
  apply lookup_singleton_Some in Hc as [<- <-]. rewrite Hq.
  exists mq. by rewrite lookup_singleton_eq.
Qed.

Lemma demo_world_ok : mailboxes_ok demo_world.
Proof.
  apply singleton_mailbox_ok; [done| |vm_compute; discriminate].
  constructor; vm_compute; try done; split; congruence.
Qed.

Lemma send_unroutable_witness :
  exists w' r,
    skynet_send (Some 0%nat) 0 16777218 PTYPE_TEXT 5 (PBytes [x68; x69]) 2 demo_world
    = Ok (w', r)
    /\ mqs w' = mqs demo_world /\ r = -1.
Proof.
  destruct (send_unroutable 0%nat demo_ctx 0 16777218 PTYPE_TEXT 5
              (PBytes [x68; x69]) 2 demo_world)
    as (w' & r & Hsend & _ & Hmqs & _ & _ & Hr).
  - reflexivity.
  - exact demo_world_ok.
  - reflexivity.
  - intros Hne. exfalso. apply Hne. reflexivity.
  - right. apply demo_world_sender.
  - exists w', r. split; [exact Hsend|]. split.
    + apply Hmqs. left. discriminate.
    + apply Hr. left. discriminate.
Defined.

(** C1 does not hold as specified: a send to the retired handle [:01000002]
    returns -1 and the sender's mailbox stays empty. *)
Lemma send_to_retired_gets_no_error :
  exists w',
    skynet_send (Some 0%nat) 0 16777218 PTYPE_TEXT 5 (PBytes [x68; x69]) 2 demo_world
    = Ok (w', -1)
    /\ ~ receives_error demo_world w' sender_handle 5.
Proof.
  eexists. split; [vm_compute; reflexivity|].
  intros (p & ctx & mq & mq' & src & Hg & Hc & Hm & Hm' & Hmsgs).
  destruct demo_world_sender as (Hg0 & Hc0 & _).
  rewrite Hg0 in Hg. injection Hg as <-.
  rewrite Hc0 in Hc. injection Hc as <-.
  vm_compute in Hm. vm_compute in Hm'. rewrite Hm in Hm'. injection Hm' as <-.
  apply (f_equal length) in Hmsgs. rewrite length_app in Hmsgs. simpl in Hmsgs. lia.
Qed.
(** *** MessageTooLarge *)

Lemma skynet_context_send_services p msg sz source type session w w' :
  skynet_context_send p msg sz source type session w = Ok w' -> same_services w w'.
Proof.
  unfold skynet_context_send. destruct (ctxs w !! p); [|done].
  apply mq_push_services.
Qed.

Lemma skynet_harbor_send_services rmsg source session w w' :
  skynet_harbor_send rmsg source session w = Ok w' -> same_services w w'.
Proof.
  unfold skynet_harbor_send. destruct (REMOTE w); [|done].
  destruct (invalid_type _); [|done]. apply skynet_context_send_services.
Qed.

(** Past the size check, the only line [skynet_send] may report is
    [DestinationZero]. *)
Lemma send_checked_errors context source destination type session data sz w w' r :
  Z.land sz MESSAGE_TYPE_MASK = sz ->
  skynet_send context source destination type session data sz w = Ok (w', r) ->
  errors w' = errors w
  \/ errors w' = errors w ++ [(reporter w context, DestinationZero)].
Proof.
  intros Hsz. unfold skynet_send. rewrite Hsz, Z.eqb_refl. cbn [negb].
  intros ([[[w1 session1] data1] sz1] & Hfa & Hrest)%bind_ok.
  apply filter_args_routing in Hfa as (Hroute & _).
  apply bind_ok in Hrest as (src & _ & Hrest).
  pose proof (sr_errors _ _ Hroute) as Herr.
  destruct (destination =? 0).
  - destruct (negb (is_null data1)).
    + apply bind_ok in Hrest as (w2 & He & [= <- <-]).
      apply skynet_error_frame in He as (_ & _ & _ & _ & _ & _ & He).
      right. by rewrite He, (same_routing_reporter w w1), Herr.
    + injection Hrest as <- <-. by left.
  - apply bind_ok in Hrest as ([|] & _ & Hrest).
    + apply bind_ok in Hrest as (w2 & Hh & [= <- <-]).
      apply skynet_harbor_send_services in Hh as [_ _ _ _ _ -> _]. by left.
    + apply bind_ok in Hrest as ([w2 r2] & Hp & Hrest).
      apply skynet_context_push_services in Hp as [_ _ _ _ _ Herr2 _].
      left. destruct (r2 =? 0); injection Hrest as <- <-; congruence.
Qed.

(** C6 (amended). [skynet_send] rejects a message as too large — it
    returns -2 after handing the "too large" line to [skynet_error] — if
    and only if the payload size exceeds [SIZE_MAX >> 8]; for every size
    up to [SIZE_MAX >> 8] the size check passes. A rejected message is
    enqueued nowhere and no context changes; the one push of the call is
    the PTYPE_TEXT line that [skynet_error] puts on the logger's mailbox
    when a logger is registered. *)
Theorem send_too_large_iff (context : option nat)
    (source destination type session : Z) (data : payload) (sz : Z) (w : world) :
  0 <= sz <= SIZE_MAX ->
  mailboxes_ok w ->
  (forall p, context = Some p -> is_Some (ctxs w !! p)) ->
  let line := TooLarge destination in
  let rejected w' r :=
    r = -2 /\ errors w' = errors w ++ [(reporter w context, line)] in
  (Z.shiftr SIZE_MAX 8 < sz ->
     exists w',
       skynet_send context source destination type session data sz w = Ok (w', -2)
       /\ rejected w' (-2)
       /\ ctxs w' = ctxs w
       /\ match log_mailbox w with
          | Some q => appended w w' q (log_message (reporter w context) line)
          | None => mqs w' = mqs w /\ Q w' = Q w
          end)
  /\ (sz <= Z.shiftr SIZE_MAX 8 -> Z.land sz MESSAGE_TYPE_MASK = sz)
  /\ (forall w' r,
        skynet_send context source destination type session data sz w = Ok (w', r) ->
        (rejected w' r <-> Z.shiftr SIZE_MAX 8 < sz)).
Proof.
  intros Hsz Hok Hlive line rejected. fold MESSAGE_TYPE_MASK.
  pose proof (size_check sz (proj1 Hsz)) as Hcheck.
  assert (Hlarge : MESSAGE_TYPE_MASK < sz ->
            skynet_send context source destination type session data sz w
            = w1 ← skynet_error context line w; Ok (w1, -2)).
  { intros Hgt. unfold skynet_send.
    destruct (Z.eqb_spec (Z.land sz MESSAGE_TYPE_MASK) sz) as [Heq|Hne]; [|done].
    apply Hcheck in Heq. lia. }
  split; [|split].
  - intros Hgt. rewrite (Hlarge Hgt).
    destruct (skynet_error_pushes context line w Hok Hlive) as (w' & Herr & Hpush).
    rewrite Herr. cbn [mbind outcome_bind].
    apply skynet_error_frame in Herr as (_ & Hc & _ & _ & _ & _ & He).
    exists w'. by split_and!.
  - intros Hle. by apply Hcheck.
  - intros w' r Hsend. split.
    + intros [_ Herr].
      destruct (Z.lt_ge_cases MESSAGE_TYPE_MASK sz) as [|Hle]; [done|].
      apply Hcheck in Hle.
      destruct (send_checked_errors _ _ _ _ _ _ _ _ _ _ Hle Hsend) as [He|He];
        rewrite He in Herr.
      * apply (f_equal length) in Herr. rewrite length_app in Herr.
        simpl in Herr. lia.
      * by apply app_inv_head in Herr.
    + intros Hgt. rewrite (Hlarge Hgt) in Hsend.
      apply bind_ok in Hsend as (w1 & Herr & [= <- <-]).
      apply skynet_error_frame in Herr as (_ & _ & _ & _ & _ & _ & He).
      by split.
Qed.

(** The node as [skynet_start] leaves it: harbor 1, the logger service
    [:01000002] registered under the name "logger", and the service
    [:01000001]; both mailboxes are empty and off the run queue. *)
Definition logger_handle : Z := 16777218.

Definition logger_ctx : skynet_context :=
  Context logger_handle 0 1%nat true 0 0 0 true false false (Lit "").

Definition logged_world : world :=
  World (Handle.HandleStorage 16777216 3 4 [None; Some 0%nat; Some 1%nat; None] 2
           [Handle.HandleName "logger" logger_handle])
        {[ 0%nat := demo_ctx; 1%nat := logger_ctx ]}
        {[ 0%nat := Mq.set_in_global (Mq.skynet_mq_create sender_handle) 0;
           1%nat := Mq.set_in_global (Mq.skynet_mq_create logger_handle) 0 ]}
        [] 16777216 None 0 [] [].

Lemma logged_world_ok : mailboxes_ok logged_world.
Proof.
  intros p ctx Hc. cbn in Hc.
  apply lookup_insert_Some in Hc as [[<- <-]|[_ Hc]].
  - eexists. split; [reflexivity|]. split; [|vm_compute; discriminate].
    constructor; vm_compute; try done; split; congruence.
  - apply lookup_singleton_Some in Hc as [<- <-].
    eexists. split; [reflexivity|]. split; [|vm_compute; discriminate].
    constructor; vm_compute; try done; split; congruence.
Qed.

Lemma logged_world_logger :
  log_mailbox logged_world = Some 1%nat
  /\ Handle.skynet_handle_findname (H logged_world) "logger" = logger_handle.
Proof. split; reflexivity. Qed.

Lemma send_too_large_iff_witness :
  let sz := 72057594037927936 in
  exists w',
    skynet_send (Some 0%nat) 0 sender_handle PTYPE_TEXT 0 PNull sz logged_world
    = Ok (w', -2)
    /\ appended logged_world w' 1%nat
         (log_message sender_handle (TooLarge sender_handle))
    /\ Z.land (sz - 1) MESSAGE_TYPE_MASK = sz - 1.
Proof.
  intros sz.
  assert (Hin : 0 <= sz <= SIZE_MAX) by (split; discriminate).
  assert (Hin' : 0 <= sz - 1 <= SIZE_MAX) by (split; discriminate).
  assert (Hlive : forall p, Some 0%nat = Some p -> is_Some (ctxs logged_world !! p)).
  { intros p [= <-]. by eexists. }
  destruct (send_too_large_iff (Some 0%nat) 0 sender_handle PTYPE_TEXT 0 PNull
              sz logged_world Hin logged_world_ok Hlive) as (Hrej & _ & _).
  destruct (send_too_large_iff (Some 0%nat) 0 sender_handle PTYPE_TEXT 0 PNull
              (sz - 1) logged_world Hin' logged_world_ok Hlive) as (_ & Hpass & _).
  destruct Hrej as (w' & Hsend & _ & _ & Hpush); [reflexivity|].
  exists w'. split; [exact Hsend|]. split; [exact Hpush|].
  apply Hpass. discriminate.
Defined.

(** C6 does not hold as specified: a rejected send does enqueue
    something. On the node above a send of [SIZE_MAX >> 8] + 1 bytes
    returns -2, and the logger's mailbox, empty before, then holds the
    "too large" line and stands on the global run queue. *)
Lemma too_large_send_enqueues_a_log_line :
  exists w' mq mq',
    skynet_send (Some 0%nat) 0 sender_handle PTYPE_TEXT 0 PNull
                (Z.shiftr SIZE_MAX 8 + 1) logged_world = Ok (w', -2)
    /\ mqs logged_world !! 1%nat = Some mq /\ Mq.messages mq = []
    /\ mqs w' !! 1%nat = Some mq'
    /\ Mq.messages mq'
       = [Message sender_handle 0
            (PBytes (list_byte_of_string "error: The message to 1000001 is too large"
                     ++ [x00]))
            42]
    /\ Q logged_world = [] /\ Q w' = [1%nat].
Proof.
  eexists _, _, _. split; [vm_compute; reflexivity|].
  split; [vm_compute; reflexivity|]. split; [reflexivity|].
  split; [vm_compute; reflexivity|]. split; [vm_compute; reflexivity|].
  split; reflexivity.
Qed.
(** *** Dispatch *)

Section Dispatch.
(** The message handler [ctx->cb] is whatever the service installed:
    called for the context [p] with a message, it may change the world
    in any way the API allows (send, register, retire, ...), fail an
    assertion, or not return. *)
Variable cb : nat -> skynet_message -> world -> outcome world.

(** [dispatch_message]. The per-service log file and the CPU accounting
    of the profile branch (which write [logfile], [cpu_start] and
    [cpu_cost] only) are left out. *)
Definition dispatch_message (p : nat) (msg : skynet_message) (w : world)
  : outcome world :=
  match ctxs w !! p with
  | Some ctx =>
      if init ctx then
        let ctx1 := set_message_count ctx (wrap_size (message_count ctx + 1)) in
        cb p msg (set_ctxs w (<[p := ctx1]> (ctxs w)))
      else Abort
  | None => Abort
  end.

(** How the [for] loop of [skynet_context_message_dispatch] ends: the
    mailbox was found empty (the function returns at once), or [i]
    reached [n]. *)
Inductive loop_exit :=
| Drained
| Finished.

(** The body of the [for] loop, for the grabbed context [p] with
    mailbox [q] and handle [handle]: the last component is [None] when
    the mailbox was empty, else the value of [n] after the round.
    [n >>= weight] on an [int] is undefined for a shift of 32 or more. *)
Definition dispatch_round (q p : nat) (handle weight : Z) (i n : Z)
    (sm : Monitor.skynet_monitor) (w : world)
  : outcome (world * Monitor.skynet_monitor * option Z) :=
  match mqs w !! q with
  | None => Abort
  | Some mq =>
      let '(mq1, popped) := Mq.skynet_mq_pop mq in
      match popped with
      | None => Ok (set_mqs w (<[q := mq1]> (mqs w)), sm, None)
      | Some msg =>
          n1 ← (if (i =? 0) && (0 <=? weight) then
                  if weight <? 32
                  then Ok (Z.shiftr (Mq.skynet_mq_length mq1) weight)
                  else Abort
                else Ok n);
          let '(mq2, overload) := Mq.skynet_mq_overload mq1 in
          let w1 := set_mqs w (<[q := mq2]> (mqs w)) in
          w2 ← (if overload =? 0 then Ok w1
                else skynet_error (Some p) (MayOverload overload) w1);
          let sm1 := Monitor.skynet_monitor_trigger sm (source msg) handle in
          let w3 := set_handled w2 (handled w2 ++ [(handle, msg)]) in
          match ctxs w3 !! p with
          | None => Abort
          | Some ctx =>
              w4 ← (if has_cb ctx then dispatch_message p msg w3 else Ok w3);
              Ok (w4, Monitor.skynet_monitor_trigger sm1 0 0, Some n1)
          end
      end
  end.

(** [for (i=0;i<n;i++) { ... }]: [n] is recomputed in the first round. *)
Fixpoint dispatch_loop (fuel : nat) (q p : nat) (handle weight : Z) (i n : Z)
    (sm : Monitor.skynet_monitor) (w : world)
  : outcome (world * Monitor.skynet_monitor * loop_exit) :=
  if i <? n then
    match fuel with
    | O => Fuel
    | S f =>
        '(w1, sm1, next) ← dispatch_round q p handle weight i n sm w;
        match next with
        | None => Ok (w1, sm1, Drained)
        | Some n1 => dispatch_loop f q p handle weight (i + 1) n1 sm1 w1
        end
    end
  else Ok (w, sm, Finished).

(** [_drop_queue]: pop and drop every message, then free the mailbox. *)
Fixpoint _drop_queue (fuel : nat) (q : nat) (d : Z) (w : world) : outcome world :=
  match mqs w !! q with
  | None => Abort
  | Some mq =>
      let '(mq1, popped) := Mq.skynet_mq_pop mq in
      let w1 := set_mqs w (<[q := mq1]> (mqs w)) in
      match popped with
      | None => Ok (set_mqs w1 (delete q (mqs w1)))
      | Some msg =>
          match fuel with
          | O => Fuel
          | S f => w2 ← drop_message msg d w1; _drop_queue f q d w2
          end
      end
  end.

Definition skynet_mq_release (q : nat) (d : Z) (w : world) : outcome world :=
  match mqs w !! q with
  | None => Abort
  | Some mq =>
      if negb (Mq.release mq =? 0)
      then _drop_queue (Z.to_nat (Mq.skynet_mq_length mq)) q d w
      else Ok (skynet_globalmq_push q w)
  end.

(** [skynet_context_message_dispatch]: one scheduling turn of a worker.
    [n] is at most the length of the mailbox after the first pop, so
    the loop makes no more rounds than messages were queued at the
    start, which is the fuel given. *)
Definition skynet_context_message_dispatch (sm : Monitor.skynet_monitor)
    (q : option nat) (weight : Z) (w : world)
  : outcome (world * Monitor.skynet_monitor * option nat) :=
  let '(w, q) :=
    match q with
    | Some q => (w, Some q)
    | None => skynet_globalmq_pop w
    end in
  match q with
  | None => Ok (w, sm, None)
  | Some q =>
      match mqs w !! q with
      | None => Abort
      | Some mq =>
          let handle := Mq.skynet_mq_handle mq in
          match Handle.skynet_handle_grab (ctxs w) (H w) handle with
          | None =>
              w1 ← skynet_mq_release q handle w;
              let '(w2, nq) := skynet_globalmq_pop w1 in
              Ok (w2, sm, nq)
          | Some p =>
              '(w1, sm1, exit) ←
                dispatch_loop (S (Z.to_nat (Mq.skynet_mq_length mq)))
                              q p handle weight 0 1 sm w;
              match exit with
              | Drained =>
                  let '(w2, nq) := skynet_globalmq_pop w1 in
                  Ok (w2, sm1, nq)
              | Finished =>
                  match ctxs w1 !! p with
                  | Some ctx =>
                      if Nat.eqb q (ctx_queue ctx) then
                        let '(w2, nq) := skynet_globalmq_pop w1 in
                        match nq with
                        | Some nq => Ok (skynet_globalmq_push q w2, sm1, Some nq)
                        | None => Ok (w2, sm1, Some q)
                        end
                      else Abort
                  | None => Abort
                  end
              end
          end
      end
  end.
End Dispatch.

(** *** One scheduling turn *)

(** The node of [logged_world] where the mailbox of [:01000001], taken
    off the run queue by a worker, holds the given messages. *)
Definition busy_mailbox (ms : list skynet_message) : Mq.message_queue :=
  fold_left (fun acc m => (Mq.skynet_mq_push acc m).1) ms
            (Mq.skynet_mq_create sender_handle).

Definition busy_world (ms : list skynet_message) : world :=
  set_mqs logged_world (<[0%nat := busy_mailbox ms]> (mqs logged_world)).

(** A callback that ignores its message. *)
Definition silent : nat -> skynet_message -> world -> outcome world :=
  fun _ _ w => Ok w.

Definition two_messages : list skynet_message :=
  [Message 0 1 PNull 0; Message 0 2 PNull 0].

Definition four_messages : list skynet_message :=
  [Message 0 1 PNull 0; Message 0 2 PNull 0; Message 0 3 PNull 0; Message 0 4 PNull 0].

(** C2: the code does not do what the claim, and the comment on the
    weight table in skynet_start.c, say. With weight 0 and two queued
    messages the turn handles one message and leaves the other queued:
    the mailbox is not drained. With weight 1 and four queued messages
    it handles one message, not [4 >> 1 = 2]. With weight -1 it handles
    one message, as specified. *)
Lemma weight_zero_leaves_a_message :
  (exists w' sm' mq',
     skynet_context_message_dispatch silent Monitor.skynet_monitor_new (Some 0%nat) 0
        (busy_world two_messages) = Ok (w', sm', Some 0%nat)
     /\ handled w' = [(sender_handle, Message 0 1 PNull 0)]
     /\ mqs w' !! 0%nat = Some mq'
     /\ Mq.messages mq' = [Message 0 2 PNull 0])
  /\ (exists w' sm' mq',
        skynet_context_message_dispatch silent Monitor.skynet_monitor_new (Some 0%nat) 1
          (busy_world four_messages) = Ok (w', sm', Some 0%nat)
        /\ handled w' = [(sender_handle, Message 0 1 PNull 0)]
        /\ mqs w' !! 0%nat = Some mq'
        /\ Mq.messages mq' = [Message 0 2 PNull 0; Message 0 3 PNull 0; Message 0 4 PNull 0]
        /\ Z.shiftr (Z.of_nat (length four_messages)) 1 = 2)
  /\ (exists w' sm' mq',
        skynet_context_message_dispatch silent Monitor.skynet_monitor_new (Some 0%nat) (-1)
          (busy_world two_messages) = Ok (w', sm', Some 0%nat)
        /\ handled w' = [(sender_handle, Message 0 1 PNull 0)]
        /\ mqs w' !! 0%nat = Some mq'
        /\ Mq.messages mq' = [Message 0 2 PNull 0]).
Proof.
  split_and!; eexists _, _, _.
  - split; [vm_compute; reflexivity|].
    split; [reflexivity|]. split; [vm_compute; reflexivity|]. reflexivity.
  - split; [vm_compute; reflexivity|].
    split; [reflexivity|]. split; [vm_compute; reflexivity|]. split; reflexivity.
  - split; [vm_compute; reflexivity|].
    split; [reflexivity|]. split; [vm_compute; reflexivity|]. reflexivity.
Qed.

(** *** The endless flag and STAT *)

(** [skynet_context_endless]: mark the service if it is still registered. *)
Definition skynet_context_endless (handle : Z) (w : world) : world :=
  match Handle.skynet_handle_grab (ctxs w) (H w) handle with
  | Some p =>
      match ctxs w !! p with
      | Some ctx => set_ctxs w (<[p := set_endless ctx true]> (ctxs w))
      | None => w
      end
  | None => w
  end.

(** [cmd_stat]: [context] is the calling service, [thread_time] the value
    [skynet_thread_time()] would return. The text written to
    [context->result] is returned as well. *)
Definition cmd_stat (context : nat) (param : string) (thread_time : Z) (w : world)
  : outcome (world * result_text) :=
  match ctxs w !! context with
  | None => Abort
  | Some ctx =>
      let store c := Ok (set_ctxs w (<[context := c]> (ctxs w)), result c) in
      if strcmp param "mqlen" =? 0 then
        match mqs w !! ctx_queue ctx with
        | Some mq => store (set_result ctx (Dec (Mq.skynet_mq_length mq)))
        | None => Abort
        end
      else if strcmp param "endless" =? 0 then
        if endless ctx
        then store (set_endless (set_result ctx (Lit "1")) false)
        else store (set_result ctx (Lit "0"))
      else if strcmp param "cpu" =? 0 then
        store (set_result ctx (Seconds (cpu_cost ctx)))
      else if strcmp param "time" =? 0 then
        if profile ctx
        then store (set_result ctx
                      (Seconds ((thread_time - cpu_start ctx) mod 18446744073709551616)))
        else store (set_result ctx (Lit "0"))
      else if strcmp param "message" =? 0 then
        store (set_result ctx (Dec (message_count ctx)))
      else store (set_result ctx (Lit ""))
  end.

End Server.

(** ** skynet_monitor.c: the periodic check *)
Module Stall.
Import Monitor Server.

Definition skynet_monitor_check (sm : skynet_monitor) (w : world)
  : outcome (skynet_monitor * world) :=
  if version sm =? check_version sm then
    if negb (destination sm =? 0) then
      let w1 := skynet_context_endless (destination sm) w in
      w2 ← skynet_error None
             (MaybeEndless (msource sm) (destination sm) (version sm)) w1;
      Ok (sm, w2)
    else Ok (sm, w)
  else Ok (SkynetMonitor (version sm) (version sm) (msource sm) (destination sm), w).

(** The worker made no progress since the last sample and is inside a
    dispatch. *)
Definition stalled (sm : skynet_monitor) : Prop :=
  version sm = check_version sm /\ destination sm <> 0.

Lemma stalled_dec sm : {stalled sm} + {~ stalled sm}.
Proof.
  unfold stalled.
  destruct (Z.eq_dec (version sm) (check_version sm)), (Z.eq_dec (destination sm) 0);
    [right|left|right|right]; tauto.
Qed.

Lemma check_stalled sm w :
  stalled sm ->
  skynet_monitor_check sm w
  = w2 ← skynet_error None (MaybeEndless (msource sm) (destination sm) (version sm))
           (skynet_context_endless (destination sm) w);
    Ok (sm, w2).
Proof.
  intros [Hv Hd]. unfold skynet_monitor_check.
  rewrite Hv, Z.eqb_refl. by destruct (Z.eqb_spec (destination sm) 0).
Qed.

Lemma check_running sm w :
  ~ stalled sm ->
  exists sm', skynet_monitor_check sm w = Ok (sm', w)
    /\ (version sm <> check_version sm -> check_version sm' = version sm).
Proof.
  intros Hn. unfold skynet_monitor_check, stalled in *.
  destruct (Z.eqb_spec (version sm) (check_version sm)) as [Hv|Hv].
  - destruct (Z.eqb_spec (destination sm) 0); [by eexists|tauto].
  - by eexists.
Qed.

Lemma endless_marks handle w p ctx :
  Handle.skynet_handle_grab (ctxs w) (H w) handle = Some p ->
  ctxs w !! p = Some ctx ->
  skynet_context_endless handle w
  = set_ctxs w (<[p := set_endless ctx true]> (ctxs w)).
Proof. intros Hg Hc. unfold skynet_context_endless. by rewrite Hg, Hc. Qed.

Lemma endless_only_grabbed handle w p :
  Handle.skynet_handle_grab (ctxs w) (H w) handle <> Some p ->
  ctxs (skynet_context_endless handle w) !! p = ctxs w !! p.
Proof.
  intros Hg. unfold skynet_context_endless.
  destruct (Handle.skynet_handle_grab (ctxs w) (H w) handle) as [p'|]; [|done].
  destruct (ctxs w !! p'); [|done]. cbn.
  apply lookup_insert_ne. congruence.
Qed.

Lemma endless_unregistered handle w :
  Handle.skynet_handle_grab (ctxs w) (H w) handle = None ->
  skynet_context_endless handle w = w.
Proof. intros Hg. unfold skynet_context_endless. by rewrite Hg. Qed.

(** Marking a service changes no handle, no mailbox and no queue. *)
Lemma endless_routing handle w :
  same_routing w (skynet_context_endless handle w).
Proof.
  unfold skynet_context_endless.
  destruct (Handle.skynet_handle_grab (ctxs w) (H w) handle) as [p|];
    [|apply same_routing_refl].
  destruct (ctxs w !! p) as [ctx|] eqn:Hc; [|apply same_routing_refl].
  constructor; try done; intros p'; cbn [ctxs set_ctxs];
    (destruct (decide (p = p')) as [<-|Hne];
     [by rewrite lookup_insert_eq, Hc|by rewrite lookup_insert_ne]).
Qed.

(** C8 (amended). [skynet_monitor_check] hands the "endless loop" line
    to [skynet_error] (which pushes it on the logger's mailbox) if and
    only if the version equals the previous sample and the recorded
    destination is not 0; otherwise nothing changes but the sample,
    which is refreshed when the version has moved. The destination
    service gets its [endless] flag set if and only if, in addition, its
    handle is still registered: for a retired destination the line is
    reported and no service is marked. No other service is touched. The
    STAT endless command returns "1" and clears the flag when it is set,
    and returns "0" when it is clear. *)
Theorem stall_detection (sm : skynet_monitor) (w : world) (p : nat)
    (ctx : skynet_context) (thread_time : Z) :
  ctxs w !! p = Some ctx ->
  mailboxes_ok w ->
  let line := MaybeEndless (msource sm) (destination sm) (version sm) in
  let grabbed := Handle.skynet_handle_grab (ctxs w) (H w) (destination sm) in
  (exists sm' w',
     skynet_monitor_check sm w = Ok (sm', w')
     /\ (errors w' = errors w ++ [(0, line)] <-> stalled sm)
     /\ (stalled sm ->
         match log_mailbox w with
         | Some q => appended w w' q (log_message 0 line)
         | None => mqs w' = mqs w /\ Q w' = Q w
         end)
     /\ (~ stalled sm -> w' = w)
     /\ (stalled sm -> grabbed = Some p -> ctxs w' !! p = Some (set_endless ctx true))
     /\ (stalled sm -> grabbed = None -> ctxs w' = ctxs w)
     /\ (grabbed <> Some p -> ctxs w' !! p = Some ctx)
     /\ (endless ctx = false ->
         ((exists ctx', ctxs w' !! p = Some ctx' /\ endless ctx' = true)
          <-> stalled sm /\ grabbed = Some p))
     /\ (version sm <> check_version sm -> check_version sm' = version sm))
  /\ (endless ctx = true ->
      exists w2 ctx2,
        cmd_stat p "endless" thread_time w = Ok (w2, Lit "1")
        /\ ctxs w2 !! p = Some ctx2 /\ endless ctx2 = false
        /\ exists w3, cmd_stat p "endless" thread_time w2 = Ok (w3, Lit "0"))
  /\ (endless ctx = false ->
      exists w2 ctx2,
        cmd_stat p "endless" thread_time w = Ok (w2, Lit "0")
        /\ ctxs w2 !! p = Some ctx2 /\ endless ctx2 = false).
Proof.
  intros Hctx Hok. cbv zeta.
  assert (Hstat : forall c w0, ctxs w0 !! p = Some c ->
            cmd_stat p "endless" thread_time w0
            = if endless c
              then Ok (set_ctxs w0 (<[p := set_endless (set_result c (Lit "1")) false]>
                                      (ctxs w0)), Lit "1")
              else Ok (set_ctxs w0 (<[p := set_result c (Lit "0")]> (ctxs w0)), Lit "0")).
  { intros c w0 Hc. unfold cmd_stat. rewrite Hc.
    replace (strcmp "endless" "mqlen" =? 0) with false by done.
    replace (strcmp "endless" "endless" =? 0) with true by done.
    by destruct (endless c). }
  split; [|split].
  - destruct (stalled_dec sm) as [Hst|Hst].
    + rewrite (check_stalled sm w Hst).
      pose proof (endless_routing (destination sm) w) as Hroute.
      destruct (skynet_error_pushes None
                  (MaybeEndless (msource sm) (destination sm) (version sm))
                  (skynet_context_endless (destination sm) w))
        as (w' & Herr & Hpush); [by apply (same_routing_mailboxes w)|done|].
      rewrite Herr. cbn [mbind outcome_bind].
      rewrite (same_routing_log_mailbox w) in Hpush by done. cbn [reporter] in Hpush.
      apply skynet_error_frame in Herr as (_ & Hc & _ & _ & _ & _ & He).
      cbn [reporter] in He. rewrite (sr_errors _ _ Hroute) in He.
      exists sm, w'. split; [done|]. split_and!.
      * done.
      * intros _. destruct (log_mailbox w) as [q|].
        -- by eapply same_routing_appended.
        -- destruct Hpush as [-> ->]. split; apply Hroute.
      * done.
      * intros _ Hg. rewrite Hc, (endless_marks _ _ _ _ Hg Hctx). cbn.
        apply lookup_insert_eq.
      * intros _ Hg. by rewrite Hc, (endless_unregistered _ _ Hg).
      * intros Hne. by rewrite Hc, (endless_only_grabbed _ _ _ Hne).
      * intros Hclear. split.
        -- intros (ctx' & Hc' & He'). split; [done|].
           destruct (decide (Handle.skynet_handle_grab (ctxs w) (H w) (destination sm)
                             = Some p)) as [|Hne]; [done|].
           rewrite Hc, (endless_only_grabbed _ _ _ Hne) in Hc'. congruence.
        -- intros [_ Hg]. exists (set_endless ctx true). split; [|done].
           rewrite Hc, (endless_marks _ _ _ _ Hg Hctx). cbn. apply lookup_insert_eq.
      * destruct Hst. done.
    + destruct (check_running sm w Hst) as (sm' & Hcheck & Hv).
      exists sm', w. split; [done|]. split_and!; try done.
      * split; [|done]. intros Herr. apply (f_equal length) in Herr.
        rewrite length_app in Herr. simpl in Herr. lia.
      * intros Hclear. split; [|tauto].
        intros (ctx' & Hc' & He'). congruence.
  - intros He. rewrite (Hstat ctx w Hctx), He.
    eexists _, _. split; [reflexivity|]. cbn. rewrite lookup_insert_eq.
    split; [reflexivity|]. split; [reflexivity|].
    erewrite Hstat by (cbn; apply lookup_insert_eq). cbn.
    by eexists.
  - intros He. rewrite (Hstat ctx w Hctx), He.
    eexists _, _. split; [reflexivity|]. cbn. rewrite lookup_insert_eq.
    split; [reflexivity|]. done.
Qed.

Lemma stall_detection_witness :
  let sm := SkynetMonitor 4 4 0 sender_handle in
  exists sm' w' w2,
    skynet_monitor_check sm logged_world = Ok (sm', w')
    /\ ctxs w' !! 0%nat = Some (set_endless demo_ctx true)
    /\ errors w' = [(0, MaybeEndless 0 sender_handle 4)]
    /\ appended logged_world w' 1%nat (log_message 0 (MaybeEndless 0 sender_handle 4))
    /\ cmd_stat 0%nat "endless" 0 logged_world = Ok (w2, Lit "0").
Proof.
  intros sm.
  pose proof (stall_detection sm logged_world 0%nat demo_ctx 0 eq_refl
                logged_world_ok) as Hd.
  cbv zeta in Hd.
  destruct Hd as ((sm' & w' & Hcheck & Herr & Hlog & _ & Hmark & _) & _ & Hzero).
  assert (Hst : stalled sm) by (split; [reflexivity|discriminate]).
  destruct (Hzero eq_refl) as (w2 & _ & Hstat & _).
  exists sm', w', w2. split; [exact Hcheck|]. split; [exact (Hmark Hst eq_refl)|].
  split; [exact (proj2 Herr Hst)|]. split; [exact (Hlog Hst)|]. exact Hstat.
Defined.

(** C8 does not hold as specified: a stalled worker whose recorded
    destination [:01000003] is no longer registered has the line
    reported (it reaches the logger's mailbox), yet no service is marked
    endless. *)
Lemma stalled_retired_destination_unmarked :
  let sm := SkynetMonitor 4 4 sender_handle 16777219 in
  exists w' mq',
    stalled sm
    /\ skynet_monitor_check sm logged_world = Ok (sm, w')
    /\ errors w' = [(0, MaybeEndless sender_handle 16777219 4)]
    /\ ctxs w' = ctxs logged_world
    /\ (forall p ctx, ctxs w' !! p = Some ctx -> endless ctx = false)
    /\ mqs w' !! 1%nat = Some mq'
    /\ (exists sz,
          Mq.messages mq'
          = [Message 0 0
               (PBytes (list_byte_of_string
                  "error: A message from [ :01000001 ] to [ :01000003 ] maybe in an endless loop (version = 4)"
                  ++ [x00])) sz]).
Proof.
  intros sm. eexists _, _.
  split; [split; [reflexivity|discriminate]|].
  split; [vm_compute; reflexivity|].
  split; [reflexivity|]. split; [reflexivity|].
  split.
  - intros p ctx Hc. change (ctxs logged_world !! p = Some ctx) in Hc.
    unfold logged_world in Hc. cbn [ctxs] in Hc.
    apply lookup_insert_Some in Hc as [[<- <-]|[_ Hc]]; [done|].
    by apply lookup_singleton_Some in Hc as [<- <-].
  - split; [vm_compute; reflexivity|]. eexists. vm_compute. reflexivity.
Qed.

End Stall.

(** ** socket_server.c: enabling write events *)
Module Socket.

(** The system calls behind [sp_enable], with the arguments that matter:
    [epoll_ctl(efd, EPOLL_CTL_MOD, sock, &ev)] with EPOLLIN / EPOLLOUT in
    [ev.events], and [kevent(kfd, &ke, 1, NULL, 0, NULL)] enabling or
    disabling one filter. *)
Inductive kfilter :=
| EVFILT_READ
| EVFILT_WRITE.

Inductive syscall :=
| epoll_ctl_mod (efd sock : Z) (epollin epollout : bool)
| kevent_change (kfd sock : Z) (filter : kfilter) (enable : bool).

(** The operating system decides whether a call fails. *)
Definition kernel := syscall -> bool.

(** socket_poll.h declares [sp_enable]; socket_epoll.h and
    socket_kqueue.h implement it. The result is the trace of system calls
    made and the returned status. *)
Class poll_backend := {
  sp_enable : kernel -> Z -> Z -> bool -> bool -> list syscall * Z
}.

(** socket_epoll.h *)
#[local] Instance epoll : poll_backend := {
  sp_enable os efd sock read_enable write_enable :=
    let c := epoll_ctl_mod efd sock read_enable write_enable in
    ([c], if os c then 1 else 0)
}.

(** socket_kqueue.h: one [kevent] per filter, both always issued. *)
#[local] Instance kqueue : poll_backend := {
  sp_enable os kfd sock read_enable write_enable :=
    let c1 := kevent_change kfd sock EVFILT_READ read_enable in
    let ret1 := if os c1 then 1 else 0 in
    let c2 := kevent_change kfd sock EVFILT_WRITE write_enable in
    let ret2 := if os c2 then Z.lor ret1 1 else ret1 in
    ([c1; c2], ret2)
}.

(** The fields of [struct socket] and [struct socket_server] that
    [enable_write] and [enable_read] use. *)
Record socket := Socket {
  id : Z;
  fd : Z;
  reading : bool;
  writing : bool;
  closing : bool
}.

Record socket_server := SocketServer {
  event_fd : Z
}.

Section Enable.
Context `{backend : poll_backend}.
Variable os : kernel.

(** [enable_write]: the socket afterwards, the system calls made, and
    the returned status. *)
Definition enable_write (ss : socket_server) (s : socket) (enable : bool)
  : socket * list syscall * Z :=
  if negb (eqb (writing s) enable) then
    let s1 := Socket (id s) (fd s) (reading s) enable (closing s) in
    let '(trace, ret) := sp_enable os (event_fd ss) (fd s1) (reading s1) enable in
    (s1, trace, ret)
  else (s, [], 0).

Definition enable_read (ss : socket_server) (s : socket) (enable : bool)
  : socket * list syscall * Z :=
  if negb (eqb (reading s) enable) then
    let s1 := Socket (id s) (fd s) enable (writing s) (closing s) in
    let '(trace, ret) := sp_enable os (event_fd ss) (fd s1) enable (writing s1) in
    (s1, trace, ret)
  else (s, [], 0).

(** [enable_write(s, x); enable_write(s, x)]: all system calls made. *)
Definition enable_write_twice (ss : socket_server) (s : socket) (x : bool)
  : socket * list syscall :=
  let '(s1, t1, _) := enable_write ss s x in
  let '(s2, t2, _) := enable_write ss s1 x in
  (s2, t1 ++ t2).

Lemma enable_write_sets ss s x : writing (enable_write ss s x).1.1 = x.
Proof.
  unfold enable_write. destruct (writing s) eqn:Hw, x; cbn; try done.
  - by destruct (sp_enable os (event_fd ss) (fd s) (reading s) false).
  - by destruct (sp_enable os (event_fd ss) (fd s) (reading s) true).
Qed.

Lemma enable_write_same ss s : enable_write ss s (writing s) = (s, [], 0).
Proof. unfold enable_write. by rewrite eqb_reflx. Qed.

Lemma enable_write_trace ss s x :
  (enable_write ss s x).1.2
  = if eqb (writing s) x then []
    else (sp_enable os (event_fd ss) (fd s) (reading s) x).1.
Proof.
  unfold enable_write. destruct (eqb (writing s) x); cbn; [done|].
  by destruct (sp_enable os (event_fd ss) (fd s) (reading s) x).
Qed.
End Enable.

(** C9 (amended). [enable_write] is state-deduplicated on either backend:
    in [enable_write(s, x); enable_write(s, x)] the second call finds the
    stored [writing] flag equal to [x], makes no system call, returns 0
    and leaves the socket unchanged; the first call invokes [sp_enable] at
    most once, namely when the flag differed. One [sp_enable] is a single
    [epoll_ctl] on the epoll backend and two [kevent] calls, one per
    filter, on the kqueue backend. *)
Theorem enable_write_dedup (os : kernel) (ss : socket_server) (s : socket) (x : bool) :
  (forall backend : poll_backend,
     let first := @enable_write backend os ss s x in
     let second := @enable_write backend os ss first.1.1 x in
     second = (first.1.1, [], 0)
     /\ writing first.1.1 = x
     /\ first.1.2
        = (if eqb (writing s) x then []
           else (@sp_enable backend os (event_fd ss) (fd s) (reading s) x).1)
     /\ (@enable_write_twice backend os ss s x).2 = first.1.2)
  /\ (length (@enable_write_twice epoll os ss s x).2 <= 1)%nat
  /\ (length (@enable_write_twice kqueue os ss s x).2
      = if eqb (writing s) x then 0 else 2)%nat.
Proof.
  assert (Hgen : forall backend : poll_backend,
            let first := @enable_write backend os ss s x in
            let second := @enable_write backend os ss first.1.1 x in
            second = (first.1.1, [], 0)
            /\ writing first.1.1 = x
            /\ first.1.2
               = (if eqb (writing s) x then []
                  else (@sp_enable backend os (event_fd ss) (fd s) (reading s) x).1)
            /\ (@enable_write_twice backend os ss s x).2 = first.1.2).
  { intros backend first second.
    pose proof (@enable_write_sets backend os ss s x) as Hset. fold first in Hset.
    assert (Hsecond : second = (first.1.1, [], 0)).
    { pose proof (@enable_write_same backend os ss first.1.1) as Hs.
      by rewrite Hset in Hs. }
    split_and!; [done|done|apply enable_write_trace|].
    unfold enable_write_twice. fold first. destruct first as [[s1 t1] r1] eqn:Hf.
    cbn [fst snd] in *. fold second. rewrite Hsecond. cbn. apply app_nil_r. }
  split; [exact Hgen|].
  destruct (Hgen epoll) as (_ & _ & He & ->).
  destruct (Hgen kqueue) as (_ & _ & Hk & ->).
  rewrite He, Hk. destruct (eqb (writing s) x); cbn; split; lia.
Qed.

(** C9 does not hold as specified on the kqueue backend: turning write
    events on for a socket that had them off takes two [kevent] system
    calls. *)
Lemma kqueue_enable_write_two_syscalls :
  let s := Socket 1 7 true false false in
  (@enable_write_twice kqueue (fun _ => false) (SocketServer 3) s true).2
  = [kevent_change 3 7 EVFILT_READ true; kevent_change 3 7 EVFILT_WRITE true].
Proof. reflexivity. Qed.

End Socket.

(** ** skynet_timer.c: the hierarchical timing wheel *)
Module Timer.

Definition TIME_NEAR_SHIFT : Z := 8.
Definition TIME_NEAR : Z := Z.shiftl 1 TIME_NEAR_SHIFT.
Definition TIME_LEVEL_SHIFT : Z := 6.
Definition TIME_LEVEL : Z := Z.shiftl 1 TIME_LEVEL_SHIFT.
Definition TIME_NEAR_MASK : Z := TIME_NEAR - 1.
Definition TIME_LEVEL_MASK : Z := TIME_LEVEL - 1.

Record timer_event := TimerEvent {
  handle : Z;    (* uint32_t *)
  session : Z    (* int *)
}.

(** A [struct timer_node] together with the [struct timer_event] stored
    right behind it; the [next] pointer is the position in its list. *)
Record timer_node := TimerNode {
  expire : Z;    (* uint32_t *)
  event : timer_event
}.

(** A [struct link_list], head first; [link] appends at the tail. *)
Definition link_list := list timer_node.

Record timer := MkTimer {
  near : list link_list;       (* near[TIME_NEAR] *)
  t : list (list link_list);   (* t[4][TIME_LEVEL] *)
  time : Z;                    (* uint32_t *)
  starttime : Z;               (* uint32_t *)
  current : Z;                 (* uint64_t *)
  current_point : Z            (* uint64_t *)
}.

Definition set_near (T : timer) (a : list link_list) : timer :=
  MkTimer a (t T) (time T) (starttime T) (current T) (current_point T).
Definition set_t (T : timer) (a : list (list link_list)) : timer :=
  MkTimer (near T) a (time T) (starttime T) (current T) (current_point T).
Definition set_time (T : timer) (c : Z) : timer :=
  MkTimer (near T) (t T) c (starttime T) (current T) (current_point T).

(** [link(&T->near[idx], node)] and [link(&T->t[i][idx], node)] *)
Definition link_near (T : timer) (idx : Z) (node : timer_node) : timer :=
  set_near T (alter (fun l => l ++ [node]) (Z.to_nat idx) (near T)).

Definition link_level (T : timer) (i idx : Z) (node : timer_node) : timer :=
  set_t T (alter (alter (fun l => l ++ [node]) (Z.to_nat idx)) (Z.to_nat i) (t T)).

(** [link_clear]: the detached list and the timer with the slot emptied. *)
Definition link_clear_near (T : timer) (idx : Z) : link_list * timer :=
  (near T !!! Z.to_nat idx, set_near T (<[Z.to_nat idx := []]> (near T))).

Definition link_clear_level (T : timer) (i idx : Z) : link_list * timer :=
  ((t T !!! Z.to_nat i) !!! Z.to_nat idx,
   set_t T (alter (fun row => <[Z.to_nat idx := []]> row) (Z.to_nat i) (t T))).

(** The [for (i=0;i<3;i++)] loop of [add_node]: the level reached. *)
Fixpoint add_node_level (rounds : nat) (i mask time current_time : Z) : Z :=
  match rounds with
  | O => i
  | S r =>
      if Z.lor time (mask - 1) =? Z.lor current_time (mask - 1) then i
      else add_node_level r (i + 1) (wrap_u32 (Z.shiftl mask TIME_LEVEL_SHIFT))
                          time current_time
  end.

Definition add_node (T : timer) (node : timer_node) : timer :=
  let time_ := expire node in
  let current_time := time T in
  if Z.lor time_ TIME_NEAR_MASK =? Z.lor current_time TIME_NEAR_MASK then
    link_near T (Z.land time_ TIME_NEAR_MASK) node
  else
    let i := add_node_level 3 0 (Z.shiftl TIME_NEAR TIME_LEVEL_SHIFT)
                            time_ current_time in
    link_level T i
      (Z.land (Z.shiftr time_ (TIME_NEAR_SHIFT + i * TIME_LEVEL_SHIFT))
              TIME_LEVEL_MASK)
      node.

(** [timer_add]: [time] is the relative delay, an [int]. *)
Definition timer_add (T : timer) (arg : timer_event) (time_ : Z) : timer :=
  add_node T (TimerNode (wrap_u32 (time_ + time T)) arg).

Definition move_list (T : timer) (level idx : Z) : timer :=
  let '(current_, T1) := link_clear_level T level idx in
  fold_left add_node current_ T1.

(** The [while ((ct & (mask-1))==0)] loop of [timer_shift]. For a
    non-zero 32-bit [ct] it ends within four rounds. *)
Fixpoint timer_shift_loop (rounds : nat) (T : timer) (ct mask time_ i : Z) : timer :=
  match rounds with
  | O => T
  | S r =>
      if Z.land ct (mask - 1) =? 0 then
        let idx := Z.land time_ TIME_LEVEL_MASK in
        if negb (idx =? 0) then move_list T i idx
        else timer_shift_loop r T ct (Z.shiftl mask TIME_LEVEL_SHIFT)
                              (Z.shiftr time_ TIME_LEVEL_SHIFT) (i + 1)
      else T
  end.

Definition timer_shift (T : timer) : timer :=
  let ct := wrap_u32 (time T + 1) in
  let T1 := set_time T ct in
  if ct =? 0 then move_list T1 3 0
  else timer_shift_loop 4 T1 ct TIME_NEAR (Z.shiftr ct TIME_NEAR_SHIFT) 0.

(** [dispatch_list]: every node becomes a PTYPE_RESPONSE message pushed
    to its target with [skynet_context_push]; the result lists the pushes. *)
Definition dispatch_node (node : timer_node) : Z * skynet_message :=
  (handle (event node),
   Message 0 (session (event node)) PNull (Z.shiftl PTYPE_RESPONSE MESSAGE_TYPE_SHIFT)).

Definition dispatch_list (current_ : link_list) : list (Z * skynet_message) :=
  dispatch_node <$> current_.

(** [timer_execute]: with the wheel to itself between clearing the slot
    and looking at it again, the [while] loop body runs at most once. The
    nodes handed to [dispatch_list] are returned. *)
Definition timer_execute (T : timer) : timer * link_list :=
  let idx := Z.land (time T) TIME_NEAR_MASK in
  match near T !!! Z.to_nat idx with
  | [] => (T, [])
  | _ :: _ =>
      let '(current_, T1) := link_clear_near T idx in
      (T1, current_)
  end.

(** [timer_update], returning the nodes that fired during the update. *)
Definition timer_update (T : timer) : timer * link_list :=
  let '(T1, fired0) := timer_execute T in
  let T2 := timer_shift T1 in
  let '(T3, fired1) := timer_execute T2 in
  (T3, fired0 ++ fired1).

Definition timer_create_timer : timer :=
  MkTimer (replicate (Z.to_nat TIME_NEAR) [])
          (replicate 4 (replicate (Z.to_nat TIME_LEVEL) [])) 0 0 0 0.

(** [skynet_timeout]: a non-positive delay is answered at once; the
    result is the wheel and the immediate push, if any. *)
Definition skynet_timeout (T : timer) (handle_ time_ session_ : Z)
  : timer * option (Z * skynet_message) :=
  if time_ <=? 0 then
    (T, Some (handle_, Message 0 session_ PNull (Z.shiftl PTYPE_RESPONSE MESSAGE_TYPE_SHIFT)))
  else (timer_add T (TimerEvent handle_ session_) time_, None).

(** *** Slots of the wheel *)

Inductive slot_id :=
| Near (idx : nat)
| Level (i idx : nat).

#[local] Instance slot_id_eq_dec : EqDecision slot_id.
Proof. solve_decision. Defined.

Definition valid_slot (sl : slot_id) : Prop :=
  match sl with
  | Near idx => (idx < 256)%nat
  | Level i idx => (i < 4)%nat /\ (idx < 64)%nat
  end.

Definition slot_nodes (T : timer) (sl : slot_id) : link_list :=
  match sl with
  | Near idx => near T !!! idx
  | Level i idx => (t T !!! i) !!! idx
  end.

Definition link (T : timer) (sl : slot_id) (node : timer_node) : timer :=
  match sl with
  | Near idx => link_near T (Z.of_nat idx) node
  | Level i idx => link_level T (Z.of_nat i) (Z.of_nat idx) node
  end.

Definition clear (T : timer) (sl : slot_id) : timer :=
  match sl with
  | Near idx => (link_clear_near T (Z.of_nat idx)).2
  | Level i idx => (link_clear_level T (Z.of_nat i) (Z.of_nat idx)).2
  end.

(** The arrays have their declared sizes. *)
Record shaped (T : timer) : Prop := Shaped {
  shaped_near : length (near T) = 256%nat;
  shaped_t : length (t T) = 4%nat;
  shaped_rows : forall i row, t T !! i = Some row -> length row = 64%nat
}.

Lemma shaped_create : shaped timer_create_timer.
Proof.
  constructor; [done|done|].
  intros i row Hrow. apply list_elem_of_lookup_2 in Hrow.
  apply elem_of_replicate in Hrow as [-> _]. done.
Qed.

Lemma row_length T i :
  shaped T -> (i < 4)%nat -> length (t T !!! i) = 64%nat.
Proof.
  intros [_ Ht Hrows] Hi. apply (Hrows i).
  apply list_lookup_lookup_total_lt. lia.
Qed.

Lemma shaped_link T sl node : shaped T -> shaped (link T sl node).
Proof.
  intros [Hn Ht Hrows]. destruct sl as [idx|i idx]; constructor; cbn;
    rewrite ?length_alter; try done.
  intros j row. rewrite !Nat2Z.id.
  destruct (decide (i = j)) as [<-|Hij].
  - rewrite list_lookup_alter_eq. destruct (t T !! i) as [r|] eqn:Hr; [|done].
    intros [= <-]. rewrite length_alter. by apply (Hrows i).
  - rewrite list_lookup_alter_ne by done. apply Hrows.
Qed.

Lemma shaped_clear T sl : shaped T -> shaped (clear T sl).
Proof.
  intros [Hn Ht Hrows]. destruct sl as [idx|i idx]; constructor; cbn;
    rewrite ?length_alter, ?length_insert; try done.
  intros j row. rewrite !Nat2Z.id.
  destruct (decide (i = j)) as [<-|Hij].
  - rewrite list_lookup_alter_eq. destruct (t T !! i) as [r|] eqn:Hr; [|done].
    intros [= <-]. rewrite length_insert. by apply (Hrows i).
  - rewrite list_lookup_alter_ne by done. apply Hrows.
Qed.

Lemma time_link T sl node : time (link T sl node) = time T.
Proof. by destruct sl. Qed.

Lemma time_clear T sl : time (clear T sl) = time T.
Proof. by destruct sl. Qed.

Lemma lookup_total_alter_lt {A} `{!Inhabited A} (f : A -> A) (l : list A) i j :
  (i < length l)%nat ->
  alter f i l !!! j = if decide (i = j) then f (l !!! i) else l !!! j.
Proof.
  intros Hi. destruct (decide (i = j)) as [<-|Hne].
  - by apply list_lookup_total_alter_eq.
  - by apply list_lookup_total_alter_ne.
Qed.

Lemma lookup_total_insert_lt {A} `{!Inhabited A} (l : list A) i j x :
  (i < length l)%nat ->
  <[i:=x]> l !!! j = if decide (i = j) then x else l !!! j.
Proof.
  intros Hi. destruct (decide (i = j)) as [<-|Hne].
  - by apply list_lookup_total_insert_eq.
  - by apply list_lookup_total_insert_ne.
Qed.

Lemma slot_nodes_link T sl node sl' :
  shaped T -> valid_slot sl ->
  slot_nodes (link T sl node) sl'
  = if decide (sl = sl') then slot_nodes T sl ++ [node] else slot_nodes T sl'.
Proof.
  intros Hs Hv. pose proof Hs as [Hn Ht Hrows].
  destruct sl as [idx|i idx], sl' as [idx'|i' idx']; cbn in *.
  - rewrite Nat2Z.id, lookup_total_alter_lt by lia.
    destruct (decide (idx = idx')), (decide (Near idx = Near idx')); congruence.
  - by rewrite decide_False.
  - by rewrite decide_False.
  - destruct Hv as [Hi Hidx]. rewrite !Nat2Z.id, lookup_total_alter_lt by lia.
    destruct (decide (i = i')) as [<-|Hne].
    + rewrite lookup_total_alter_lt by (rewrite (row_length T i Hs Hi); lia).
      destruct (decide (idx = idx')), (decide (Level i idx = Level i idx'));
        congruence.
    + rewrite decide_False by congruence. done.
Qed.

Lemma slot_nodes_clear T sl sl' :
  shaped T -> valid_slot sl ->
  slot_nodes (clear T sl) sl' = if decide (sl = sl') then [] else slot_nodes T sl'.
Proof.
  intros Hs Hv. pose proof Hs as [Hn Ht Hrows].
  destruct sl as [idx|i idx], sl' as [idx'|i' idx']; cbn in *.
  - rewrite Nat2Z.id, lookup_total_insert_lt by lia.
    destruct (decide (idx = idx')), (decide (Near idx = Near idx')); congruence.
  - by rewrite decide_False.
  - by rewrite decide_False.
  - destruct Hv as [Hi Hidx]. rewrite !Nat2Z.id, lookup_total_alter_lt by lia.
    destruct (decide (i = i')) as [<-|Hne].
    + rewrite lookup_total_insert_lt by (rewrite (row_length T i Hs Hi); lia).
      destruct (decide (idx = idx')), (decide (Level i idx = Level i idx'));
        congruence.
    + rewrite decide_False by congruence. done.
Qed.

(** Membership in the wheel. *)
Definition scheduled (T : timer) (node : timer_node) : Prop :=
  exists sl, valid_slot sl /\ node ∈ slot_nodes T sl.

(** *** The slot chosen by [add_node] *)

(** Two non-negative numbers agree once their low [k] bits are set iff
    they have the same quotient by [2^k]. *)
Lemma lor_ones_eq x y k :
  0 <= k ->
  Z.lor x (Z.ones k) = Z.lor y (Z.ones k) <-> Z.shiftr x k = Z.shiftr y k.
Proof.
  intros Hk. split; intros Heq; apply Z.bits_inj'; intros n Hn.
  - rewrite !Z.shiftr_spec by done.
    apply (f_equal (fun z => Z.testbit z (n + k))) in Heq.
    rewrite !Z.lor_spec, Z.ones_spec_high in Heq by lia.
    by rewrite !orb_false_r in Heq.
  - rewrite !Z.lor_spec. destruct (Z.lt_ge_cases n k) as [Hlt|Hge].
    + rewrite Z.ones_spec_low by lia. by rewrite !orb_true_r.
    + rewrite Z.ones_spec_high by lia. rewrite !orb_false_r.
      apply (f_equal (fun z => Z.testbit z (n - k))) in Heq.
      rewrite !Z.shiftr_spec in Heq by lia.
      by replace (n - k + k) with n in Heq by lia.
Qed.

Lemma lor_mask_eqb x y k :
  0 <= k ->
  (Z.lor x (2 ^ k - 1) =? Z.lor y (2 ^ k - 1)) = (x / 2 ^ k =? y / 2 ^ k).
Proof.
  intros Hk. rewrite <- !Z.shiftr_div_pow2 by done.
  replace (2 ^ k - 1) with (Z.ones k) by (rewrite Z.ones_equiv; lia).
  pose proof (lor_ones_eq x y k Hk) as Hiff.
  destruct (Z.eqb_spec (Z.lor x (Z.ones k)) (Z.lor y (Z.ones k))),
           (Z.eqb_spec (Z.shiftr x k) (Z.shiftr y k)); tauto.
Qed.

(** The slot for expiry [e] when the wheel stands at [c]: the near wheel
    when [e] and [c] agree above their low 8 bits, else the first cascade
    wheel above whose 6-bit window they agree, else the last wheel. *)
Definition place (c e : Z) : slot_id :=
  if e / 2 ^ 8 =? c / 2 ^ 8 then Near (Z.to_nat (e mod 2 ^ 8))
  else if e / 2 ^ 14 =? c / 2 ^ 14 then Level 0 (Z.to_nat ((e / 2 ^ 8) mod 2 ^ 6))
  else if e / 2 ^ 20 =? c / 2 ^ 20 then Level 1 (Z.to_nat ((e / 2 ^ 14) mod 2 ^ 6))
  else if e / 2 ^ 26 =? c / 2 ^ 26 then Level 2 (Z.to_nat ((e / 2 ^ 20) mod 2 ^ 6))
  else Level 3 (Z.to_nat ((e / 2 ^ 26) mod 2 ^ 6)).

Lemma add_node_level_unfold e c :
  add_node_level 3 0 (Z.shiftl TIME_NEAR TIME_LEVEL_SHIFT) e c
  = if Z.lor e (2 ^ 14 - 1) =? Z.lor c (2 ^ 14 - 1) then 0
    else if Z.lor e (2 ^ 20 - 1) =? Z.lor c (2 ^ 20 - 1) then 1
    else if Z.lor e (2 ^ 26 - 1) =? Z.lor c (2 ^ 26 - 1) then 2
    else 3.
Proof. reflexivity. Qed.

Lemma level_index e i :
  0 <= i ->
  Z.land (Z.shiftr e (TIME_NEAR_SHIFT + i * TIME_LEVEL_SHIFT)) TIME_LEVEL_MASK
  = (e / 2 ^ (8 + i * 6)) mod 2 ^ 6.
Proof.
  intros Hi. change TIME_LEVEL_MASK with (Z.ones 6).
  rewrite Z.land_ones by lia.
  unfold TIME_NEAR_SHIFT, TIME_LEVEL_SHIFT. by rewrite Z.shiftr_div_pow2 by lia.
Qed.

Lemma valid_place c e : valid_slot (place c e).
Proof.
  unfold place.
  pose proof (Z.mod_pos_bound e (2 ^ 8) eq_refl).
  pose proof (Z.mod_pos_bound (e / 2 ^ 8) (2 ^ 6) eq_refl).
  pose proof (Z.mod_pos_bound (e / 2 ^ 14) (2 ^ 6) eq_refl).
  pose proof (Z.mod_pos_bound (e / 2 ^ 20) (2 ^ 6) eq_refl).
  pose proof (Z.mod_pos_bound (e / 2 ^ 26) (2 ^ 6) eq_refl).
  repeat match goal with |- context [if ?b then _ else _] => destruct b end;
    cbn; lia.
Qed.

(** [add_node] links the node into the slot [place] names. *)
Lemma add_node_place T node :
  add_node T node = link T (place (time T) (expire node)) node.
Proof.
  unfold add_node, place. change TIME_NEAR_MASK with (2 ^ 8 - 1).
  rewrite lor_mask_eqb by lia.
  destruct (expire node / 2 ^ 8 =? time T / 2 ^ 8).
  - cbn [link]. change (2 ^ 8 - 1) with (Z.ones 8). rewrite Z.land_ones by lia.
    rewrite Z2Nat.id; [done|]. apply Z.mod_pos_bound. lia.
  - rewrite add_node_level_unfold, !lor_mask_eqb by lia.
    pose proof (Z.mod_pos_bound (expire node / 2 ^ 8) (2 ^ 6) eq_refl).
    pose proof (Z.mod_pos_bound (expire node / 2 ^ 14) (2 ^ 6) eq_refl).
    pose proof (Z.mod_pos_bound (expire node / 2 ^ 20) (2 ^ 6) eq_refl).
    pose proof (Z.mod_pos_bound (expire node / 2 ^ 26) (2 ^ 6) eq_refl).
    destruct (expire node / 2 ^ 14 =? time T / 2 ^ 14);
      [|destruct (expire node / 2 ^ 20 =? time T / 2 ^ 20);
        [|destruct (expire node / 2 ^ 26 =? time T / 2 ^ 26)]];
      rewrite level_index by lia; cbn [link]; rewrite Z2Nat.id by lia; done.
Qed.

(** *** Arithmetic of the wheel *)

(** The expiry [e] lies ahead of the wheel time [c]: later in the current
    turn of the 32-bit counter or, after a wrap, in an earlier window of
    the last wheel. *)
Definition ahead (c e : Z) : Prop := c < e \/ e / 2 ^ 26 < c / 2 ^ 26.

(** The slot [timer_shift] migrates when the counter reaches [c']. *)
Definition moved (c' : Z) : option slot_id :=
  if c' =? 0 then Some (Level 3 0)
  else if negb (c' mod 2 ^ 8 =? 0) then None
  else if negb ((c' / 2 ^ 8) mod 2 ^ 6 =? 0) then Some (Level 0 (Z.to_nat ((c' / 2 ^ 8) mod 2 ^ 6)))
  else if negb ((c' / 2 ^ 14) mod 2 ^ 6 =? 0) then Some (Level 1 (Z.to_nat ((c' / 2 ^ 14) mod 2 ^ 6)))
  else if negb ((c' / 2 ^ 20) mod 2 ^ 6 =? 0) then Some (Level 2 (Z.to_nat ((c' / 2 ^ 20) mod 2 ^ 6)))
  else Some (Level 3 (Z.to_nat ((c' / 2 ^ 26) mod 2 ^ 6))).

Ltac pows := change (2 ^ 8) with 256 in *; change (2 ^ 14) with 16384 in *;
  change (2 ^ 20) with 1048576 in *; change (2 ^ 26) with 67108864 in *;
  change (2 ^ 6) with 64 in *.

(** A tick written in the digits the wheels index by: 8 bits, then four
    times 6 bits. *)
Record tick := Tick { d0 : Z; d1 : Z; d2 : Z; d3 : Z; d4 : Z }.

Definition tick_value (x : tick) : Z :=
  d0 x + 256 * d1 x + 16384 * d2 x + 1048576 * d3 x + 67108864 * d4 x.

Record tick_wf (x : tick) : Prop := TickWf {
  wf0 : 0 <= d0 x < 256; wf1 : 0 <= d1 x < 64; wf2 : 0 <= d2 x < 64;
  wf3 : 0 <= d3 x < 64; wf4 : 0 <= d4 x < 64
}.

Definition to_tick (x : Z) : tick :=
  Tick (x mod 2 ^ 8) ((x / 2 ^ 8) mod 2 ^ 6) ((x / 2 ^ 14) mod 2 ^ 6)
       ((x / 2 ^ 20) mod 2 ^ 6) ((x / 2 ^ 26) mod 2 ^ 6).

Lemma to_tick_wf x : tick_wf (to_tick x).
Proof. constructor; cbn; apply Z.mod_pos_bound; lia. Qed.

Lemma to_tick_value x : in_u32 x -> tick_value (to_tick x) = x.
Proof.
  unfold in_u32, tick_value, to_tick. cbn. pows. intros Hx.
  Z.div_mod_to_equations. lia.
Qed.

(** Digits determine the tick. *)
Lemma to_tick_unique (x : tick) : tick_wf x -> to_tick (tick_value x) = x.
Proof.
  intros [? ? ? ? ?]. destruct x as [x0 x1 x2 x3 x4]. unfold to_tick, tick_value in *.
  cbn in *. pows. f_equal.
  - Z.div_mod_to_equations; lia.
  - Z.div_mod_to_equations; lia.
  - Z.div_mod_to_equations; lia.
  - Z.div_mod_to_equations; lia.
  - Z.div_mod_to_equations; lia.
Qed.

Lemma tick_quotients (x : tick) :
  tick_wf x ->
  tick_value x / 2 ^ 8 = d1 x + 64 * d2 x + 4096 * d3 x + 262144 * d4 x
  /\ tick_value x / 2 ^ 14 = d2 x + 64 * d3 x + 4096 * d4 x
  /\ tick_value x / 2 ^ 20 = d3 x + 64 * d4 x
  /\ tick_value x / 2 ^ 26 = d4 x.
Proof.
  intros [? ? ? ? ?]. unfold tick_value. pows.
  split_and!; symmetry.
  - apply (Z.div_unique _ _ _ (d0 x)); lia.
  - apply (Z.div_unique _ _ _ (d0 x + 256 * d1 x)); lia.
  - apply (Z.div_unique _ _ _ (d0 x + 256 * d1 x + 16384 * d2 x)); lia.
  - apply (Z.div_unique _ _ _ (d0 x + 256 * d1 x + 16384 * d2 x + 1048576 * d3 x)); lia.
Qed.

Definition place5 (c e : tick) : slot_id :=
  if (d1 e =? d1 c) && (d2 e =? d2 c) && (d3 e =? d3 c) && (d4 e =? d4 c)
  then Near (Z.to_nat (d0 e))
  else if (d2 e =? d2 c) && (d3 e =? d3 c) && (d4 e =? d4 c)
  then Level 0 (Z.to_nat (d1 e))
  else if (d3 e =? d3 c) && (d4 e =? d4 c) then Level 1 (Z.to_nat (d2 e))
  else if d4 e =? d4 c then Level 2 (Z.to_nat (d3 e))
  else Level 3 (Z.to_nat (d4 e)).

Ltac eqbs :=
  repeat match goal with
         | |- context [Z.eqb ?a ?b] => destruct (Z.eqb_spec a b)
         | |- context [Z.ltb ?a ?b] => destruct (Z.ltb_spec a b)
         end; cbn [andb negb orb].

Lemma place_ticks (c e : tick) :
  tick_wf c -> tick_wf e ->
  place (tick_value c) (tick_value e) = place5 c e.
Proof.
  intros Hc He. unfold place.
  destruct (tick_quotients c Hc) as (-> & -> & -> & ->).
  destruct (tick_quotients e He) as (-> & -> & -> & ->).
  pose proof (to_tick_unique e He) as Hu. unfold to_tick in Hu.
  destruct (tick_quotients e He) as (Hq8 & Hq14 & Hq20 & Hq26).
  rewrite Hq8, Hq14, Hq20, Hq26 in Hu.
  destruct e as [e0 e1 e2 e3 e4], c as [c0 c1 c2 c3 c4].
  cbn [d0 d1 d2 d3 d4] in *. injection Hu as H0 H1 H2 H3 H4.
  rewrite H0, H1, H2, H3, H4. unfold place5. cbn [d0 d1 d2 d3 d4].
  destruct Hc as [? ? ? ? ?], He as [? ? ? ? ?]. cbn [d0 d1 d2 d3 d4] in *.
  eqbs; try reflexivity; exfalso; lia.
Qed.

Definition succ5 (c : tick) : tick :=
  if d0 c <? 255 then Tick (d0 c + 1) (d1 c) (d2 c) (d3 c) (d4 c)
  else if d1 c <? 63 then Tick 0 (d1 c + 1) (d2 c) (d3 c) (d4 c)
  else if d2 c <? 63 then Tick 0 0 (d2 c + 1) (d3 c) (d4 c)
  else if d3 c <? 63 then Tick 0 0 0 (d3 c + 1) (d4 c)
  else if d4 c <? 63 then Tick 0 0 0 0 (d4 c + 1)
  else Tick 0 0 0 0 0.

Lemma succ5_wf c : tick_wf c -> tick_wf (succ5 c).
Proof.
  intros [? ? ? ? ?]. unfold succ5. eqbs; constructor; cbn; lia.
Qed.

Lemma succ5_value c :
  tick_wf c -> tick_value (succ5 c) = wrap_u32 (tick_value c + 1).
Proof.
  intros [? ? ? ? ?]. unfold succ5, wrap_u32, tick_value.
  eqbs; cbn [d0 d1 d2 d3 d4].
  1-5: rewrite Z.mod_small; lia.
  assert (d0 c = 255 /\ d1 c = 63 /\ d2 c = 63 /\ d3 c = 63 /\ d4 c = 63) as (-> & -> & -> & -> & ->) by lia.
  reflexivity.
Qed.

Definition moved5 (c' : tick) : option slot_id :=
  if (d0 c' =? 0) && (d1 c' =? 0) && (d2 c' =? 0) && (d3 c' =? 0) && (d4 c' =? 0)
  then Some (Level 3 0)
  else if negb (d0 c' =? 0) then None
  else if negb (d1 c' =? 0) then Some (Level 0 (Z.to_nat (d1 c')))
  else if negb (d2 c' =? 0) then Some (Level 1 (Z.to_nat (d2 c')))
  else if negb (d3 c' =? 0) then Some (Level 2 (Z.to_nat (d3 c')))
  else Some (Level 3 (Z.to_nat (d4 c'))).

Definition ahead5 (c e : tick) : Prop :=
  tick_value c < tick_value e \/ d4 e < d4 c.

Lemma place5_step c e :
  tick_wf c -> tick_wf e -> ahead5 c e ->
  place5 (succ5 c) e = place5 c e \/ moved5 (succ5 c) = Some (place5 c e).
Proof.
  intros [? ? ? ? ?] [? ? ? ? ?]. unfold ahead5, tick_value.
  destruct c as [c0 c1 c2 c3 c4], e as [e0 e1 e2 e3 e4]. cbn [d0 d1 d2 d3 d4] in *.
  intros Ha. unfold succ5. cbn [d0 d1 d2 d3 d4].
  destruct (Z.ltb_spec c0 255); [|destruct (Z.ltb_spec c1 63); [|destruct (Z.ltb_spec c2 63); [|destruct (Z.ltb_spec c3 63); [|destruct (Z.ltb_spec c4 63)]]]];
    unfold place5, moved5; cbn [d0 d1 d2 d3 d4]; eqbs;
    try (left; reflexivity); try (right; reflexivity);
    try (exfalso; lia);
    try (left; f_equal; f_equal; lia); try (right; f_equal; f_equal; f_equal; lia).
Qed.

Lemma moved_ticks (c : tick) :
  tick_wf c -> moved (tick_value c) = moved5 c.
Proof.
  intros Hc. unfold moved.
  destruct (tick_quotients c Hc) as (Hq8 & Hq14 & Hq20 & Hq26).
  pose proof (to_tick_unique c Hc) as Hu. unfold to_tick in Hu.
  rewrite Hq8, Hq14, Hq20, Hq26 in *.
  destruct c as [c0 c1 c2 c3 c4]. cbn [d0 d1 d2 d3 d4] in *.
  injection Hu as H0 H1 H2 H3 H4. rewrite H0, H1, H2, H3, H4.
  unfold moved5, tick_value. cbn [d0 d1 d2 d3 d4].
  destruct Hc as [? ? ? ? ?]. cbn [d0 d1 d2 d3 d4] in *.
  eqbs; try reflexivity; exfalso; lia.
Qed.

Lemma ahead_ticks (c e : tick) :
  tick_wf c -> tick_wf e ->
  ahead (tick_value c) (tick_value e) <-> ahead5 c e.
Proof.
  intros Hc He. unfold ahead, ahead5.
  destruct (tick_quotients c Hc) as (_ & _ & _ & ->).
  by destruct (tick_quotients e He) as (_ & _ & _ & ->).
Qed.

(** One tick later a node that lies ahead still belongs where it sits,
    unless it sits in the slot that this tick migrates. *)
Lemma place_step c e :
  in_u32 c -> in_u32 e -> ahead c e ->
  place (wrap_u32 (c + 1)) e = place c e
  \/ moved (wrap_u32 (c + 1)) = Some (place c e).
Proof.
  intros Hc He Ha.
  rewrite <- (to_tick_value c Hc), <- (to_tick_value e He) in *.
  pose proof (to_tick_wf c) as Hwc. pose proof (to_tick_wf e) as Hwe.
  rewrite <- succ5_value by done.
  rewrite moved_ticks, !place_ticks by auto using succ5_wf.
  apply place5_step; try done. by apply ahead_ticks.
Qed.

Lemma ahead_next c e :
  in_u32 c -> in_u32 e -> ahead c e -> e <> wrap_u32 (c + 1) ->
  ahead (wrap_u32 (c + 1)) e.
Proof.
  unfold in_u32, ahead, wrap_u32. intros Hc He Ha Hne.
  destruct (Z.eq_dec c 4294967295) as [->|Hmax].
  - change ((4294967295 + 1) mod 4294967296) with 0 in *. left. lia.
  - rewrite Z.mod_small in * by lia. destruct Ha as [Ha|Ha]; [left; lia|right].
    assert (c / 2 ^ 26 <= (c + 1) / 2 ^ 26) by (apply Z.div_le_mono; lia). lia.
Qed.

Lemma not_ahead_self c : ~ ahead c c.
Proof. unfold ahead. lia. Qed.

(** Only a node that is due sits in the near slot under the hand. *)
Lemma place_under_hand c e :
  place c e = Near (Z.to_nat (c mod 2 ^ 8)) <-> e = c.
Proof.
  unfold place. split.
  - pose proof (Z.mod_pos_bound e (2 ^ 8) eq_refl).
    pose proof (Z.mod_pos_bound c (2 ^ 8) eq_refl).
    destruct (Z.eqb_spec (e / 2 ^ 8) (c / 2 ^ 8)) as [Hq|Hq].
    + intros [= Hm]. apply Z2Nat.inj in Hm; [|lia..].
      rewrite (Z.div_mod e (2 ^ 8)), (Z.div_mod c (2 ^ 8)) by lia. congruence.
    + repeat match goal with |- context [if ?b then _ else _] => destruct b end;
        discriminate.
  - intros ->. by rewrite Z.eqb_refl.
Qed.

(** A timer set [d] ticks ahead, [d] a positive [int], lies ahead. *)
Lemma ahead_delay c d :
  in_u32 c -> 0 < d <= INT_MAX -> ahead c (wrap_u32 (d + c)).
Proof.
  unfold in_u32, INT_MAX, ahead, wrap_u32. intros Hc Hd.
  destruct (Z.lt_ge_cases (d + c) 4294967296) as [Hlt|Hge].
  - rewrite Z.mod_small by lia. left. lia.
  - right. replace ((d + c) mod 4294967296) with (d + c - 4294967296).
    + pows. Z.div_mod_to_equations. lia.
    + apply Z.mod_unique with 1; lia.
Qed.

(** *** Moving lists between slots *)

Lemma slot_nodes_set_time T c sl : slot_nodes (set_time T c) sl = slot_nodes T sl.
Proof. by destruct sl. Qed.

Lemma shaped_set_time T c : shaped T -> shaped (set_time T c).
Proof. by intros [? ? ?]. Qed.

Lemma move_list_level T i idx :
  move_list T (Z.of_nat i) (Z.of_nat idx)
  = fold_left add_node (slot_nodes T (Level i idx)) (clear T (Level i idx)).
Proof.
  unfold move_list, link_clear_level, slot_nodes, clear. cbn.
  by rewrite !Nat2Z.id.
Qed.

(** Re-inserting a list of nodes appends each to the slot [place] names. *)
Lemma fold_add_node nodes :
  forall T, shaped T ->
    shaped (fold_left add_node nodes T)
    /\ time (fold_left add_node nodes T) = time T
    /\ forall sl, valid_slot sl ->
         slot_nodes (fold_left add_node nodes T) sl
         = slot_nodes T sl
           ++ filter (fun n => place (time T) (expire n) = sl) nodes.
Proof.
  induction nodes as [|n nodes IH]; intros T Hs; cbn [fold_left].
  - split; [done|]. split; [done|]. intros sl _. by rewrite filter_nil, app_nil_r.
  - rewrite add_node_place.
    destruct (IH (link T (place (time T) (expire n)) n)) as (Hs' & Ht' & Hn');
      [by apply shaped_link|].
    rewrite time_link in Ht', Hn'.
    split; [done|]. split; [done|]. intros sl Hv.
    rewrite (Hn' sl Hv), slot_nodes_link by auto using valid_place.
    rewrite filter_cons. destruct (decide (place (time T) (expire n) = sl)).
    + subst sl. by rewrite <- app_assoc.
    + done.
Qed.

Lemma moved_level c' sl :
  moved c' = Some sl -> exists i idx, sl = Level i idx /\ valid_slot sl.
Proof.
  unfold moved.
  pose proof (Z.mod_pos_bound (c' / 2 ^ 8) (2 ^ 6) eq_refl).
  pose proof (Z.mod_pos_bound (c' / 2 ^ 14) (2 ^ 6) eq_refl).
  pose proof (Z.mod_pos_bound (c' / 2 ^ 20) (2 ^ 6) eq_refl).
  pose proof (Z.mod_pos_bound (c' / 2 ^ 26) (2 ^ 6) eq_refl).
  repeat match goal with |- context [if ?b then _ else _] => destruct b end;
    intros [= <-]; eexists _, _; (split; [reflexivity|cbn; lia]).
Qed.

(** [timer_shift] advances the counter and migrates the slot [moved]
    names, if any. *)
Lemma timer_shift_moved T :
  in_u32 (time T) ->
  let c' := wrap_u32 (time T + 1) in
  timer_shift T
  = match moved c' with
    | Some (Level i idx) => move_list (set_time T c') (Z.of_nat i) (Z.of_nat idx)
    | _ => set_time T c'
    end.
Proof.
  intros Hc c'. unfold timer_shift. fold c'.
  assert (Hc' : in_u32 c') by apply wrap_u32_range. clearbody c'.
  unfold moved. destruct (Z.eqb_spec c' 0) as [->|Hne]; [done|].
  unfold in_u32 in Hc'.
  cbn [timer_shift_loop].
  change (TIME_NEAR - 1) with (Z.ones 8).
  change (Z.shiftl TIME_NEAR TIME_LEVEL_SHIFT - 1) with (Z.ones 14).
  change (Z.shiftl (Z.shiftl TIME_NEAR TIME_LEVEL_SHIFT) TIME_LEVEL_SHIFT - 1)
    with (Z.ones 20).
  change (Z.shiftl (Z.shiftl (Z.shiftl TIME_NEAR TIME_LEVEL_SHIFT) TIME_LEVEL_SHIFT)
                   TIME_LEVEL_SHIFT - 1) with (Z.ones 26).
  change TIME_LEVEL_MASK with (Z.ones 6).
  unfold TIME_NEAR_SHIFT, TIME_LEVEL_SHIFT.
  rewrite !Z.shiftr_shiftr, !Z.land_ones, !Z.shiftr_div_pow2 by lia.
  change (8 + 6) with 14. change (14 + 6) with 20. change (20 + 6) with 26.
  pose proof (Z.mod_pos_bound (c' / 2 ^ 8) (2 ^ 6) eq_refl).
  pose proof (Z.mod_pos_bound (c' / 2 ^ 14) (2 ^ 6) eq_refl).
  pose proof (Z.mod_pos_bound (c' / 2 ^ 20) (2 ^ 6) eq_refl).
  pose proof (Z.mod_pos_bound (c' / 2 ^ 26) (2 ^ 6) eq_refl).
  destruct (Z.eqb_spec (c' mod 2 ^ 8) 0) as [ZH0|ZH0]; cbn [negb]; [|done].
  destruct (Z.eqb_spec ((c' / 2 ^ 8) mod 2 ^ 6) 0) as [ZH1|ZH1]; cbn [negb];
    [|by rewrite Z2Nat.id by lia].
  assert (H14 : c' mod 2 ^ 14 = 0) by (pows; Z.div_mod_to_equations; lia).
  rewrite H14. cbn [Z.eqb].
  destruct (Z.eqb_spec ((c' / 2 ^ 14) mod 2 ^ 6) 0) as [ZH2|ZH2]; cbn [negb];
    [|by rewrite Z2Nat.id by lia].
  assert (H20 : c' mod 2 ^ 20 = 0) by (pows; Z.div_mod_to_equations; lia).
  rewrite H20. cbn [Z.eqb].
  destruct (Z.eqb_spec ((c' / 2 ^ 20) mod 2 ^ 6) 0) as [ZH3|ZH3]; cbn [negb];
    [|by rewrite Z2Nat.id by lia].
  assert (H26 : c' mod 2 ^ 26 = 0) by (pows; Z.div_mod_to_equations; lia).
  rewrite H26. cbn [Z.eqb].
  destruct (Z.eqb_spec ((c' / 2 ^ 26) mod 2 ^ 6) 0) as [ZH4|ZH4]; cbn [negb];
    [|by rewrite Z2Nat.id by lia].
  exfalso. pows. Z.div_mod_to_equations. lia.
Qed.

(** *** Invariant of the wheel *)

(** Every node sits in the slot [place] names for the current time, and
    its expiry relates to the time by [P]: strictly ahead between
    updates, ahead or due right after the shift. *)
Record inv_with (P : Z -> Z -> Prop) (T : timer) : Prop := InvWith {
  inv_shaped : shaped T;
  inv_time : in_u32 (time T);
  inv_nodes : forall sl n,
      valid_slot sl -> n ∈ slot_nodes T sl ->
      in_u32 (expire n) /\ sl = place (time T) (expire n) /\ P (time T) (expire n)
}.

Definition inv : timer -> Prop := inv_with ahead.
Definition inv_due : timer -> Prop := inv_with (fun c e => ahead c e \/ e = c).

Lemma lookup_total_replicate {A} `{!Inhabited A} n (x : A) i :
  (i < n)%nat -> replicate n x !!! i = x.
Proof. intros Hi. by apply list_lookup_total_correct, lookup_replicate_2. Qed.

Lemma slot_nodes_create sl : valid_slot sl -> slot_nodes timer_create_timer sl = [].
Proof.
  destruct sl as [idx|i idx]; unfold slot_nodes, valid_slot.
  - intros Hi.
    change (near timer_create_timer)
      with (replicate (Z.to_nat TIME_NEAR) ([] : link_list)).
    by apply lookup_total_replicate.
  - intros [Hi Hidx].
    change (t timer_create_timer)
      with (replicate 4 (replicate (Z.to_nat TIME_LEVEL) ([] : link_list))).
    rewrite lookup_total_replicate by done. by apply lookup_total_replicate.
Qed.

Lemma inv_create : inv timer_create_timer.
Proof.
  constructor; [apply shaped_create|done|].
  intros sl n Hv Hn. rewrite slot_nodes_create in Hn by done.
  by apply elem_of_nil in Hn.
Qed.

Lemma scheduled_place P T n :
  inv_with P T -> scheduled T n ->
  n ∈ slot_nodes T (place (time T) (expire n)) /\ in_u32 (expire n)
  /\ P (time T) (expire n).
Proof.
  intros [_ _ Hn] (sl & Hv & Hin).
  destruct (Hn sl n Hv Hin) as (He & -> & HP). done.
Qed.

(** [timer_add] with a positive [int] delay. *)
Lemma inv_timer_add T ev d :
  inv T -> 0 < d <= INT_MAX ->
  inv (timer_add T ev d)
  /\ time (timer_add T ev d) = time T
  /\ forall n, scheduled (timer_add T ev d) n
               <-> n = TimerNode (wrap_u32 (d + time T)) ev \/ scheduled T n.
Proof.
  intros [Hs Hc Hn] Hd. unfold timer_add. rewrite add_node_place.
  cbn [expire]. set (node := TimerNode (wrap_u32 (d + time T)) ev).
  set (sl0 := place (time T) (wrap_u32 (d + time T))).
  assert (Hv0 : valid_slot sl0) by apply valid_place.
  split; [|split; [apply time_link|]].
  - constructor; [by apply shaped_link|by rewrite time_link|].
    intros sl n Hv. rewrite time_link, slot_nodes_link by done.
    destruct (decide (sl0 = sl)) as [<-|Hne]; [|by apply Hn].
    intros [Hin| ->%list_elem_of_singleton]%elem_of_app; [by apply Hn|].
    subst node. cbn [expire]. split; [apply wrap_u32_range|]. split; [done|].
    by apply ahead_delay.
  - intros n. split.
    + intros (sl & Hv & Hin). rewrite slot_nodes_link in Hin by done.
      destruct (decide (sl0 = sl)) as [<-|Hne].
      * apply elem_of_app in Hin as [Hin| ->%list_elem_of_singleton];
          [right; by exists sl0|by left].
      * right. by exists sl.
    + intros [->|(sl & Hv & Hin)].
      * exists sl0. split; [done|]. rewrite slot_nodes_link by done.
        rewrite decide_True by done. apply elem_of_app. right.
        by apply list_elem_of_singleton.
      * exists sl. split; [done|]. rewrite slot_nodes_link by done.
        destruct (decide (sl0 = sl)) as [<-|?]; [apply elem_of_app; by left|done].
Qed.

(** [timer_shift]: nothing is lost, and every node is again where it
    belongs, ahead of the new time or due at it. *)
Lemma inv_timer_shift T :
  inv T ->
  inv_due (timer_shift T)
  /\ time (timer_shift T) = wrap_u32 (time T + 1)
  /\ forall n, scheduled (timer_shift T) n <-> scheduled T n.
Proof.
  intros [Hs Hc Hn]. rewrite timer_shift_moved by done.
  set (c' := wrap_u32 (time T + 1)).
  assert (Hc' : in_u32 c') by apply wrap_u32_range.
  assert (Hkeep : forall sl n, valid_slot sl -> n ∈ slot_nodes T sl ->
            moved c' <> Some sl ->
            in_u32 (expire n) /\ sl = place c' (expire n)
            /\ (ahead c' (expire n) \/ expire n = c')).
  { intros sl n Hv Hin Hmv. destruct (Hn sl n Hv Hin) as (He & Hsl & Ha).
    split; [done|]. split.
    - destruct (place_step (time T) (expire n) Hc He Ha) as [Hp|Hp];
        fold c' in Hp; congruence.
    - destruct (Z.eq_dec (expire n) c'); [by right|left]. by apply ahead_next. }
  destruct (moved c') as [sl0|] eqn:Hmoved.
  - destruct (moved_level c' sl0 Hmoved) as (i & idx & -> & Hv0).
    rewrite move_list_level.
    set (T1 := set_time T c').
    assert (Hs1 : shaped (clear T1 (Level i idx)))
      by (apply shaped_clear, shaped_set_time; done).
    destruct (fold_add_node (slot_nodes T1 (Level i idx)) _ Hs1) as (Hs2 & Ht2 & Hn2).
    rewrite time_clear in Ht2, Hn2. cbn [time T1 set_time] in Ht2, Hn2.
    assert (Hslots : forall sl n, valid_slot sl ->
              n ∈ slot_nodes (fold_left add_node (slot_nodes T1 (Level i idx))
                                (clear T1 (Level i idx))) sl
              <-> (sl <> Level i idx /\ n ∈ slot_nodes T sl)
                  \/ (n ∈ slot_nodes T (Level i idx) /\ place c' (expire n) = sl)).
    { intros sl n Hv. rewrite (Hn2 sl Hv), elem_of_app, list_elem_of_filter.
      rewrite slot_nodes_clear by (try apply shaped_set_time; done).
      subst T1. rewrite !slot_nodes_set_time.
      destruct (decide (Level i idx = sl)) as [<-|Hne].
      - rewrite elem_of_nil. intuition congruence.
      - intuition congruence. }
    split; [|split; [done|]].
    + constructor; [done|by rewrite Ht2|]. rewrite Ht2.
      intros sl n Hv [[Hne Hin]|[Hin Hp]]%Hslots; [|clear Hslots|done].
      * apply Hkeep; [done..|congruence].
      * destruct (Hn _ n Hv0 Hin) as (He & _ & Ha). split; [done|]. split; [done|].
        destruct (Z.eq_dec (expire n) c'); [by right|left]. by apply ahead_next.
    + intros n. split.
      * intros (sl & Hv & [[Hne Hin]|[Hin Hp]]%Hslots); [|clear Hslots|done].
        -- by exists sl.
        -- by exists (Level i idx).
      * intros (sl & Hv & Hin). destruct (decide (sl = Level i idx)) as [->|Hne].
        -- exists (place c' (expire n)). split; [apply valid_place|].
           apply Hslots; [apply valid_place|]. by right.
        -- exists sl. split; [done|]. apply Hslots; [done|]. by left.
  - split; [|split; [done|]].
    + constructor; [by apply shaped_set_time|done|].
      intros sl n Hv. rewrite slot_nodes_set_time. intros Hin.
      by apply Hkeep.
    + intros n. unfold scheduled.
      by setoid_rewrite slot_nodes_set_time.
Qed.

(** *** Firing *)

Lemma hand_slot c : Z.land c TIME_NEAR_MASK = c mod 2 ^ 8.
Proof. change TIME_NEAR_MASK with (Z.ones 8). by rewrite Z.land_ones by lia. Qed.

Lemma timer_execute_slot T :
  let hand := Near (Z.to_nat (time T mod 2 ^ 8)) in
  timer_execute T
  = match slot_nodes T hand with
    | [] => (T, [])
    | _ :: _ => (clear T hand, slot_nodes T hand)
    end.
Proof.
  unfold timer_execute, link_clear_near. rewrite hand_slot. cbn.
  rewrite Z2Nat.id by (apply Z.mod_pos_bound; lia).
  by destruct (near T !!! Z.to_nat (time T mod 2 ^ 8)).
Qed.

(** Between updates nothing is due: [timer_execute] finds its slot empty. *)
Lemma timer_execute_idle T : inv T -> timer_execute T = (T, []).
Proof.
  intros [Hs Hc Hn]. rewrite timer_execute_slot. cbv zeta.
  destruct (slot_nodes T (Near (Z.to_nat (time T mod 2 ^ 8)))) as [|n l] eqn:Hsl;
    [done|].
  assert (Hv : valid_slot (Near (Z.to_nat (time T mod 2 ^ 8)))).
  { cbn. pose proof (Z.mod_pos_bound (time T) (2 ^ 8) eq_refl). lia. }
  destruct (Hn _ n Hv) as (_ & Hp & Ha); [rewrite Hsl; by left|].
  symmetry in Hp. apply place_under_hand in Hp. rewrite Hp in Ha.
  by destruct (not_ahead_self (time T)).
Qed.

(** After the shift, [timer_execute] fires exactly the nodes that are due. *)
Lemma timer_execute_due T :
  inv_due T ->
  let '(T', fired) := timer_execute T in
  inv T'
  /\ time T' = time T
  /\ (forall n, n ∈ fired <-> scheduled T n /\ expire n = time T)
  /\ (forall n, scheduled T' n <-> scheduled T n /\ expire n <> time T).
Proof.
  intros Hinv. pose proof Hinv as [Hs Hc Hn]. rewrite timer_execute_slot. cbv zeta.
  set (hand := Near (Z.to_nat (time T mod 2 ^ 8))).
  assert (Hv : valid_slot hand).
  { subst hand. cbn. pose proof (Z.mod_pos_bound (time T) (2 ^ 8) eq_refl). lia. }
  assert (Hhand : forall n, n ∈ slot_nodes T hand <-> scheduled T n /\ expire n = time T).
  { intros n. split.
    - intros Hin. split; [by exists hand|].
      destruct (Hn hand n Hv Hin) as (_ & Hp & _).
      symmetry in Hp. by apply place_under_hand in Hp.
    - intros [Hsch He]. destruct (scheduled_place _ T n Hinv Hsch) as (Hin & _).
      rewrite He in Hin. replace (place (time T) (time T)) with hand in Hin; [done|].
      symmetry. by apply place_under_hand. }
  destruct (slot_nodes T hand) as [|n0 l] eqn:Hsl.
  - assert (Hnone : forall n, scheduled T n -> expire n <> time T).
    { intros n Hsch He. assert (Hin : n ∈ []) by (by apply Hhand).
      by apply elem_of_nil in Hin. }
    split; [|split; [done|split]].
    + constructor; [done..|]. intros sl n Hvs Hin.
      destruct (Hn sl n Hvs Hin) as (He & Hp & [Ha|Hdue]); [done|].
      destruct (Hnone n); [by exists sl|done].
    + intros n. rewrite elem_of_nil. split; [done|]. intros [Hsch He].
      by destruct (Hnone n).
    + intros n. split; [|tauto]. intros Hsch. split; [done|by apply Hnone].
  - rewrite <- Hsl in Hhand |- *. clear Hsl.
    split; [|split; [apply time_clear|split; [done|]]].
    + constructor; [by apply shaped_clear|by rewrite time_clear|].
      intros sl n Hvs. rewrite time_clear, slot_nodes_clear by done.
      destruct (decide (hand = sl)) as [<-|Hne]; [by intros ?%elem_of_nil|].
      intros Hin. destruct (Hn sl n Hvs Hin) as (He & Hp & [Ha|Hdue]); [done|].
      destruct Hne. rewrite Hp, Hdue. symmetry. by apply place_under_hand.
    + intros n. split.
      * intros (sl & Hvs & Hin). rewrite slot_nodes_clear in Hin by done.
        destruct (decide (hand = sl)) as [<-|Hne]; [by apply elem_of_nil in Hin|].
        split; [by exists sl|]. intros He.
        destruct (Hn sl n Hvs Hin) as (_ & Hp & _).
        destruct Hne. rewrite Hp, He. symmetry. by apply place_under_hand.
      * intros [(sl & Hvs & Hin) Hne]. exists sl. split; [done|].
        rewrite slot_nodes_clear by done.
        destruct (decide (hand = sl)) as [<-|?]; [|done].
        destruct Hne. by apply Hhand.
Qed.

(** One update: the counter advances by one tick, exactly the nodes
    expiring at the new tick fire, and all others stay scheduled. *)
Lemma timer_update_fires T :
  inv T ->
  let '(T', fired) := timer_update T in
  inv T'
  /\ time T' = wrap_u32 (time T + 1)
  /\ (forall n, n ∈ fired <-> scheduled T n /\ expire n = time T')
  /\ (forall n, scheduled T' n <-> scheduled T n /\ expire n <> time T').
Proof.
  intros Hinv. unfold timer_update. rewrite (timer_execute_idle T Hinv).
  destruct (inv_timer_shift T Hinv) as (Hdue & Htime & Hsame).
  pose proof (timer_execute_due (timer_shift T) Hdue) as Hex.
  destruct (timer_execute (timer_shift T)) as [T' fired].
  destruct Hex as (Hinv' & Ht' & Hfired & Hrest).
  rewrite app_nil_l, Ht', Htime. split; [done|]. split; [done|].
  rewrite <- Htime. split; intros n.
  - by rewrite Hfired, Hsame.
  - by rewrite Hrest, Hsame.
Qed.

(** *** Runs of the wheel *)

(** What the threads do to the wheel, in the order the spin lock grants
    them the wheel: a service asks for a timeout, or the timer thread
    advances the wheel by one tick. *)
Inductive op :=
| OpTimeout (handle_ time_ session_ : Z)
| OpUpdate.

(** The delay of [skynet_timeout] is an [int]. *)
Definition valid_op (o : op) : Prop :=
  match o with
  | OpTimeout _ time_ _ => time_ <= INT_MAX
  | OpUpdate => True
  end.

(** The wheel after the operations, and for every [timer_update] among
    them, in order, the nodes it handed to [dispatch_list]. *)
Fixpoint run (T : timer) (ops : list op) : timer * list link_list :=
  match ops with
  | [] => (T, [])
  | OpTimeout handle_ time_ session_ :: ops =>
      run (skynet_timeout T handle_ time_ session_).1 ops
  | OpUpdate :: ops =>
      let '(T1, fired) := timer_update T in
      let '(T2, out) := run T1 ops in
      (T2, fired :: out)
  end.

Lemma inv_skynet_timeout T handle_ time_ session_ :
  inv T -> time_ <= INT_MAX ->
  let T' := (skynet_timeout T handle_ time_ session_).1 in
  inv T' /\ time T' = time T /\ forall n, scheduled T n -> scheduled T' n.
Proof.
  intros Hinv Hle. unfold skynet_timeout. destruct (Z.leb_spec time_ 0); cbn.
  - done.
  - destruct (inv_timer_add T (TimerEvent handle_ session_) time_ Hinv) as (? & ? & Hs);
      [lia|]. split_and!; [done..|]. intros n ?. apply Hs. by right.
Qed.

Lemma wrap_u32_add_distinct c d :
  1 < d < 2 ^ 32 -> wrap_u32 (c + d) <> wrap_u32 (c + 1).
Proof.
  unfold wrap_u32. change 4294967296 with (2 ^ 32). intros Hd Heq.
  assert (Hm : (c + d - (c + 1)) mod 2 ^ 32 = 0).
  { rewrite Zminus_mod, Heq, Z.sub_diag. done. }
  replace (c + d - (c + 1)) with (d - 1) in Hm by lia.
  rewrite Z.mod_small in Hm; lia.
Qed.

Lemma wrap_u32_add_succ c d :
  wrap_u32 (wrap_u32 (c + 1) + (d - 1)) = wrap_u32 (c + d).
Proof.
  unfold wrap_u32. rewrite Zplus_mod_idemp_l. f_equal. lia.
Qed.

(** A scheduled node whose expiry lies [d] ticks ahead fires at the
    [d]-th update from now, and at no other of the first [d]. *)
Lemma run_fires ops : forall T n d,
  inv T -> Forall valid_op ops ->
  scheduled T n -> expire n = wrap_u32 (time T + d) -> 0 < d < 2 ^ 32 ->
  let out := (run T ops).2 in
  (forall k f, out !! k = Some f -> n ∈ f -> d <= Z.of_nat k + 1)
  /\ (d <= Z.of_nat (length out) ->
      exists f, out !! Z.to_nat (d - 1) = Some f /\ n ∈ f)
  /\ (Z.of_nat (length out) < d -> scheduled (run T ops).1 n).
Proof.
  induction ops as [|o ops IH]; intros T n d Hinv Hops Hsch He Hd; cbn zeta.
  - cbn. split_and!; [done|lia|done].
  - apply Forall_cons in Hops as [Ho Hops]. destruct o as [h t_ s|].
    + cbn [run]. cbn in Ho.
      destruct (inv_skynet_timeout T h t_ s Hinv Ho) as (Hinv' & Ht & Hs').
      apply IH; [done..|by apply Hs'|by rewrite Ht|done].
    + cbn [run]. pose proof (timer_update_fires T Hinv) as Hup.
      destruct (timer_update T) as [T1 fired].
      destruct Hup as (Hinv1 & Ht1 & Hfired & Hrest).
      specialize (IH T1 n (d - 1) Hinv1 Hops).
      destruct (run T1 ops) as [T2 out]. cbn [fst snd] in *.
      destruct (decide (d = 1)) as [->|Hne].
      * assert (Hin : n ∈ fired) by (apply Hfired; split; congruence).
        split_and!.
        -- intros k f _ _. lia.
        -- intros _. exists fired. done.
        -- cbn [length]. lia.
      * assert (Hnot : expire n <> time T1).
        { rewrite He, Ht1. apply wrap_u32_add_distinct. lia. }
        destruct IH as (IH1 & IH2 & IH3).
        { apply Hrest. done. }
        { by rewrite Ht1, wrap_u32_add_succ. }
        { lia. }
        split_and!.
        -- intros [|k] f Hk Hin; cbn in Hk.
           ++ injection Hk as <-. apply Hfired in Hin as [_ ?]. done.
           ++ specialize (IH1 k f Hk Hin). lia.
        -- cbn [length]. intros Hlen.
           destruct IH2 as (f & Hf & Hin); [lia|]. exists f. split; [|done].
           replace (Z.to_nat (d - 1)) with (S (Z.to_nat (d - 1 - 1))) by lia.
           done.
        -- cbn [length]. intros Hlen. apply IH3. lia.
Qed.

(** C3. A timer registered with relative delay [d > 0] ticks never
    fires before its expiry tick: whatever timeouts and tick advances
    follow, no update earlier than the [d]-th one hands the node to
    [dispatch_list]. The [d]-th update does, and the push it makes is the
    timer's PTYPE_RESPONSE message (source 0, the timer's session, no
    data) to the timer's handle; so the message is pushed at tick
    [T + d]. While fewer than [d] updates have run the node is still in
    the wheel. *)
Theorem timer_never_early (T : timer) (ev : timer_event) (d : Z) (ops : list op) :
  inv T -> 0 < d <= INT_MAX -> Forall valid_op ops ->
  let node := TimerNode (wrap_u32 (d + time T)) ev in
  let out := (run (timer_add T ev d) ops).2 in
  (forall k f, out !! k = Some f -> node ∈ f -> d <= Z.of_nat k + 1)
  /\ (d <= Z.of_nat (length out) ->
      exists f, out !! Z.to_nat (d - 1) = Some f
                /\ node ∈ f
                /\ (handle ev,
                    Message 0 (session ev) PNull
                            (Z.shiftl PTYPE_RESPONSE MESSAGE_TYPE_SHIFT))
                   ∈ dispatch_list f)
  /\ (Z.of_nat (length out) < d ->
      scheduled (run (timer_add T ev d) ops).1 node).
Proof.
  intros Hinv Hd Hops node out.
  destruct (inv_timer_add T ev d Hinv Hd) as (Hinv' & Ht & Hs).
  destruct (run_fires ops (timer_add T ev d) node d) as (H1 & H2 & H3);
    [done|done|apply Hs; by left| |unfold INT_MAX in Hd; lia|].
  { rewrite Ht. cbn. f_equal. lia. }
  split_and!; [done| |done].
  intros Hlen. destruct (H2 Hlen) as (f & Hf & Hin). exists f.
  split_and!; [done..|].
  unfold dispatch_list. apply list_elem_of_fmap. by exists node.
Qed.

Lemma timer_never_early_witness :
  let T := timer_create_timer in
  let ev := TimerEvent 7 3 in
  let ops := [OpUpdate; OpTimeout 9 1 4; OpUpdate; OpUpdate] in
  let node := TimerNode (wrap_u32 (2 + time T)) ev in
  let out := (run (timer_add T ev 2) ops).2 in
  (forall k f, out !! k = Some f -> node ∈ f -> 2 <= Z.of_nat k + 1)
  /\ (2 <= Z.of_nat (length out) ->
      exists f, out !! Z.to_nat (2 - 1) = Some f
                /\ node ∈ f
                /\ (handle ev,
                    Message 0 (session ev) PNull
                            (Z.shiftl PTYPE_RESPONSE MESSAGE_TYPE_SHIFT))
                   ∈ dispatch_list f)
  /\ (Z.of_nat (length out) < 2 ->
      scheduled (run (timer_add T ev 2) ops).1 node).
Proof.
  apply (timer_never_early timer_create_timer (TimerEvent 7 3) 2
           [OpUpdate; OpTimeout 9 1 4; OpUpdate; OpUpdate]).
  - exact inv_create.
  - unfold INT_MAX. lia.
  - repeat constructor; cbn; unfold INT_MAX; lia.
Defined.

(** Every wheel reached from [timer_create_timer] satisfies [inv]. *)
Lemma inv_run ops : forall T,
  inv T -> Forall valid_op ops -> inv (run T ops).1.
Proof.
  induction ops as [|o ops IH]; intros T Hinv Hops; [done|].
  apply Forall_cons in Hops as [Ho Hops]. destruct o as [h t_ s|]; cbn [run].
  - apply IH; [|done]. by apply inv_skynet_timeout.
  - pose proof (timer_update_fires T Hinv) as Hup.
    destruct (timer_update T) as [T1 fired]. destruct Hup as (Hinv1 & _).
    specialize (IH T1 Hinv1 Hops). by destruct (run T1 ops).
Qed.

(** *** The wheel chosen for a delay *)

Lemma place_level0 c :
  in_u32 c ->
  (exists idx, place c (wrap_u32 (2 ^ 14 - 1 + c)) = Level 0 idx)
  <-> c mod 2 ^ 14 = 0.
Proof.
  unfold in_u32, place, wrap_u32. change 4294967296 with (2 ^ 32). intros Hc.
  set (e := (2 ^ 14 - 1 + c) mod 2 ^ 32).
  assert (He : 0 <= e < 2 ^ 32
               /\ (e = 2 ^ 14 - 1 + c \/ e = 2 ^ 14 - 1 + c - 2 ^ 32)).
  { subst e. pows. Z.div_mod_to_equations. lia. }
  clearbody e. split.
  - intros [idx Hp]. revert Hp.
    eqbs; intros Hp; try discriminate; pows; Z.div_mod_to_equations; lia.
  - intros Hm. eqbs; eauto; exfalso; pows; Z.div_mod_to_equations; lia.
Qed.

Lemma place_level1 c :
  in_u32 c ->
  (exists idx, place c (wrap_u32 (2 ^ 14 + c)) = Level 1 idx)
  <-> c mod 2 ^ 20 < 2 ^ 20 - 2 ^ 14.
Proof.
  unfold in_u32, place, wrap_u32. change 4294967296 with (2 ^ 32). intros Hc.
  set (e := (2 ^ 14 + c) mod 2 ^ 32).
  assert (He : 0 <= e < 2 ^ 32 /\ (e = 2 ^ 14 + c \/ e = 2 ^ 14 + c - 2 ^ 32)).
  { subst e. pows. Z.div_mod_to_equations. lia. }
  clearbody e. split.
  - intros [idx Hp]. revert Hp.
    eqbs; intros Hp; try discriminate; pows; Z.div_mod_to_equations; lia.
  - intros Hm. eqbs; eauto; exfalso; pows; Z.div_mod_to_equations; lia.
Qed.

(** The delays a wheel can hold under the rule "near wheel below 256
    ticks, else the first level [L] with [d < 2^(8+6L)]"; [t[i]] is
    cascade level [i+1]. *)
Definition wheel_bound (sl : slot_id) : Z :=
  match sl with
  | Near _ => 2 ^ 8
  | Level i _ => 2 ^ (8 + 6 * (Z.of_nat i + 1))
  end.

(** The wheel [add_node] picks is never lower than the one read off the
    delay alone. *)
Lemma place_bound c d :
  in_u32 c -> 0 < d <= INT_MAX ->
  d < wheel_bound (place c (wrap_u32 (d + c))).
Proof.
  unfold in_u32, INT_MAX, place, wrap_u32. change 4294967296 with (2 ^ 32).
  intros Hc Hd.
  set (e := (d + c) mod 2 ^ 32).
  assert (He : 0 <= e < 2 ^ 32 /\ (e = d + c \/ e = d + c - 2 ^ 32)).
  { subst e. Z.div_mod_to_equations. lia. }
  clearbody e.
  eqbs; cbn [wheel_bound].
  - pows. Z.div_mod_to_equations. lia.
  - change (2 ^ (8 + 6 * (Z.of_nat 0 + 1))) with 16384.
    pows. Z.div_mod_to_equations. lia.
  - change (2 ^ (8 + 6 * (Z.of_nat 1 + 1))) with 1048576.
    pows. Z.div_mod_to_equations. lia.
  - change (2 ^ (8 + 6 * (Z.of_nat 2 + 1))) with 67108864.
    pows. Z.div_mod_to_equations. lia.
  - change (2 ^ (8 + 6 * (Z.of_nat 3 + 1))) with 4294967296. lia.
Qed.

(** C4, amended. [add_node] chooses the wheel by comparing the bits of
    the expiry tick with those of the base tick, not by the size of the
    delay: the node is appended to the slot [place] names, which is the
    near wheel when the two ticks agree above their low 8 bits and
    otherwise the first cascade level [L] above whose low [8+6L] bits
    they agree. That wheel is never lower than the one the delay alone
    would give. A delay of [2^14 - 1] lands in cascade level 1 exactly
    when the base tick is a multiple of [2^14], and a delay of [2^14]
    lands in cascade level 2 exactly when the base tick is more than
    [2^14] ticks before the next multiple of [2^20]. *)
Theorem add_node_cascade (T : timer) (ev : timer_event) :
  shaped T -> in_u32 (time T) ->
  (forall d sl,
      let node := TimerNode (wrap_u32 (d + time T)) ev in
      slot_nodes (timer_add T ev d) sl
      = if decide (place (time T) (expire node) = sl)
        then slot_nodes T sl ++ [node] else slot_nodes T sl)
  /\ (forall d, 0 < d <= INT_MAX ->
                d < wheel_bound (place (time T) (wrap_u32 (d + time T))))
  /\ ((exists idx, place (time T) (wrap_u32 (2 ^ 14 - 1 + time T)) = Level 0 idx)
      <-> time T mod 2 ^ 14 = 0)
  /\ ((exists idx, place (time T) (wrap_u32 (2 ^ 14 + time T)) = Level 1 idx)
      <-> time T mod 2 ^ 20 < 2 ^ 20 - 2 ^ 14).
Proof.
  intros Hs Hc. split_and!.
  - intros d sl node. unfold timer_add. fold node. rewrite add_node_place.
    rewrite slot_nodes_link by (done || apply valid_place).
    by destruct (decide _) as [<-|?].
  - intros d Hd. by apply place_bound.
  - by apply place_level0.
  - by apply place_level1.
Qed.

Lemma add_node_cascade_witness :
  (exists idx, place (time timer_create_timer)
                     (wrap_u32 (2 ^ 14 - 1 + time timer_create_timer)) = Level 0 idx)
  /\ (exists idx, place (time timer_create_timer)
                        (wrap_u32 (2 ^ 14 + time timer_create_timer)) = Level 1 idx).
Proof.
  destruct (add_node_cascade timer_create_timer (TimerEvent 7 3))
    as (_ & _ & H1 & H2).
  - apply shaped_create.
  - unfold in_u32. cbn. lia.
  - split; [apply H1|apply H2]; reflexivity.
Defined.

(** C4 does not hold as specified: one tick after start-up a delay of
    [2^14 - 1] is put in cascade
    level 2, [t[1]], and a delay of 255 in cascade level 1, [t[0]]. *)
Lemma cascade_level_depends_on_base :
  let T := (timer_update timer_create_timer).1 in
  let ev := TimerEvent 7 3 in
  time T = 1
  /\ slot_nodes (timer_add T ev (2 ^ 14 - 1)) (Level 1 1) = [TimerNode (2 ^ 14) ev]
  /\ slot_nodes (timer_add T ev 255) (Level 0 1) = [TimerNode 256 ev].
Proof. vm_compute. done. Qed.

End Timer.

(** * Further properties *)

(** ** skynet_mq.c: popping, draining and the overload mark *)
Module MqFacts.
Import Mq.

(** [fold] of [skynet_mq_push] over a list of messages, oldest first. *)
Definition push_list (q : message_queue) (ms : list skynet_message) : message_queue :=
  fold_left (fun acc m => (skynet_mq_push acc m).1) ms q.

(** The loop [while (!skynet_mq_pop(q, &msg)) { ... }] of
    [_drop_queue] and [skynet_context_dispatchall], collecting the
    messages popped; [None] when the rounds allowed do not suffice. *)
Fixpoint pop_all (fuel : nat) (q : message_queue)
  : option (message_queue * list skynet_message) :=
  match skynet_mq_pop q with
  | (q1, None) => Some (q1, [])
  | (q1, Some m) =>
      match fuel with
      | O => None
      | S f =>
          match pop_all f q1 with
          | Some (q2, ms) => Some (q2, m :: ms)
          | None => None
          end
      end
  end.

Lemma pop_empty q :
  wf q -> skynet_mq_length q = 0 ->
  skynet_mq_pop q
  = (MessageQueue (handle q) (cap q) (head q) (tail q) (release q) 0
                  (overload q) MQ_OVERLOAD (queue q), None).
Proof.
  intros [? ? ? ? ?] Hlen. unfold skynet_mq_pop, skynet_mq_length in *.
  destruct (Z.leb_spec (head q) (tail q)); [|lia].
  destruct (Z.eqb_spec (head q) (tail q)); [done|lia].
Qed.

Lemma messages_empty q : skynet_mq_length q = 0 -> messages q = [].
Proof. intros Hl. unfold messages. by rewrite Hl. Qed.

Lemma pop_cases (q : message_queue) :
  wf q ->
  let q1 := (skynet_mq_pop q).1 in
  let r := (skynet_mq_pop q).2 in
  wf q1 /\ handle q1 = handle q /\ cap q1 = cap q
  /\ (r = None <-> messages q = [])
  /\ (r = None ->
      messages q1 = [] /\ in_global q1 = 0 /\ overload_threshold q1 = MQ_OVERLOAD)
  /\ (forall m, r = Some m ->
        messages q = m :: messages q1 /\ in_global q1 = in_global q).
Proof.
  intros Hwf. pose proof (skynet_mq_length_range q Hwf) as Hr.
  pose proof (length_messages q) as Hlm.
  destruct (decide (skynet_mq_length q = 0)) as [H0|Hpos].
  - rewrite (pop_empty q Hwf H0). cbn [fst snd].
    pose proof (messages_empty q H0) as He.
    assert (Hm1 : messages (MessageQueue (handle q) (cap q) (head q) (tail q)
                    (release q) 0 (overload q) MQ_OVERLOAD (queue q)) = []).
    { apply messages_empty. exact H0. }
    destruct Hwf as [? ? ? ? ?].
    split_and!; try done.
  - destruct (pop_nonempty q Hwf) as (q1 & m & Hpop & Hms & Hwf1 & Hlen1 & Hh);
      [lia|].
    assert (Hcap : cap (skynet_mq_pop q).1 = cap q
                   /\ in_global (skynet_mq_pop q).1 = in_global q).
    { unfold skynet_mq_pop in *.
      destruct (negb (head q =? tail q)); [|done].
      by destruct (overload_loop 32 _ (overload q) (overload_threshold q)). }
    rewrite Hpop in *. cbn [fst snd] in *. destruct Hcap as [Hc Hg].
    split_and!; try done.
    + split; [done|]. rewrite Hms. done.
    + intros m' [= <-]. done.
Qed.



(** *** Push, then drain *)

(** The capacity never exceeds twice the number of queued messages,
    once it has left its initial 64. *)
Definition snug (q : message_queue) : Prop :=
  wf q /\ cap q <= Z.max 64 (2 * skynet_mq_length q).

Lemma length_push q m :
  wf q -> cap q * 2 <= INT_MAX ->
  skynet_mq_length (skynet_mq_push q m).1 = skynet_mq_length q + 1.
Proof.
  intros Hwf Hcap.
  pose proof (push_messages q m Hwf Hcap) as Hm.
  pose proof (push_wf q m Hwf Hcap) as Hwf'.
  apply (f_equal length) in Hm. rewrite length_app, !length_messages in Hm.
  pose proof (skynet_mq_length_range q Hwf).
  pose proof (skynet_mq_length_range _ Hwf'). simpl in Hm. lia.
Qed.

Lemma snug_push q m :
  snug q -> skynet_mq_length q < 2 ^ 29 ->
  snug (skynet_mq_push q m).1
  /\ messages (skynet_mq_push q m).1 = messages q ++ [m].
Proof.
  intros [Hwf Hsn] Hlen. change (2 ^ 29) with 536870912 in Hlen.
  assert (Hcap : cap q * 2 <= INT_MAX) by (unfold INT_MAX; lia).
  pose proof (length_push q m Hwf Hcap) as Hl.
  split; [|by apply push_messages]. split; [by apply push_wf|].
  destruct (decide ((tail q + 1) mod cap q = head q)) as [Hfull|Hnot].
  - destruct (push_doubles_cap q m Hwf Hfull) as (Hc & _).
    rewrite Hc, Hl, wrap_int_id
      by (unfold in_int, INT_MIN, INT_MAX in *; destruct Hwf; lia).
    pose proof (length_when_full q Hwf Hfull). lia.
  - destruct (push_keeps_cap q m Hwf Hnot) as (Hc & _). rewrite Hc, Hl. lia.
Qed.

Lemma snug_push_list ms : forall q,
  snug q -> skynet_mq_length q + Z.of_nat (length ms) <= 2 ^ 29 ->
  snug (push_list q ms) /\ messages (push_list q ms) = messages q ++ ms.
Proof.
  change (2 ^ 29) with 536870912.
  induction ms as [|m ms IH]; intros q Hq Hlen; cbn [push_list fold_left].
  - by rewrite app_nil_r.
  - cbn [length] in Hlen.
    destruct (snug_push q m Hq) as [Hq1 Hm1]; [change (2 ^ 29) with 536870912; lia|].
    destruct (IH (skynet_mq_push q m).1 Hq1) as [Hq2 Hm2].
    + rewrite length_push; [lia|apply Hq|]. destruct Hq as [? ?].
      unfold INT_MAX. lia.
    + split; [done|]. unfold push_list in Hm2. rewrite Hm2, Hm1.
      by rewrite <- app_assoc.
Qed.

Lemma pop_all_messages fuel : forall q,
  wf q -> (length (messages q) <= fuel)%nat ->
  exists q', pop_all fuel q = Some (q', messages q)
             /\ wf q' /\ messages q' = [] /\ in_global q' = 0.
Proof.
  induction fuel as [|fuel IH]; intros q Hwf Hfuel.
  - destruct (messages q) eqn:Hm; [|simpl in Hfuel; lia].
    destruct (pop_cases q Hwf) as (Hwf1 & _ & _ & Hnone & Hempty & _).
    assert (Hr : (skynet_mq_pop q).2 = None) by (by apply Hnone).
    destruct (Hempty Hr) as (? & ? & _).
    cbn [pop_all]. destruct (skynet_mq_pop q) as [q1 r]. cbn [fst snd] in *.
    subst r. by exists q1.
  - destruct (pop_cases q Hwf) as (Hwf1 & _ & _ & Hnone & Hempty & Hsome).
    cbn [pop_all]. destruct (skynet_mq_pop q) as [q1 [m|]] eqn:Hpop; cbn [fst snd] in *.
    + destruct (Hsome m eq_refl) as [Hms _].
      destruct (IH q1 Hwf1) as (q' & -> & ? & ? & ?).
      { rewrite Hms in Hfuel. simpl in Hfuel. lia. }
      exists q'. by rewrite Hms.
    + destruct (Hempty eq_refl) as (? & ? & _).
      exists q1. replace (messages q) with ([] : list skynet_message); [done|].
      symmetry. by apply Hnone.
Qed.

Lemma pop_all_cap fuel : forall q q' ms,
  pop_all fuel q = Some (q', ms) -> cap q' = cap q.
Proof.
  induction fuel as [|fuel IH]; intros q q' ms; cbn [pop_all].
  - unfold skynet_mq_pop. destruct (negb (head q =? tail q)).
    + by destruct (overload_loop 32 _ _ _).
    + by intros [= <- _].
  - unfold skynet_mq_pop at 1. destruct (negb (head q =? tail q)).
    + destruct (overload_loop 32 _ (overload q) (overload_threshold q)) as [o th].
      set (q1 := MessageQueue _ _ _ _ _ _ _ _ _).
      destruct (pop_all fuel q1) as [[q2 ms2]|] eqn:Hrec; [|done].
      intros [= <- _]. apply (IH _ _ _ Hrec).
    + by intros [= <- _].
Qed.

(** X2. Messages pushed on a fresh mailbox come out again in the order
    they went in, however often the ring had to grow in between: popping
    until the mailbox reports empty returns exactly the pushed list, and
    leaves the mailbox empty and off the global run queue. *)
Theorem push_then_drain (h : Z) (ms : list skynet_message) :
  Z.of_nat (length ms) <= 2 ^ 29 ->
  let q := push_list (skynet_mq_create h) ms in
  messages q = ms
  /\ skynet_mq_length q = Z.of_nat (length ms)
  /\ exists q', pop_all (length ms) q = Some (q', ms)
                /\ messages q' = [] /\ in_global q' = 0 /\ cap q' = cap q.
Proof.
  intros Hlen q.
  assert (Hfresh : snug (skynet_mq_create h)).
  { split; [apply fresh_mailbox_wf|]. apply Z.le_max_l. }
  destruct (snug_push_list ms (skynet_mq_create h) Hfresh) as [[Hwf _] Hms].
  { change (skynet_mq_length (skynet_mq_create h)) with 0. lia. }
  change (messages (skynet_mq_create h)) with ([] : list skynet_message) in Hms.
  rewrite app_nil_l in Hms. fold q in Hwf, Hms.
  assert (Hl : skynet_mq_length q = Z.of_nat (length ms)).
  { pose proof (length_messages q) as Hl. rewrite Hms in Hl.
    pose proof (skynet_mq_length_range q Hwf). lia. }
  split; [done|]. split; [done|].
  destruct (pop_all_messages (length ms) q Hwf) as (q' & Hpop & _ & He & Hg).
  { by rewrite Hms. }
  exists q'. rewrite Hms in Hpop. split_and!; try done.
  by apply (pop_all_cap _ _ _ _ Hpop).
Qed.

Lemma push_then_drain_witness :
  let ms := [Message 1 1 PNull 0; Message 2 2 PNull 0] in
  let q := push_list (skynet_mq_create 7) ms in
  messages q = ms
  /\ skynet_mq_length q = Z.of_nat (length ms)
  /\ exists q', pop_all (length ms) q = Some (q', ms)
                /\ messages q' = [] /\ in_global q' = 0 /\ cap q' = cap q.
Proof.
  apply (push_then_drain 7 [Message 1 1 PNull 0; Message 2 2 PNull 0]).
  simpl. lia.
Defined.

(** *** The overload mark *)

(** [th * 2 ^ k] for the least [k] that brings it to [len] or above. *)
Lemma overload_loop_doubles fuel : forall len o th,
  0 < th -> len <= 2 ^ 30 -> len <= th * 2 ^ Z.of_nat fuel ->
  let '(o', th') := overload_loop fuel len o th in
  len <= th'
  /\ (len <= th -> o' = o /\ th' = th)
  /\ (th < len -> o' = len /\ th' < 2 * len)
  /\ exists k, 0 <= k /\ th' = th * 2 ^ k.
Proof.
  change (2 ^ 30) with 1073741824.
  induction fuel as [|fuel IH]; intros len o th Hth Hlen Hfuel; cbn [overload_loop].
  - change (2 ^ Z.of_nat 0) with 1 in Hfuel.
    split_and!; [lia|done|lia|]. exists 0. lia.
  - destruct (Z.ltb_spec th len) as [Hlt|Hge].
    + rewrite wrap_int_id by (unfold in_int, INT_MIN, INT_MAX; lia).
      specialize (IH len len (th * 2)).
      destruct (overload_loop fuel len len (th * 2)) as [o' th'].
      destruct IH as (H1 & H2 & H3 & k & Hk & Hk'); [lia|lia| |].
      { rewrite Nat2Z.inj_succ, Z.pow_succ_r in Hfuel by lia. lia. }
      split_and!; [done|lia| |].
      * intros _. destruct (Z.le_gt_cases len (th * 2)) as [Hle|Hgt].
        -- destruct (H2 Hle) as [-> ->]. lia.
        -- destruct (H3 Hgt) as [-> ?]. lia.
      * exists (k + 1). split; [lia|]. rewrite Z.pow_add_r, Hk' by lia. lia.
    + split_and!; [done|done|lia|]. exists 0. lia.
Qed.

Lemma pop_overload_fields q :
  wf q -> 1 <= skynet_mq_length q ->
  let q1 := (skynet_mq_pop q).1 in
  overload_loop 32 (skynet_mq_length q1) (overload q) (overload_threshold q)
  = (overload q1, overload_threshold q1).
Proof.
  intros Hwf Hlen. unfold skynet_mq_pop.
  destruct (Z.eqb_spec (head q) (tail q)) as [Heq|Hne]; cbn [negb].
  { unfold skynet_mq_length in Hlen. destruct (Z.leb_spec (head q) (tail q)); lia. }
  set (head2 := if cap q <=? wrap_int (head q + 1) then 0 else wrap_int (head q + 1)).
  set (len := if tail q - head2 <? 0 then tail q - head2 + cap q else tail q - head2).
  destruct (overload_loop 32 len (overload q) (overload_threshold q)) as [o th] eqn:Hloop.
  cbn [fst overload overload_threshold]. rewrite <- Hloop. f_equal.
  unfold skynet_mq_length. cbn [head tail cap]. subst len.
  destruct (Z.leb_spec head2 (tail q)), (Z.ltb_spec (tail q - head2) 0); lia.
Qed.

(** X3. When a pop leaves more messages queued than the overload
    threshold, [skynet_mq_pop] records that length in [overload] and
    doubles the threshold until it covers the length; otherwise both are
    left alone. [skynet_mq_overload] then reports the recorded length
    once: it returns it and clears it, so that the next call returns 0. *)
Theorem pop_marks_overload (q : message_queue) :
  wf q -> 1 <= skynet_mq_length q -> 0 < overload_threshold q -> cap q <= 2 ^ 30 ->
  let q1 := (skynet_mq_pop q).1 in
  let left := skynet_mq_length q - 1 in
  skynet_mq_length q1 = left
  /\ left <= overload_threshold q1
  /\ (left <= overload_threshold q ->
      overload q1 = overload q /\ overload_threshold q1 = overload_threshold q)
  /\ (overload_threshold q < left ->
      overload q1 = left
      /\ overload_threshold q1 < 2 * left
      /\ (exists k, 0 <= k /\ overload_threshold q1 = overload_threshold q * 2 ^ k)
      /\ (skynet_mq_overload q1).2 = left
      /\ (skynet_mq_overload (skynet_mq_overload q1).1).2 = 0).
Proof.
  intros Hwf Hlen Hth Hcap q1 left.
  destruct (pop_nonempty q Hwf Hlen) as (q1' & m & Hpop & _ & Hwf1 & Hlen1 & _).
  pose proof (skynet_mq_length_range q Hwf) as Hr.
  assert (Hq1 : q1 = q1') by (subst q1; by rewrite Hpop). subst q1'.
  pose proof (pop_overload_fields q Hwf Hlen) as Hloop. cbv zeta in Hloop.
  fold q1 in Hloop. rewrite Hlen1 in Hloop. fold left in Hloop.
  pose proof (overload_loop_doubles 32 left (overload q) (overload_threshold q) Hth) as Hd.
  rewrite Hloop in Hd.
  destruct Hd as (H1 & H2 & H3 & Hk).
  { subst left. lia. }
  { subst left. change (2 ^ Z.of_nat 32) with 4294967296.
    change (2 ^ 30) with 1073741824 in Hcap. lia. }
  split_and!; [done|done|done|].
  intros Hgt. destruct (H3 Hgt) as [Ho Hlt].
  split_and!; [done|done|done| |].
  - unfold skynet_mq_overload. rewrite Ho.
    destruct (Z.eqb_spec left 0); [subst left; lia|done].
  - unfold skynet_mq_overload. rewrite Ho.
    destruct (Z.eqb_spec left 0); [subst left; lia|]. done.
Qed.

(** A mailbox with 1026 queued messages and the initial threshold. *)
Lemma pop_marks_overload_witness :
  let q := MessageQueue 1 2048 0 1026 0 1 0 MQ_OVERLOAD
             (replicate 2048 uninit_message) in
  let q1 := (skynet_mq_pop q).1 in
  overload q1 = 1025 /\ overload_threshold q1 = 2048
  /\ (skynet_mq_overload q1).2 = 1025.
Proof.
  intros q q1.
  assert (Hwf : wf q).
  { constructor; cbn [q cap head tail queue]; unfold INT_MAX; try lia.
    apply length_replicate. }
  destruct (pop_marks_overload q Hwf) as (_ & _ & _ & Hover).
  - vm_compute. discriminate.
  - reflexivity.
  - vm_compute. discriminate.
  - destruct Hover as (Ho & _ & _ & Hrep & _); [vm_compute; reflexivity|].
    split; [exact Ho|]. split; [vm_compute; reflexivity|exact Hrep].
Defined.

End MqFacts.

(** ** skynet_handle.c: lookups and retiring *)
Module Registry.
Import Handle.

(** X8. On a well-formed name table [skynet_handle_findname] returns
    the handle stored with the name when an entry bears it, and 0 when
    none does. *)
Theorem findname_by_name (s : handle_storage) (nm : string) :
  names_wf s -> cstring nm ->
  (forall x, x ∈ names s -> name x = nm -> skynet_handle_findname s nm = nhandle x)
  /\ (~ bound s nm -> skynet_handle_findname s nm = 0).
Proof.
  intros Hwf Hnm. split.
  - intros x Hx Hname. by apply findname_bound.
  - by apply findname_unbound.
Qed.

Lemma findname_by_name_witness :
  (forall x, x ∈ names two_names -> name x = "omega"%string ->
             skynet_handle_findname two_names "omega" = nhandle x)
  /\ (~ bound two_names "omega" -> skynet_handle_findname two_names "omega" = 0).
Proof.
  apply (findname_by_name two_names "omega").
  - exact two_names_wf.
  - cbn. repeat split; discriminate.
Defined.

(** *** Retiring a handle *)

Lemma sorted_filter {A} (R : A -> A -> Prop) (P : A -> Prop)
    `{!forall x, Decision (P x)} (l : list A) :
  StronglySorted R l -> StronglySorted R (filter P l).
Proof.
  induction 1 as [|x l Hs IH Hall]; [constructor|].
  rewrite filter_cons. destruct (decide (P x)); [|done].
  constructor; [done|]. apply Forall_forall. intros y [_ Hy]%list_elem_of_filter.
  by eapply Forall_forall in Hall.
Qed.

Lemma retire_names_wf ctxs s handle :
  names_wf s -> names_wf (skynet_handle_retire ctxs s handle).1.
Proof.
  intros [Hsorted Hcs Hcap Hcount]. unfold skynet_handle_retire.
  destruct (skynet_handle_grab ctxs s handle); [|done]. cbn [fst].
  constructor; cbn [names name_cap].
  - by apply sorted_filter.
  - intros a [_ Ha]%list_elem_of_filter. by apply Hcs.
  - done.
  - unfold name_count in *. cbn [names].
    pose proof (length_filter (fun n => nhandle n <> handle) (names s)). lia.
Qed.

Lemma bound_or_not s nm :
  names_wf s -> cstring nm -> bound s nm \/ ~ bound s nm.
Proof.
  intros Hwf Hnm. pose proof (search_names_spec s nm Hwf Hnm) as Hs.
  destruct (search_names s nm) as [[mid|p]|]; [| |done].
  - destruct Hs as (x & Hx & Hname & _). left. exists x. split; [|done].
    by eapply list_elem_of_lookup_2.
  - destruct Hs as [_ Hs]. right. by eapply splits_unbound.
Qed.

(** X9. [skynet_handle_retire] returns 1 exactly when the handle is
    registered. It then empties the handle's slot, so that the handle
    can no longer be grabbed, and removes every name bound to it: such
    names resolve to 0 afterwards, while all other names and all other
    handles resolve as before. When the handle is not registered
    nothing changes. *)
Theorem retire_unbinds (ctxs : gmap nat skynet_context) (s : handle_storage)
    (handle : Z) :
  names_wf s ->
  let s' := (skynet_handle_retire ctxs s handle).1 in
  let ret := (skynet_handle_retire ctxs s handle).2 in
  (ret = 1 <-> exists p, skynet_handle_grab ctxs s handle = Some p)
  /\ (ret = 0 <-> skynet_handle_grab ctxs s handle = None)
  /\ (ret = 0 -> s' = s)
  /\ skynet_handle_grab ctxs s' handle = None
  /\ (forall h, h <> handle ->
        skynet_handle_grab ctxs s' h = skynet_handle_grab ctxs s h)
  /\ names_wf s'
  /\ (ret = 1 ->
      forall nm, cstring nm ->
        skynet_handle_findname s' nm
        = if decide (skynet_handle_findname s nm = handle) then 0
          else skynet_handle_findname s nm).
Proof.
  intros Hwf s' ret. pose proof (retire_names_wf ctxs s handle Hwf) as Hwf'.
  fold s' in Hwf'. subst s' ret. unfold skynet_handle_retire in *.
  destruct (skynet_handle_grab ctxs s handle) as [p|] eqn:Hg; cbn [fst snd] in *.
  - set (s' := HandleStorage _ _ _ _ _ _) in *.
    assert (Hslot : exists ctx, slot s !! hash_of s handle = Some (Some p)
                                /\ ctxs !! p = Some ctx /\ ctx_handle ctx = handle).
    { unfold skynet_handle_grab in Hg.
      destruct (slot s !! hash_of s handle) as [[p'|]|]; [|done..].
      destruct (ctxs !! p') as [ctx|] eqn:Hc; [|done].
      destruct (Z.eqb_spec (ctx_handle ctx) handle); [|done].
      injection Hg as ->. by exists ctx. }
    destruct Hslot as (ctx & Hsl & Hc & Hh).
    assert (Hlen : (hash_of s handle < length (slot s))%nat).
    { by eapply lookup_lt_Some. }
    split_and!; [by split; [eexists|]|by split|done| | |done|].
    + unfold skynet_handle_grab, hash_of. cbn [slot slot_size s'].
      fold (hash_of s handle). by rewrite list_lookup_insert_eq.
    + intros h Hne. unfold skynet_handle_grab, hash_of. cbn [slot slot_size s'].
      fold (hash_of s handle). fold (hash_of s h).
      destruct (decide (hash_of s handle = hash_of s h)) as [Heq|Hneq].
      * rewrite <- Heq, list_lookup_insert_eq, Hsl, Hc by done.
        destruct (Z.eqb_spec (ctx_handle ctx) h); [congruence|done].
      * by rewrite list_lookup_insert_ne.
    + intros _ nm Hnm.
      destruct (bound_or_not s nm Hwf Hnm) as [(x & Hx & Hname)|Hnot].
      * rewrite (findname_bound s nm x Hwf Hnm Hx Hname).
        destruct (decide (nhandle x = handle)) as [Hxh|Hxh].
        -- apply findname_unbound; [done..|]. intros (y & Hy & Hyn).
           cbn [names s'] in Hy. apply list_elem_of_filter in Hy as [Hyh Hy].
           destruct Hwf as [Hsorted _ _ _].
           assert (y = x) by (apply (sorted_name_unique (names s)); congruence).
           congruence.
        -- apply (findname_bound s' nm x); [done..| |done].
           cbn [names s']. by apply list_elem_of_filter.
      * rewrite (findname_unbound s nm) by done.
        assert (Hnot' : ~ bound s' nm).
        { intros (y & Hy & Hyn). apply Hnot. exists y. split; [|done].
          cbn [names s'] in Hy. by apply list_elem_of_filter in Hy as [_ Hy]. }
        rewrite (findname_unbound s' nm) by done. by destruct (decide (0 = handle)).
  - split_and!; try done.
    + split; [done|]. by intros [p ?].
Qed.

Lemma retire_unbinds_witness :
  let ctxs : gmap nat skynet_context :=
    {[ 0%nat := Context 16777217 0 0%nat true 0 0 0 true false false (Lit "") ]} in
  let s := HandleStorage 16777216 2 4 [None; Some 0%nat; None; None] 2
             [HandleName "alpha" 16777217; HandleName "omega" 16777218] in
  (skynet_handle_retire ctxs s 16777217).2 = 1
  /\ skynet_handle_findname (skynet_handle_retire ctxs s 16777217).1 "alpha" = 0
  /\ skynet_handle_findname (skynet_handle_retire ctxs s 16777217).1 "omega" = 16777218.
Proof.
  intros ctxs s.
  assert (Hwf : names_wf s).
  { destruct two_names_wf as [? ? ? ?]. by constructor. }
  destruct (retire_unbinds ctxs s 16777217 Hwf) as (_ & _ & _ & _ & _ & _ & Hnames).
  split; [reflexivity|].
  split; [apply (Hnames eq_refl "alpha"%string)|apply (Hnames eq_refl "omega"%string)];
    cbn; repeat split; discriminate.
Defined.

End Registry.

(** ** skynet_server.c: delivery *)
Module Delivery.
Import Server.

(** The payload a receiver gets: unless PTYPE_TAG_DONTCOPY is set,
    [_filter_args] copies [sz] bytes and appends a NUL. *)
Definition copied (type : Z) (data : payload) (sz : Z) : payload :=
  if Z.land type PTYPE_TAG_DONTCOPY =? 0 then
    match data with
    | PBytes b => PBytes (take (Z.to_nat sz) b ++ [x00])
    | d => d
    end
  else data.

(** The size word with the type in its high byte. *)
Definition packed (type sz : Z) : Z :=
  Z.lor sz (Z.shiftl (Z.land type 255) MESSAGE_TYPE_SHIFT).

Lemma packed_size type sz :
  Z.land sz MESSAGE_TYPE_MASK = sz ->
  Z.land (packed type sz) MESSAGE_TYPE_MASK = sz.
Proof.
  intros Hsz. unfold packed. rewrite Z.land_lor_distr_l, Hsz.
  rewrite MESSAGE_TYPE_MASK_ones. change MESSAGE_TYPE_SHIFT with 56.
  rewrite Z.land_ones, Z.shiftl_mul_pow2, Z.mod_mul by lia.
  apply Z.lor_0_r.
Qed.

Lemma packed_type type sz :
  0 <= sz -> Z.land sz MESSAGE_TYPE_MASK = sz ->
  Z.shiftr (packed type sz) MESSAGE_TYPE_SHIFT = Z.land type 255.
Proof.
  intros H0 Hsz. unfold packed. change MESSAGE_TYPE_SHIFT with 56.
  rewrite Z.shiftr_lor, Z.shiftr_shiftl_l, Z.sub_diag, Z.shiftl_0_r by lia.
  apply size_check in Hsz; [|done]. rewrite MESSAGE_TYPE_MASK_ones in Hsz.
  rewrite Z.ones_equiv in Hsz.
  rewrite Z.shiftr_div_pow2, Z.div_small by lia. apply Z.lor_0_l.
Qed.

(** The handle a message is stamped with: the given source, or the
    handle of the sending context when the source is 0. *)
Definition stamp (w : world) (context : option nat) (source : Z) : option Z :=
  if source =? 0 then p ← context; ctx_handle <$> ctxs w !! p
  else Some source.

(** A mailbox able to take one more message. *)
Definition accepts (w : world) (q : nat) (mq : Mq.message_queue) : Prop :=
  mqs w !! q = Some mq /\ Mq.wf mq /\ Mq.cap mq * 2 <= INT_MAX.

(** The world after [m] has been pushed on the mailbox at [q]. *)
Definition delivered (w : world) (q : nat) (mq : Mq.message_queue)
    (m : skynet_message) (w' : world) : Prop :=
  exists mq',
    mqs w' = <[q := mq']> (mqs w)
    /\ Mq.messages mq' = Mq.messages mq ++ [m]
    /\ Mq.wf mq'
    /\ Mq.handle mq' = Mq.handle mq
    /\ Q w' = (if Mq.in_global mq =? 0 then Q w ++ [q] else Q w)
    /\ same_services w w'.

Lemma push_handle mq m : Mq.handle (Mq.skynet_mq_push mq m).1 = Mq.handle mq.
Proof.
  unfold Mq.skynet_mq_push.
  set (q1 := Mq.set_ring _ _ _ _ _).
  assert (Hg : Mq.handle (if Mq.head q1 =? Mq.tail q1 then Mq.expand_queue q1 else q1)
               = Mq.handle mq) by (by destruct (Mq.head q1 =? Mq.tail q1)).
  destruct (Mq.in_global _ =? 0); cbn [fst]; by rewrite <- Hg.
Qed.

Lemma mq_push_delivers q mq m w :
  accepts w q mq ->
  exists w', mq_push q m w = Ok w' /\ delivered w q mq m w'.
Proof.
  intros (Hq & Hwf & Hcap). unfold mq_push. rewrite Hq.
  pose proof (Mq.push_messages mq m Hwf Hcap) as Hm.
  pose proof (Mq.push_wf mq m Hwf Hcap) as Hwf'.
  pose proof (push_linked mq m) as Hl.
  pose proof (push_handle mq m) as Hh.
  destruct (Mq.skynet_mq_push mq m) as [mq' linked]. cbn [fst snd] in *. subst linked.
  eexists. split; [reflexivity|]. exists mq'.
  destruct (Mq.in_global mq =? 0); by split_and!.
Qed.

Lemma context_push_delivers h pd dctx mq m w :
  Handle.skynet_handle_grab (ctxs w) (H w) h = Some pd ->
  ctxs w !! pd = Some dctx ->
  accepts w (ctx_queue dctx) mq ->
  exists w', skynet_context_push h m w = Ok (w', 0)
             /\ delivered w (ctx_queue dctx) mq m w'.
Proof.
  intros Hg Hd Hacc. unfold skynet_context_push. rewrite Hg, Hd.
  destruct (mq_push_delivers _ _ m _ Hacc) as (w' & -> & Hdel).
  by exists w'.
Qed.

(** A send that allocates no session, to a registered local service. *)
Lemma send_plain_local context source destination type session data sz w
    src pd dctx mq :
  Z.land sz MESSAGE_TYPE_MASK = sz ->
  Z.land type PTYPE_TAG_ALLOCSESSION = 0 ->
  stamp w context source = Some src ->
  destination <> 0 ->
  skynet_harbor_message_isremote w destination = Ok false ->
  Handle.skynet_handle_grab (ctxs w) (H w) destination = Some pd ->
  ctxs w !! pd = Some dctx ->
  accepts w (ctx_queue dctx) mq ->
  exists w',
    skynet_send context source destination type session data sz w = Ok (w', session)
    /\ delivered w (ctx_queue dctx) mq
         (Message src session (copied type data sz) (packed type sz)) w'.
Proof.
  intros Hsz Halloc Hsrc Hdest Hremote Hg Hd Hacc.
  unfold skynet_send. rewrite Hsz, Z.eqb_refl. cbn [negb].
  unfold _filter_args. rewrite Halloc. cbn [Z.eqb negb mbind outcome_bind].
  assert (Hstamp :
    (if source =? 0
     then match context with
          | Some p => match ctxs w !! p with
                      | Some ctx => Ok (ctx_handle ctx)
                      | None => Abort
                      end
          | None => Abort
          end
     else Ok source) = Ok src).
  { unfold stamp in Hsrc. destruct (source =? 0); [|by injection Hsrc as ->].
    destruct context as [p|]; [|done]. cbn in Hsrc.
    destruct (ctxs w !! p); [|done]. by injection Hsrc as ->. }
  rewrite Hstamp. cbn [mbind outcome_bind].
  destruct (Z.eqb_spec destination 0) as [|_]; [done|].
  rewrite Hremote. cbn [mbind outcome_bind].
  destruct (context_push_delivers destination pd dctx mq
              (Message src session (copied type data sz) (packed type sz)) w Hg Hd Hacc)
    as (w' & Hpush & Hdel).
  fold (copied type data sz). fold (packed type sz).
  rewrite Hpush. cbn [mbind outcome_bind Z.eqb]. by exists w'.
Qed.

(** X4. A [skynet_send] of a message that passes the size check, without
    PTYPE_TAG_ALLOCSESSION, to a registered service of this node returns
    the session and appends one message to the destination's mailbox,
    behind those already queued: it carries the source (the sender's
    own handle when 0 is given), the session, the payload (copied and
    NUL-terminated unless PTYPE_TAG_DONTCOPY is set) and the size with
    the type's low byte packed above it. No other mailbox changes, and
    the mailbox is put on the global run queue exactly when it was not
    there. *)
Theorem send_delivers (p : nat) (ctx : skynet_context)
    (source destination type session : Z) (data : payload) (sz : Z) (w : world)
    (pd : nat) (dctx : skynet_context) (mq : Mq.message_queue) :
  ctxs w !! p = Some ctx ->
  Z.land sz MESSAGE_TYPE_MASK = sz ->
  Z.land type PTYPE_TAG_ALLOCSESSION = 0 ->
  destination <> 0 ->
  skynet_harbor_message_isremote w destination = Ok false ->
  Handle.skynet_handle_grab (ctxs w) (H w) destination = Some pd ->
  ctxs w !! pd = Some dctx ->
  mqs w !! ctx_queue dctx = Some mq -> Mq.wf mq -> Mq.cap mq * 2 <= INT_MAX ->
  exists w' mq',
    skynet_send (Some p) source destination type session data sz w = Ok (w', session)
    /\ mqs w' !! ctx_queue dctx = Some mq'
    /\ Mq.messages mq'
       = Mq.messages mq
         ++ [Message (if source =? 0 then ctx_handle ctx else source) session
                     (copied type data sz)
                     (Z.lor sz (Z.shiftl (Z.land type 255) MESSAGE_TYPE_SHIFT))]
    /\ (forall q, q <> ctx_queue dctx -> mqs w' !! q = mqs w !! q)
    /\ Q w' = (if Mq.in_global mq =? 0 then Q w ++ [ctx_queue dctx] else Q w)
    /\ ctxs w' = ctxs w /\ errors w' = errors w.
Proof.
  intros Hp Hsz Halloc Hdest Hremote Hg Hd Hq Hwf Hcap.
  destruct (send_plain_local (Some p) source destination type session data sz w
              (if source =? 0 then ctx_handle ctx else source) pd dctx mq)
    as (w' & Hsend & mq' & Hmqs & Hms & _ & _ & HQ & Hsame); try done.
  { unfold stamp. destruct (source =? 0); [|done]. cbn. by rewrite Hp. }
  exists w', mq'. split; [done|]. rewrite Hmqs.
  split; [by rewrite lookup_insert_eq|]. split; [done|].
  split; [by intros q Hne; rewrite lookup_insert_ne|].
  destruct Hsame. by split_and!.
Qed.

(** Two services of node 1, [:01000001] and [:01000002], with empty
    mailboxes that are off the run queue. *)
Definition alice : skynet_context :=
  Context 16777217 0 0%nat true 0 0 0 true false false (Lit "").
Definition bob : skynet_context :=
  Context 16777218 0 1%nat true 0 0 0 true false false (Lit "").
Definition idle_mailbox (h : Z) : Mq.message_queue :=
  Mq.set_in_global (Mq.skynet_mq_create h) 0.
Definition two_services : world :=
  World (Handle.HandleStorage 16777216 3 4 [None; Some 0%nat; Some 1%nat; None] 2 [])
        {[ 0%nat := alice; 1%nat := bob ]}
        {[ 0%nat := idle_mailbox 16777217; 1%nat := idle_mailbox 16777218 ]}
        [] 16777216 None 0 [] [].

Lemma idle_mailbox_wf h : Mq.wf (idle_mailbox h).
Proof. destruct (Mq.fresh_mailbox_wf h). by constructor. Qed.

Lemma send_delivers_witness :
  exists w' mq',
    skynet_send (Some 0%nat) 0 16777218 PTYPE_TEXT 5 (PBytes [x68; x69]) 2 two_services
    = Ok (w', 5)
    /\ mqs w' !! 1%nat = Some mq'
    /\ Mq.messages mq' = [Message 16777217 5 (PBytes [x68; x69; x00]) 2]
    /\ Q w' = [1%nat].
Proof.
  destruct (send_delivers 0%nat alice 0 16777218 PTYPE_TEXT 5
              (PBytes [x68; x69]) 2 two_services 1%nat bob (idle_mailbox 16777218))
    as (w' & mq' & Hsend & Hmq & Hms & _ & HQ & _);
    try done; try apply idle_mailbox_wf.
  by exists w', mq'.
Defined.

(** *** Allocated sessions *)

Lemma newsession_queue ctx :
  ctx_queue (skynet_context_newsession ctx).1 = ctx_queue ctx
  /\ ctx_handle (skynet_context_newsession ctx).1 = ctx_handle ctx
  /\ session_id (skynet_context_newsession ctx).1 = (skynet_context_newsession ctx).2
  /\ 1 <= (skynet_context_newsession ctx).2.
Proof.
  unfold skynet_context_newsession.
  destruct (Z.leb_spec (wrap_int (session_id ctx + 1)) 0); cbn; split_and!; try done; lia.
Qed.

(** X5. With PTYPE_TAG_ALLOCSESSION and session 0, [skynet_send] draws
    a fresh session from the sending context: the value returned is at
    least 1, it is the context's new [session_id], and it is the
    session of the message put in the destination's mailbox. Passing a
    non-zero session together with the tag fails the [assert]. *)
Theorem send_allocates_session (p : nat) (ctx : skynet_context)
    (source destination type : Z) (data : payload) (sz : Z) (w : world)
    (pd : nat) (dctx : skynet_context) (mq : Mq.message_queue) :
  ctxs w !! p = Some ctx ->
  Z.land sz MESSAGE_TYPE_MASK = sz ->
  Z.land type PTYPE_TAG_ALLOCSESSION <> 0 ->
  destination <> 0 ->
  skynet_harbor_message_isremote w destination = Ok false ->
  Handle.skynet_handle_grab (ctxs w) (H w) destination = Some pd ->
  ctxs w !! pd = Some dctx ->
  mqs w !! ctx_queue dctx = Some mq -> Mq.wf mq -> Mq.cap mq * 2 <= INT_MAX ->
  let s := (skynet_context_newsession ctx).2 in
  (exists w' mq' ctx',
     skynet_send (Some p) source destination type 0 data sz w = Ok (w', s)
     /\ 1 <= s
     /\ ctxs w' !! p = Some ctx' /\ session_id ctx' = s
     /\ mqs w' !! ctx_queue dctx = Some mq'
     /\ Mq.messages mq'
        = Mq.messages mq
          ++ [Message (if source =? 0 then ctx_handle ctx else source) s
                      (copied type data sz)
                      (Z.lor sz (Z.shiftl (Z.land type 255) MESSAGE_TYPE_SHIFT))])
  /\ (forall session, session <> 0 ->
        skynet_send (Some p) source destination type session data sz w = Abort).
Proof.
  intros Hp Hsz Halloc Hdest Hremote Hg Hd Hq Hwf Hcap s.
  pose proof (newsession_queue ctx) as (Hcq & Hch & Hsid & Hpos). fold s in Hsid.
  destruct (skynet_context_newsession ctx) as [ctx' s0] eqn:Hns.
  cbn [fst snd] in *. subst s.
  split.
  - set (w1 := set_ctxs w (<[p := ctx']> (ctxs w))).
    assert (Hw1 : same_routing w w1).
    { constructor; try done; intros p'; cbn [ctxs set_ctxs w1];
        (destruct (decide (p = p')) as [<-|Hne];
         [rewrite lookup_insert_eq, Hp; cbn; congruence
         |by rewrite lookup_insert_ne]). }
    assert (Hd1 : exists dctx1, ctxs w1 !! pd = Some dctx1
                                /\ ctx_queue dctx1 = ctx_queue dctx).
    { cbn [ctxs set_ctxs w1]. destruct (decide (p = pd)) as [<-|Hne].
      - rewrite lookup_insert_eq. exists ctx'. split; [done|]. congruence.
      - rewrite lookup_insert_ne by done. by exists dctx. }
    destruct Hd1 as (dctx1 & Hd1 & Hq1).
    assert (Hacc : accepts w1 (ctx_queue dctx1) mq) by (by rewrite Hq1).
    destruct (context_push_delivers destination pd dctx1 mq
                (Message (if source =? 0 then ctx_handle ctx else source) s0
                         (copied type data sz) (packed type sz)) w1)
      as (w' & Hpush & mq' & Hmqs & Hms & _ & _ & _ & Hsame); [|done|done|].
    { by rewrite (same_routing_grab w w1). }
    exists w', mq', ctx'.
    split.
    + unfold skynet_send. rewrite Hsz, Z.eqb_refl. cbn [negb].
      unfold _filter_args.
      destruct (Z.eqb_spec (Z.land type PTYPE_TAG_ALLOCSESSION) 0) as [|_]; [done|].
      cbn [negb Z.eqb]. rewrite Hp, Hns. fold w1. cbn [mbind outcome_bind].
      assert (Hp1 : ctxs w1 !! p = Some ctx') by (cbn; by rewrite lookup_insert_eq).
      rewrite Hp1, Hch. cbn [mbind outcome_bind].
      replace (if source =? 0 then Ok (ctx_handle ctx) else Ok source)
        with (Ok (A:=Z) (if source =? 0 then ctx_handle ctx else source))
        by (by destruct (source =? 0)).
      cbn [mbind outcome_bind].
      destruct (Z.eqb_spec destination 0) as [|_]; [done|].
      rewrite (isremote_same_routing w w1 destination Hw1), Hremote.
      cbn [mbind outcome_bind]. fold (copied type data sz). fold (packed type sz).
      rewrite Hpush. by cbn [mbind outcome_bind Z.eqb].
    + rewrite (ss_ctxs _ _ Hsame), Hmqs, Hq1.
      cbn [ctxs set_ctxs w1 mqs]. rewrite !lookup_insert_eq.
      by split_and!.
  - intros session Hs. unfold skynet_send. rewrite Hsz, Z.eqb_refl. cbn [negb].
    unfold _filter_args.
    destruct (Z.eqb_spec (Z.land type PTYPE_TAG_ALLOCSESSION) 0) as [|_]; [done|].
    cbn [negb]. by destruct (Z.eqb_spec session 0).
Qed.

Lemma send_allocates_session_witness :
  exists w' mq',
    skynet_send (Some 0%nat) 0 16777218 (Z.lor PTYPE_CLIENT PTYPE_TAG_ALLOCSESSION) 0
                PNull 0 two_services = Ok (w', 1)
    /\ mqs w' !! 1%nat = Some mq'
    /\ Mq.messages mq'
       = [Message 16777217 1 PNull (Z.shiftl PTYPE_CLIENT MESSAGE_TYPE_SHIFT)].
Proof.
  destruct (send_allocates_session 0%nat alice 0 16777218
              (Z.lor PTYPE_CLIENT PTYPE_TAG_ALLOCSESSION) PNull 0 two_services
              1%nat bob (idle_mailbox 16777218))
    as [(w' & mq' & ctx' & Hsend & _ & _ & _ & Hmq & Hms) _];
    try done; try apply idle_mailbox_wf.
  by exists w', mq'.
Defined.

(** *** Other nodes *)

Lemma remote_not_zero w destination :
  skynet_harbor_message_isremote w destination = Ok true -> destination <> 0.
Proof.
  unfold skynet_harbor_message_isremote. destruct (HARBOR w =? 4294967295); [done|].
  intros [= Hr] ->. change (Z.land 0 HARBOR_BITS) with 0 in Hr.
  by rewrite andb_false_r in Hr.
Qed.

(** What [rmsg->message] points to. *)
Definition remote_payload (data : payload) : option (list byte) :=
  match data with PBytes b => Some b | _ => None end.

(** X6. A [skynet_send] to a handle of another node is handed to the
    harbor service: its mailbox gets one PTYPE_SYSTEM message of
    [sizeof(struct remote_message)] bytes whose [remote_message] names
    the destination and carries the payload, the original size and the
    type's low byte, unpacked again from the size word. The send
    returns the session. A message of type PTYPE_SYSTEM or PTYPE_HARBOR
    cannot leave the node: [skynet_harbor_send] fails its [assert]. *)
Theorem send_remote_forwards (p : nat) (ctx : skynet_context)
    (source destination type session : Z) (data : payload) (sz : Z) (w : world)
    (r : nat) (rctx : skynet_context) (mq : Mq.message_queue) :
  ctxs w !! p = Some ctx ->
  0 <= sz -> Z.land sz MESSAGE_TYPE_MASK = sz ->
  Z.land type PTYPE_TAG_ALLOCSESSION = 0 ->
  skynet_harbor_message_isremote w destination = Ok true ->
  REMOTE w = Some r -> ctxs w !! r = Some rctx ->
  mqs w !! ctx_queue rctx = Some mq -> Mq.wf mq -> Mq.cap mq * 2 <= INT_MAX ->
  let t := Z.land type 255 in
  (t <> PTYPE_SYSTEM -> t <> PTYPE_HARBOR ->
   exists w' mq',
     skynet_send (Some p) source destination type session data sz w = Ok (w', session)
     /\ mqs w' !! ctx_queue rctx = Some mq'
     /\ Mq.messages mq'
        = Mq.messages mq
          ++ [Message (if source =? 0 then ctx_handle ctx else source) session
                (PRemote (RemoteMessage [] destination
                            (remote_payload (copied type data sz)) sz t))
                (Z.lor sizeof_remote_message
                       (Z.shiftl PTYPE_SYSTEM MESSAGE_TYPE_SHIFT))]
     /\ (forall q, q <> ctx_queue rctx -> mqs w' !! q = mqs w !! q))
  /\ (t = PTYPE_SYSTEM \/ t = PTYPE_HARBOR ->
      skynet_send (Some p) source destination type session data sz w = Abort).
Proof.
  intros Hp H0 Hsz Halloc Hremote HR Hr Hq Hwf Hcap t.
  pose proof (remote_not_zero w destination Hremote) as Hdest.
  assert (Hsend :
    skynet_send (Some p) source destination type session data sz w
    = w2 ← skynet_harbor_send
            (RemoteMessage [] destination (remote_payload (copied type data sz)) sz t)
            (if source =? 0 then ctx_handle ctx else source) session w;
      Ok (w2, session)).
  { unfold skynet_send. rewrite Hsz, Z.eqb_refl. cbn [negb].
    unfold _filter_args. rewrite Halloc. cbn [Z.eqb negb mbind outcome_bind].
    rewrite Hp.
    replace (if source =? 0 then Ok (ctx_handle ctx) else Ok source)
      with (Ok (A:=Z) (if source =? 0 then ctx_handle ctx else source))
      by (by destruct (source =? 0)).
    cbn [mbind outcome_bind].
    destruct (Z.eqb_spec destination 0) as [|_]; [done|].
    rewrite Hremote. cbn [mbind outcome_bind].
    fold (copied type data sz). fold (packed type sz). fold (remote_payload (copied type data sz)).
    by rewrite packed_size, packed_type. }
  rewrite Hsend. unfold skynet_harbor_send, invalid_type. rewrite HR.
  cbn [rtype]. split.
  - intros Hs Hh.
    destruct (Z.eqb_spec t PTYPE_SYSTEM) as [|_]; [done|].
    destruct (Z.eqb_spec t PTYPE_HARBOR) as [|_]; [done|]. cbn [negb andb].
    unfold skynet_context_send. rewrite Hr.
    destruct (mq_push_delivers (ctx_queue rctx) mq
                (Message (if source =? 0 then ctx_handle ctx else source) session
                   (PRemote (RemoteMessage [] destination
                               (remote_payload (copied type data sz)) sz t))
                   (Z.lor sizeof_remote_message
                          (Z.shiftl PTYPE_SYSTEM MESSAGE_TYPE_SHIFT))) w)
      as (w' & -> & mq' & Hmqs & Hms & _); [done|].
    cbn [mbind outcome_bind]. exists w', mq'. rewrite Hmqs.
    split; [done|]. split; [by rewrite lookup_insert_eq|]. split; [done|].
    by intros q Hne; rewrite lookup_insert_ne.
  - intros [Ht|Ht]; rewrite Ht; done.
Qed.

(** The two services with [bob] started as the harbor service. *)
Definition with_harbor : world :=
  World (H two_services) (ctxs two_services) (mqs two_services) [] 16777216
        (Some 1%nat) 0 [] [].

Lemma send_remote_forwards_witness :
  exists w' mq',
    skynet_send (Some 0%nat) 0 33554437 PTYPE_CLIENT 9 PNull 0 with_harbor = Ok (w', 9)
    /\ mqs w' !! 1%nat = Some mq'
    /\ Mq.messages mq'
       = [Message 16777217 9 (PRemote (RemoteMessage [] 33554437 None 0 PTYPE_CLIENT))
                  (Z.lor sizeof_remote_message (Z.shiftl PTYPE_SYSTEM MESSAGE_TYPE_SHIFT))].
Proof.
  destruct (send_remote_forwards 0%nat alice 0 33554437 PTYPE_CLIENT 9 PNull 0
              with_harbor 1%nat bob (idle_mailbox 16777218))
    as [Hfwd _]; try done; try apply idle_mailbox_wf.
  destruct Hfwd as (w' & mq' & Hsend & Hmq & Hms & _); [done..|].
  by exists w', mq'.
Defined.

(** *** Messages that cannot be handled any more *)

(** X7. [drop_message], the drop policy of a released mailbox, answers
    a queued request with a PTYPE_ERROR message: it is sent in the name
    of the dead service to the request's source, with the request's
    session and no payload, and lands in the source's mailbox when the
    source is a registered service of this node. A message without a
    source, or from a service that is gone as well, is dropped
    silently. *)
Theorem drop_replies_error (msg : skynet_message) (d : Z) (w : world) :
  d <> 0 ->
  (source msg = 0 \/ unregistered w (source msg) -> drop_message msg d w = Ok w)
  /\ (forall ps sctx mq,
        source msg <> 0 ->
        skynet_harbor_message_isremote w (source msg) = Ok false ->
        Handle.skynet_handle_grab (ctxs w) (H w) (source msg) = Some ps ->
        ctxs w !! ps = Some sctx ->
        mqs w !! ctx_queue sctx = Some mq -> Mq.wf mq -> Mq.cap mq * 2 <= INT_MAX ->
        exists w' mq',
          drop_message msg d w = Ok w'
          /\ mqs w' = <[ctx_queue sctx := mq']> (mqs w)
          /\ Mq.messages mq'
             = Mq.messages mq
               ++ [Message d (session msg) PNull
                           (Z.shiftl PTYPE_ERROR MESSAGE_TYPE_SHIFT)]
          /\ ctxs w' = ctxs w /\ errors w' = errors w).
Proof.
  intros Hd. unfold drop_message.
  destruct (Z.eqb_spec d 0) as [|_]; [done|]. split.
  - intros Hgone. unfold skynet_send, _filter_args.
    change (Z.land 0 MESSAGE_TYPE_MASK) with 0.
    change (Z.land PTYPE_ERROR PTYPE_TAG_ALLOCSESSION) with 0.
    change (Z.land PTYPE_ERROR PTYPE_TAG_DONTCOPY) with 0.
    cbn [Z.eqb negb mbind outcome_bind is_null].
    destruct (Z.eqb_spec d 0) as [|_]; [done|]. cbn [mbind outcome_bind].
    destruct Hgone as [->|[Hlocal Hnone]]; [done|].
    destruct (Z.eqb_spec (source msg) 0) as [He|_]; [done|].
    rewrite Hlocal. cbn [mbind outcome_bind].
    by rewrite skynet_context_push_unregistered.
  - intros ps sctx mq Hsrc Hlocal Hg Hs Hq Hwf Hcap.
    destruct (send_plain_local None d (source msg) PTYPE_ERROR (session msg) PNull 0 w
                d ps sctx mq)
      as (w' & -> & mq' & Hmqs & Hms & _ & _ & _ & Hsame); try done.
    { unfold stamp. by destruct (Z.eqb_spec d 0). }
    exists w', mq'. cbn [mbind outcome_bind]. destruct Hsame.
    by split_and!.
Qed.

Lemma drop_replies_error_witness :
  exists w' mq',
    drop_message (Message 16777217 5 PNull 0) 16777218 two_services = Ok w'
    /\ mqs w' = <[0%nat := mq']> (mqs two_services)
    /\ Mq.messages mq'
       = [Message 16777218 5 PNull (Z.shiftl PTYPE_ERROR MESSAGE_TYPE_SHIFT)].
Proof.
  destruct (drop_replies_error (Message 16777217 5 PNull 0) 16777218 two_services)
    as [_ Hreply]; [done|].
  destruct (Hreply 0%nat alice (idle_mailbox 16777217))
    as (w' & mq' & Hdrop & Hmqs & Hms & _); try done; try apply idle_mailbox_wf.
  by exists w', mq'.
Defined.

End Delivery.

(** ** skynet_monitor.c: progress between two checks *)
Module Watchdog.
Import Monitor Server Stall.

Lemma version_moves v : wrap_int (v + 1) <> v.
Proof.
  unfold wrap_int. pose proof (Z.mod_pos_bound (v + 1 + 2147483648) 4294967296).
  intros Heq.
  assert (Hv : -2147483648 <= v < 2147483648) by lia.
  assert (Hm : (v + 1 + 2147483648) mod 4294967296 = v + 2147483648) by lia.
  destruct (decide (v = 2147483647)) as [->|Hne]; [vm_compute in Hm; lia|].
  rewrite Z.mod_small in Hm; lia.
Qed.

(** The line [skynet_monitor_check] reports for a stalled worker. *)
Definition report (sm : skynet_monitor) : Z * error_line :=
  (0, MaybeEndless (msource sm) (destination sm) (version sm)).

Lemma endless_keeps_errors handle w :
  errors (skynet_context_endless handle w) = errors w.
Proof.
  unfold skynet_context_endless.
  destruct (Handle.skynet_handle_grab (ctxs w) (H w) handle) as [p|]; [|done].
  by destruct (ctxs w !! p).
Qed.

Lemma check_errors sm w sm' w' :
  skynet_monitor_check sm w = Ok (sm', w') ->
  errors w' = if decide (stalled sm) then errors w ++ [report sm] else errors w.
Proof.
  intros Hcheck. destruct (decide (stalled sm)) as [Hs|Hs].
  - rewrite (check_stalled sm w Hs) in Hcheck.
    apply bind_ok in Hcheck as (w2 & Herr & [= _ <-]).
    apply skynet_error_frame in Herr as (_ & _ & _ & _ & _ & _ & ->).
    by rewrite endless_keeps_errors.
  - destruct (check_running sm w Hs) as (sm2 & Hrun & _).
    rewrite Hrun in Hcheck. by injection Hcheck as _ <-.
Qed.

(** X10. After a check of a worker's monitor has returned, a second
    check with no trigger in between reports the worker exactly when it
    is inside a dispatch (its recorded destination is not 0); for an
    idle worker the second check changes nothing. A trigger between two
    checks always prevents the report and leaves the world untouched,
    and after the closing [skynet_monitor_trigger(sm, 0, 0)] of a
    dispatch no number of further checks reports the worker. *)
Theorem check_needs_two_samples (sm sm1 : skynet_monitor) (w w1 : world)
    (src dst : Z) :
  skynet_monitor_check sm w = Ok (sm1, w1) ->
  (stalled sm1 <-> destination sm <> 0)
  /\ (forall sm2 w2, skynet_monitor_check sm1 w1 = Ok (sm2, w2) ->
        (errors w2 = errors w1 ++ [report sm1] <-> destination sm <> 0))
  /\ (destination sm = 0 -> skynet_monitor_check sm1 w1 = Ok (sm1, w1))
  /\ (let sm2 := skynet_monitor_trigger sm1 src dst in
      exists sm3, skynet_monitor_check sm2 w1 = Ok (sm3, w1)
                  /\ check_version sm3 = version sm2)
  /\ (let idle := skynet_monitor_trigger (skynet_monitor_trigger sm1 src dst) 0 0 in
      exists sm3, skynet_monitor_check idle w1 = Ok (sm3, w1)
                  /\ skynet_monitor_check sm3 w1 = Ok (sm3, w1)).
Proof.
  intros Hcheck.
  assert (Hsame : version sm1 = check_version sm1 /\ destination sm1 = destination sm).
  { unfold skynet_monitor_check in Hcheck.
    destruct (Z.eqb_spec (version sm) (check_version sm)).
    - destruct (negb (destination sm =? 0)).
      + by apply bind_ok in Hcheck as (w2 & _ & [= <- _]).
      + by injection Hcheck as <- _.
    - by injection Hcheck as <- _. }
  destruct Hsame as [Hv Hd].
  assert (Hst : stalled sm1 <-> destination sm <> 0).
  { unfold stalled. rewrite Hd. tauto. }
  split_and!.
  - done.
  - intros sm2 w2 Hsecond. rewrite (check_errors _ _ _ _ Hsecond).
    destruct (decide (stalled sm1)) as [Hs|Hs]; [tauto|].
    split; [|tauto]. intros He. apply (f_equal length) in He.
    rewrite length_app in He. simpl in He. lia.
  - intros H0. unfold skynet_monitor_check. rewrite Hv, Z.eqb_refl, Hd, H0. done.
  - unfold skynet_monitor_check, skynet_monitor_trigger. cbn [version check_version].
    rewrite <- Hv.
    destruct (Z.eqb_spec (wrap_int (version sm1 + 1)) (version sm1)) as [He|_].
    + by apply version_moves in He.
    + by eexists.
  - unfold skynet_monitor_check, skynet_monitor_trigger.
    cbn [version check_version destination msource].
    rewrite <- Hv.
    set (v2 := wrap_int (wrap_int (version sm1 + 1) + 1)).
    destruct (Z.eqb_spec v2 (version sm1)) as [He|Hne];
      cbn [Z.eqb negb]; eexists; (split; [reflexivity|]);
      cbn [version check_version destination msource].
    + rewrite <- He, Z.eqb_refl. done.
    + by rewrite Z.eqb_refl.
Qed.

(** A worker that has handled messages since the last check. *)
Lemma check_needs_two_samples_witness :
  let sm := SkynetMonitor 6 4 16777217 16777218 in
  let sm1 := SkynetMonitor 6 6 16777217 16777218 in
  stalled sm1
  /\ exists sm3, skynet_monitor_check (skynet_monitor_trigger sm1 0 0)
                   Delivery.two_services = Ok (sm3, Delivery.two_services)
                 /\ check_version sm3 = 7.
Proof.
  intros sm sm1.
  destruct (check_needs_two_samples sm sm1 Delivery.two_services
              Delivery.two_services 0 0 eq_refl) as (Hst & _ & _ & Htrig & _).
  split; [apply Hst; discriminate|exact Htrig].
Defined.

End Watchdog.

(** ** socket_server.c: event flags and socket ids *)
Module SocketFacts.
Import Socket.

(** A call of [enable_read] or [enable_write]. *)
Inductive flag_op :=
| SetRead (enable : bool)
| SetWrite (enable : bool).

Section Flags.
Context `{backend : poll_backend}.
Variable os : kernel.
Variable ss : socket_server.

Definition apply_op (s : socket) (op : flag_op) : socket * list syscall * Z :=
  match op with
  | SetRead b => enable_read os ss s b
  | SetWrite b => enable_write os ss s b
  end.

(** The socket after the calls, and all system calls made. *)
Fixpoint apply_ops (s : socket) (ops : list flag_op) : socket * list syscall :=
  match ops with
  | [] => (s, [])
  | op :: rest =>
      let '(s1, t1, _) := apply_op s op in
      let '(s2, t2) := apply_ops s1 rest in
      (s2, t1 ++ t2)
  end.
End Flags.

(** The events asked of the kernel for descriptor [sock] on the poll
    descriptor [pfd]: EPOLL_CTL_MOD replaces both flags, a [kevent]
    enables or disables its one filter. *)
Definition request (pfd sock : Z) (asked : bool * bool) (c : syscall) : bool * bool :=
  match c with
  | epoll_ctl_mod efd fd_ epollin epollout =>
      if (efd =? pfd) && (fd_ =? sock) then (epollin, epollout) else asked
  | kevent_change kfd fd_ EVFILT_READ enable =>
      if (kfd =? pfd) && (fd_ =? sock) then (enable, asked.2) else asked
  | kevent_change kfd fd_ EVFILT_WRITE enable =>
      if (kfd =? pfd) && (fd_ =? sock) then (asked.1, enable) else asked
  end.

Definition requested (pfd sock : Z) (asked : bool * bool) (trace : list syscall)
  : bool * bool :=
  fold_left (request pfd sock) trace asked.

Lemma requested_app pfd sock asked t1 t2 :
  requested pfd sock asked (t1 ++ t2)
  = requested pfd sock (requested pfd sock asked t1) t2.
Proof. apply fold_left_app. Qed.

Lemma sp_enable_requests_epoll os pfd sock r wr asked :
  requested pfd sock asked (@sp_enable epoll os pfd sock r wr).1 = (r, wr).
Proof. cbn. by rewrite !Z.eqb_refl. Qed.

Lemma sp_enable_requests_kqueue os pfd sock r wr asked :
  requested pfd sock asked (@sp_enable kqueue os pfd sock r wr).1 = (r, wr).
Proof. cbn. by rewrite !Z.eqb_refl. Qed.

Section Agreement.
Context `{backend : poll_backend}.
Variable os : kernel.
Variable ss : socket_server.
(** Both backends ask for exactly the two flags they are given. *)
Hypothesis sp_enable_requests : forall sock r wr asked,
  requested (event_fd ss) sock asked (sp_enable os (event_fd ss) sock r wr).1 = (r, wr).

Lemma apply_op_agrees s op :
  let '(s1, t1, _) := apply_op os ss s op in
  requested (event_fd ss) (fd s) (reading s, writing s) t1 = (reading s1, writing s1)
  /\ fd s1 = fd s /\ id s1 = id s /\ closing s1 = closing s.
Proof.
  destruct op as [b|b]; cbn [apply_op]; unfold enable_read, enable_write.
  - destruct (eqb_spec (reading s) b) as [<-|Hne]; cbn [negb]; [done|].
    pose proof (sp_enable_requests (fd s) b (writing s) (reading s, writing s)) as Hr.
    cbn [fd writing]. by destruct (sp_enable os (event_fd ss) (fd s) b (writing s)).
  - destruct (eqb_spec (writing s) b) as [<-|Hne]; cbn [negb]; [done|].
    pose proof (sp_enable_requests (fd s) (reading s) b (reading s, writing s)) as Hr.
    cbn [fd reading]. by destruct (sp_enable os (event_fd ss) (fd s) (reading s) b).
Qed.

Lemma apply_ops_agree ops : forall s,
  let '(s', trace) := apply_ops os ss s ops in
  requested (event_fd ss) (fd s) (reading s, writing s) trace = (reading s', writing s')
  /\ fd s' = fd s /\ id s' = id s /\ closing s' = closing s.
Proof.
  induction ops as [|op ops IH]; intros s; cbn [apply_ops]; [done|].
  pose proof (apply_op_agrees s op) as H1.
  destruct (apply_op os ss s op) as [[s1 t1] r1].
  specialize (IH s1). destruct (apply_ops os ss s1 ops) as [s2 t2].
  destruct H1 as (Hr1 & Hf1 & Hi1 & Hc1), IH as (Hr2 & Hf2 & Hi2 & Hc2).
  rewrite requested_app, Hr1, <- Hf1, Hr2. split_and!; congruence.
Qed.
End Agreement.

(** X11. However [enable_read] and [enable_write] are interleaved on a
    socket whose flags match what the kernel was last asked, on either
    backend and whether or not the system calls succeed: the events last
    requested from the kernel for the descriptor are the socket's
    [reading] and [writing] flags, and the descriptor, id and [closing]
    mark are not touched. *)
Theorem flags_match_requests (os : kernel) (ss : socket_server) (s : socket)
    (ops : list flag_op) :
  (let '(s', trace) := @apply_ops epoll os ss s ops in
   requested (event_fd ss) (fd s) (reading s, writing s) trace = (reading s', writing s')
   /\ fd s' = fd s /\ id s' = id s /\ closing s' = closing s)
  /\ (let '(s', trace) := @apply_ops kqueue os ss s ops in
      requested (event_fd ss) (fd s) (reading s, writing s) trace
      = (reading s', writing s')
      /\ fd s' = fd s /\ id s' = id s /\ closing s' = closing s).
Proof.
  split.
  - apply (@apply_ops_agree epoll). intros. apply sp_enable_requests_epoll.
  - apply (@apply_ops_agree kqueue). intros. apply sp_enable_requests_kqueue.
Qed.

(** *** Reserving a socket id *)

Definition MAX_SOCKET_P : Z := 16.
Definition MAX_SOCKET : Z := Z.shiftl 1 MAX_SOCKET_P.
Definition SOCKET_TYPE_INVALID : Z := 0.
Definition SOCKET_TYPE_RESERVE : Z := 1.
Definition PROTOCOL_UNKNOWN : Z := 255.

(** [HASH_ID(id)]: [((unsigned)id) % MAX_SOCKET]. *)
Definition HASH_ID (id_ : Z) : Z := wrap_u32 id_ mod MAX_SOCKET.

(** The fields of a slot of [ss->slot] that [reserve_id] reads or writes. *)
Record slot_entry := SlotEntry {
  stype : Z;           (* ATOM_INT type *)
  sid : Z;             (* int id *)
  sprotocol : Z;       (* uint8_t protocol *)
  sudpconnecting : Z;  (* ATOM_INT udpconnecting *)
  sfd : Z              (* int fd *)
}.

#[local] Instance slot_entry_inhabited : Inhabited slot_entry :=
  populate (SlotEntry 0 0 0 0 0).

Record id_table := IdTable {
  alloc_id : Z;              (* ATOM_INT alloc_id *)
  slots : list slot_entry    (* struct socket slot[MAX_SOCKET] *)
}.

(** The [for (i=0;i<MAX_SOCKET;i++)] loop of [reserve_id], run by one
    thread at a time, so that the compare-and-swap on a slot seen
    invalid succeeds and the retry branch is not taken. *)
Fixpoint reserve_id_loop (rounds : nat) (ss : id_table) : id_table * Z :=
  match rounds with
  | O => (ss, -1)
  | S r =>
      let id0 := wrap_int (alloc_id ss + 1) in
      let '(a1, id_) :=
        if id0 <? 0
        then (Z.land id0 2147483647, Z.land id0 2147483647)
        else (id0, id0) in
      let h := Z.to_nat (HASH_ID id_) in
      if stype (slots ss !!! h) =? SOCKET_TYPE_INVALID then
        (IdTable a1 (<[h := SlotEntry SOCKET_TYPE_RESERVE id_ PROTOCOL_UNKNOWN 0 (-1)]>
                       (slots ss)),
         id_)
      else reserve_id_loop r (IdTable a1 (slots ss))
  end.

Definition reserve_id (ss : id_table) : id_table * Z :=
  reserve_id_loop (Z.to_nat MAX_SOCKET) ss.

Lemma MAX_SOCKET_value : MAX_SOCKET = 65536.
Proof. reflexivity. Qed.

(** The candidate after [a]: [a + 1], or 0 past [INT_MAX]. *)
Lemma next_id a :
  0 <= a <= INT_MAX ->
  let id0 := wrap_int (a + 1) in
  let id_ := if id0 <? 0 then Z.land id0 2147483647 else id0 in
  0 <= id_ <= INT_MAX /\ HASH_ID id_ = (HASH_ID a + 1) mod MAX_SOCKET.
Proof.
  unfold INT_MAX. intros Ha. cbv zeta.
  destruct (decide (a = 2147483647)) as [->|Hne]; [by vm_compute|].
  rewrite wrap_int_id by (unfold in_int, INT_MIN, INT_MAX; lia).
  destruct (Z.ltb_spec (a + 1) 0); [lia|]. split; [lia|].
  unfold HASH_ID. rewrite !wrap_u32_id by (unfold in_u32; lia).
  change MAX_SOCKET with 65536. by rewrite Zplus_mod_idemp_l.
Qed.

Lemma reserve_id_loop_spec rounds : forall ss,
  0 <= alloc_id ss <= INT_MAX ->
  let '(ss', id_) := reserve_id_loop rounds ss in
  0 <= alloc_id ss' <= INT_MAX
  /\ (id_ = -1 ->
      slots ss' = slots ss
      /\ forall j, (j < rounds)%nat ->
           stype (slots ss
                    !!! Z.to_nat ((HASH_ID (alloc_id ss) + 1 + Z.of_nat j) mod MAX_SOCKET))
           <> SOCKET_TYPE_INVALID)
  /\ (id_ <> -1 ->
      0 <= id_ <= INT_MAX
      /\ alloc_id ss' = id_
      /\ stype (slots ss !!! Z.to_nat (HASH_ID id_)) = SOCKET_TYPE_INVALID
      /\ slots ss'
         = <[Z.to_nat (HASH_ID id_)
             := SlotEntry SOCKET_TYPE_RESERVE id_ PROTOCOL_UNKNOWN 0 (-1)]> (slots ss)).
Proof.
  induction rounds as [|rounds IH]; intros ss Ha; cbn [reserve_id_loop].
  - split; [done|]. split; [|done]. intros _. split; [done|]. intros j Hj. lia.
  - pose proof (next_id (alloc_id ss) Ha) as Hn. cbv zeta in Hn.
    set (id0 := wrap_int (alloc_id ss + 1)) in *.
    assert (Hpair : (if id0 <? 0
                     then (Z.land id0 2147483647, Z.land id0 2147483647)
                     else (id0, id0))
                    = (if id0 <? 0 then Z.land id0 2147483647 else id0,
                       if id0 <? 0 then Z.land id0 2147483647 else id0))
      by (by destruct (id0 <? 0)).
    rewrite Hpair. clear Hpair.
    set (id_ := if id0 <? 0 then Z.land id0 2147483647 else id0) in *.
    destruct Hn as [Hid Hhash].
    destruct (Z.eqb_spec (stype (slots ss !!! Z.to_nat (HASH_ID id_))) SOCKET_TYPE_INVALID)
      as [Hfree|Hused].
    + cbn [alloc_id slots]. split; [done|]. split; [lia|]. done.
    + specialize (IH (IdTable id_ (slots ss)) Hid).
      destruct (reserve_id_loop rounds (IdTable id_ (slots ss))) as [ss' r].
      cbn [alloc_id slots] in IH. destruct IH as (Ha' & Hfail & Hok).
      split; [done|]. split; [|done].
      intros Hr. destruct (Hfail Hr) as [Hs Hall]. split; [done|].
      intros [|j] Hj.
      * rewrite Z.add_0_r, <- Hhash. done.
      * replace ((HASH_ID (alloc_id ss) + 1 + Z.of_nat (S j)) mod MAX_SOCKET)
          with ((HASH_ID id_ + 1 + Z.of_nat j) mod MAX_SOCKET); [apply Hall; lia|].
        rewrite Hhash. change MAX_SOCKET with 65536.
        rewrite <- Zplus_assoc, Zplus_mod_idemp_l. f_equal. lia.
Qed.

(** X12. [reserve_id] hands out a non-negative id whose slot
    [HASH_ID(id)] was invalid, and marks that slot reserved for the id
    (protocol unknown, no descriptor yet), leaving all other slots
    alone. It returns -1 only when none of the [MAX_SOCKET] slots is
    invalid, and then changes no slot. *)
Theorem reserve_id_free_slot (ss : id_table) :
  0 <= alloc_id ss <= INT_MAX ->
  length (slots ss) = Z.to_nat MAX_SOCKET ->
  let ss' := (reserve_id ss).1 in
  let id_ := (reserve_id ss).2 in
  (id_ = -1 <-> Forall (fun e => stype e <> SOCKET_TYPE_INVALID) (slots ss))
  /\ (id_ = -1 -> slots ss' = slots ss)
  /\ (id_ <> -1 ->
      0 <= id_ <= INT_MAX
      /\ stype (slots ss !!! Z.to_nat (HASH_ID id_)) = SOCKET_TYPE_INVALID
      /\ slots ss' !! Z.to_nat (HASH_ID id_)
         = Some (SlotEntry SOCKET_TYPE_RESERVE id_ PROTOCOL_UNKNOWN 0 (-1))
      /\ (forall i, i <> Z.to_nat (HASH_ID id_) -> slots ss' !! i = slots ss !! i)
      /\ 0 <= alloc_id ss' <= INT_MAX).
Proof.
  intros Ha Hlen ss' id_. subst ss' id_. unfold reserve_id.
  pose proof (reserve_id_loop_spec (Z.to_nat MAX_SOCKET) ss Ha) as Hspec.
  destruct (reserve_id_loop (Z.to_nat MAX_SOCKET) ss) as [ss' id_]. cbn [fst snd].
  destruct Hspec as (Ha' & Hfail & Hok).
  assert (Hrange : forall x, 0 <= HASH_ID x < 65536).
  { intros x. unfold HASH_ID. apply Z.mod_pos_bound. done. }
  rewrite MAX_SOCKET_value in *.
  split_and!.
  - split.
    + intros Hr. destruct (Hfail Hr) as [_ Hall]. apply Forall_forall.
      intros e He. apply list_elem_of_lookup_1 in He as [i Hi].
      pose proof (lookup_lt_Some _ _ _ Hi) as Hlt. rewrite Hlen in Hlt.
      specialize (Hall (Z.to_nat ((Z.of_nat i - HASH_ID (alloc_id ss) - 1) mod 65536))).
      pose proof (Z.mod_pos_bound (Z.of_nat i - HASH_ID (alloc_id ss) - 1) 65536 eq_refl).
      rewrite Z2Nat.id in Hall by lia.
      rewrite Zplus_mod_idemp_r in Hall.
      replace (HASH_ID (alloc_id ss) + 1 + (Z.of_nat i - HASH_ID (alloc_id ss) - 1))
        with (Z.of_nat i) in Hall by lia.
      rewrite (Z.mod_small (Z.of_nat i)), Nat2Z.id in Hall by lia.
      rewrite (list_lookup_total_correct _ _ _ Hi) in Hall. apply Hall. lia.
    + intros Hall. destruct (decide (id_ = -1)) as [|Hne]; [done|].
      destruct (Hok Hne) as (_ & _ & Hfree & _).
      rewrite Forall_forall in Hall.
      destruct (Hall (slots ss !!! Z.to_nat (HASH_ID id_))); [|done].
      apply list_elem_of_lookup_total_2. rewrite Hlen.
      specialize (Hrange id_). lia.
  - intros Hr. by destruct (Hfail Hr).
  - intros Hne. destruct (Hok Hne) as (Hid & _ & Hfree & Hslots).
    split_and!; try done; try lia.
    + rewrite Hslots. apply list_lookup_insert_eq. rewrite Hlen.
      specialize (Hrange id_). lia.
    + intros i Hi. rewrite Hslots. by apply list_lookup_insert_ne.
Qed.

Lemma reserve_id_free_slot_witness :
  let ss := IdTable 0 (replicate (Z.to_nat MAX_SOCKET) (SlotEntry 0 0 0 0 0)) in
  0 <= (reserve_id ss).2 <= INT_MAX
  /\ stype (slots ss !!! Z.to_nat (HASH_ID (reserve_id ss).2)) = SOCKET_TYPE_INVALID.
Proof.
  intros ss.
  destruct (reserve_id_free_slot ss) as (_ & _ & Hok).
  - cbn. unfold INT_MAX. lia.
  - apply length_replicate.
  - destruct Hok as (Hid & Hfree & _); [vm_compute; discriminate|]. by split.
Defined.

End SocketFacts.

(** ** skynet_timer.c: what an update fires, and the clock *)
Module Clock.
Import Timer.
#[local] Existing Instance Timer.slot_id_eq_dec.

(** X13. One [timer_update] advances the wheel by one tick and fires
    the scheduled nodes whose expiry is the new tick, all of them and no
    others; every other node stays scheduled and no node appears from
    nowhere. The wheel invariant is kept. *)
Theorem update_fires_due (T : timer) :
  inv T ->
  let T' := (timer_update T).1 in
  let fired := (timer_update T).2 in
  inv T'
  /\ time T' = wrap_u32 (time T + 1)
  /\ (forall n, n ∈ fired <-> scheduled T n /\ expire n = time T')
  /\ (forall n, scheduled T' n <-> scheduled T n /\ expire n <> time T').
Proof.
  intros Hinv. pose proof (timer_update_fires T Hinv) as H.
  by destruct (timer_update T).
Qed.

Lemma update_fires_due_witness :
  let T := timer_add timer_create_timer (TimerEvent 7 3) 1 in
  let T' := (timer_update T).1 in
  let fired := (timer_update T).2 in
  inv T'
  /\ time T' = wrap_u32 (time T + 1)
  /\ (forall n, n ∈ fired <-> scheduled T n /\ expire n = time T')
  /\ (forall n, scheduled T' n <-> scheduled T n /\ expire n <> time T').
Proof.
  apply (update_fires_due (timer_add timer_create_timer (TimerEvent 7 3) 1)).
  apply inv_timer_add; [exact inv_create|unfold INT_MAX; lia].
Defined.

(** *** The clock *)

Definition set_clock (T : timer) (current_ current_point_ : Z) : timer :=
  MkTimer (near T) (t T) (time T) (starttime T) current_ current_point_.

(** [for (i=0;i<diff;i++) timer_update(TI);] with the nodes fired by
    each update. *)
Fixpoint update_loop (diff : nat) (T : timer) : timer * list link_list :=
  match diff with
  | O => (T, [])
  | S n =>
      let '(T1, fired) := timer_update T in
      let '(T2, out) := update_loop n T1 in
      (T2, fired :: out)
  end.

(** The line "time diff error: change from %lld to %lld". *)
Record time_diff_error := TimeDiffError { changed_from : Z; changed_to : Z }.

(** [skynet_updatetime], given the value [cp] that [gettime()] returns:
    the timer, the nodes fired update by update, and the error line if
    one is logged. *)
Definition skynet_updatetime (cp : Z) (T : timer)
  : timer * list link_list * option time_diff_error :=
  if cp <? current_point T then
    (set_clock T (current T) cp, [], Some (TimeDiffError cp (current_point T)))
  else if negb (cp =? current_point T) then
    let diff := wrap_u32 (cp - current_point T) in
    let T1 := set_clock T ((current T + diff) mod 2 ^ 64) cp in
    let '(T2, out) := update_loop (Z.to_nat diff) T1 in
    (T2, out, None)
  else (T, [], None).

(** The wall-clock fields, which only [skynet_updatetime] and
    [skynet_timer_init] write. *)
Definition clock_of (T : timer) : Z * Z * Z :=
  (starttime T, current T, current_point T).

Lemma clock_add_node T node : clock_of (add_node T node) = clock_of T.
Proof. unfold add_node. by destruct (_ =? _). Qed.

Lemma clock_fold_add_node l : forall T,
  clock_of (fold_left add_node l T) = clock_of T.
Proof.
  induction l as [|node l IH]; intros T; [done|].
  cbn [fold_left]. by rewrite IH, clock_add_node.
Qed.

Lemma clock_move_list T level idx : clock_of (move_list T level idx) = clock_of T.
Proof. unfold move_list, link_clear_level. by rewrite clock_fold_add_node. Qed.

Lemma clock_timer_shift_loop rounds : forall T ct mask time_ i,
  clock_of (timer_shift_loop rounds T ct mask time_ i) = clock_of T.
Proof.
  induction rounds as [|rounds IH]; intros T ct mask time_ i; [done|].
  cbn [timer_shift_loop]. destruct (_ =? 0); [|done].
  destruct (negb _); [apply clock_move_list|apply IH].
Qed.

Lemma clock_timer_shift T : clock_of (timer_shift T) = clock_of T.
Proof.
  unfold timer_shift. destruct (_ =? 0).
  - by rewrite clock_move_list.
  - by rewrite clock_timer_shift_loop.
Qed.

Lemma clock_timer_execute T : clock_of (timer_execute T).1 = clock_of T.
Proof. unfold timer_execute. by destruct (near T !!! _). Qed.

Lemma clock_timer_update T : clock_of (timer_update T).1 = clock_of T.
Proof.
  unfold timer_update.
  pose proof (clock_timer_execute T) as H1.
  destruct (timer_execute T) as [T1 f0]. cbn [fst] in H1.
  pose proof (clock_timer_execute (timer_shift T1)) as H2.
  destruct (timer_execute (timer_shift T1)) as [T3 f1]. cbn [fst] in *.
  by rewrite H2, clock_timer_shift.
Qed.

Lemma inv_set_clock T a b : inv T -> inv (set_clock T a b).
Proof. intros [Hs Hc Hn]. constructor; [by destruct Hs|done|done]. Qed.

Lemma wrap_u32_shift c k :
  wrap_u32 (wrap_u32 (c + 1) + k) = wrap_u32 (c + (k + 1)).
Proof. unfold wrap_u32. rewrite Zplus_mod_idemp_l. f_equal. lia. Qed.

Lemma update_loop_spec n : forall T,
  inv T -> Z.of_nat n < 2 ^ 32 ->
  let '(T', out) := update_loop n T in
  inv T'
  /\ time T' = wrap_u32 (time T + Z.of_nat n)
  /\ current T' = current T /\ current_point T' = current_point T
  /\ length out = n
  /\ (forall k f node, out !! k = Some f ->
        (node ∈ f <-> scheduled T node
                      /\ expire node = wrap_u32 (time T + (Z.of_nat k + 1))))
  /\ (forall node, scheduled T' node
                   <-> scheduled T node
                       /\ forall k, (k < n)%nat ->
                            expire node <> wrap_u32 (time T + (Z.of_nat k + 1))).
Proof.
  induction n as [|n IH]; intros T Hinv Hn; cbn [update_loop].
  - destruct Hinv as [Hs Hc Hnodes]. split_and!; try done.
    + rewrite Z.add_0_r. by rewrite wrap_u32_id.
    + intros node. split; [|tauto]. intros ?. split; [done|]. intros k Hk. lia.
  - pose proof (timer_update_fires T Hinv) as Hup.
    assert (Hclock : current (timer_update T).1 = current T
                     /\ current_point (timer_update T).1 = current_point T).
    { pose proof (clock_timer_update T) as Hc. unfold clock_of in Hc.
      by injection Hc as _ -> ->. }
    destruct (timer_update T) as [T1 fired]. cbn [fst] in Hclock.
    destruct Hup as (Hinv1 & Ht1 & Hfired & Hrest).
    specialize (IH T1 Hinv1). destruct (update_loop n T1) as [T2 out].
    destruct IH as (Hinv2 & Ht2 & Hc2 & Hp2 & Hlen & Hout & Hleft); [lia|].
    destruct Hclock as [Hc1 Hp1].
    split_and!; try done; try congruence.
    + rewrite Ht2, Ht1, wrap_u32_shift. f_equal. lia.
    + cbn. by rewrite Hlen.
    + intros [|k] f node Hk; cbn in Hk.
      * injection Hk as <-. rewrite Hfired, Ht1. by rewrite Z.add_0_l.
      * rewrite (Hout k f node Hk), Ht1, wrap_u32_shift, Hrest, Ht1.
        replace (Z.of_nat (S k) + 1) with (Z.of_nat k + 1 + 1) by lia.
        split; [tauto|]. intros [Hs He]. split; [|done]. split; [done|].
        rewrite He. apply wrap_u32_add_distinct.
        apply lookup_lt_Some in Hk. lia.
    + intros node. rewrite Hleft, Hrest, Ht1. split.
      * intros [[Hs Hne] Hall]. split; [done|]. intros [|k] Hk.
        -- by rewrite Z.add_0_l.
        -- specialize (Hall k). rewrite wrap_u32_shift in Hall.
           replace (Z.of_nat (S k) + 1) with (Z.of_nat k + 1 + 1) by lia.
           apply Hall. lia.
      * intros [Hs Hall]. split; [split; [done|]|].
        -- specialize (Hall 0%nat). rewrite Z.add_0_l in Hall. apply Hall. lia.
        -- intros k Hk. rewrite wrap_u32_shift.
           specialize (Hall (S k)).
           replace (Z.of_nat (S k) + 1) with (Z.of_nat k + 1 + 1) in Hall by lia.
           apply Hall. lia.
Qed.

(** X14. [skynet_updatetime] brings the wheel up to the clock reading
    [cp]. When the clock has moved on by [diff] centiseconds it runs
    [diff] updates: the wheel is [diff] ticks further, [current] has
    grown by [diff], and the [k]-th update fires exactly the scheduled
    nodes expiring [k] ticks after the old wheel time; nodes expiring
    later stay scheduled. When the clock reads less than at the last
    call, nothing fires and the wheel does not move; the reading is
    taken as the new reference and the jump is logged. *)
Theorem updatetime_fires_elapsed (cp : Z) (T : timer) :
  inv T -> cp - current_point T <= INT_MAX ->
  let T' := (skynet_updatetime cp T).1.1 in
  let out := (skynet_updatetime cp T).1.2 in
  let err := (skynet_updatetime cp T).2 in
  inv T' /\ current_point T' = cp
  /\ (cp < current_point T ->
      time T' = time T /\ current T' = current T /\ out = []
      /\ err = Some (TimeDiffError cp (current_point T))
      /\ forall node, scheduled T' node <-> scheduled T node)
  /\ (current_point T <= cp ->
      let diff := cp - current_point T in
      err = None
      /\ time T' = wrap_u32 (time T + diff)
      /\ current T' = (if diff =? 0 then current T else (current T + diff) mod 2 ^ 64)
      /\ length out = Z.to_nat diff
      /\ (forall k f node, out !! k = Some f ->
            (node ∈ f <-> scheduled T node
                          /\ expire node = wrap_u32 (time T + (Z.of_nat k + 1))))
      /\ (forall node, scheduled T' node
                       <-> scheduled T node
                           /\ forall k, (k < Z.to_nat diff)%nat ->
                                expire node <> wrap_u32 (time T + (Z.of_nat k + 1)))).
Proof.
  intros Hinv Hmax T' out err. subst T' out err. unfold skynet_updatetime.
  unfold INT_MAX in Hmax.
  destruct (Z.ltb_spec cp (current_point T)) as [Hback|Hfwd]; cbn [fst snd].
  - split; [by apply inv_set_clock|]. split; [done|]. split; [done|]. lia.
  - destruct (Z.eqb_spec cp (current_point T)) as [Heq|Hne]; cbn [negb fst snd].
    + split; [done|]. split; [done|]. split; [lia|]. intros _.
      replace (cp - current_point T) with 0 by lia. cbn [Z.eqb Z.to_nat].
      destruct Hinv as [Hs Hc Hn].
      split_and!; try done.
      * by rewrite Z.add_0_r, wrap_u32_id.
      * intros node. split; [|tauto]. intros ?. split; [done|]. intros k Hk. lia.
    + rewrite wrap_u32_id by (unfold in_u32; lia).
      set (diff := cp - current_point T).
      set (T1 := set_clock T ((current T + diff) mod 2 ^ 64) cp).
      pose proof (update_loop_spec (Z.to_nat diff) T1 (inv_set_clock T _ _ Hinv)) as Hl.
      destruct (update_loop (Z.to_nat diff) T1) as [T2 out]. cbn [fst snd].
      destruct Hl as (Hinv2 & Ht2 & Hc2 & Hp2 & Hlen & Hout & Hleft).
      { subst diff. change (2 ^ 32) with 4294967296. lia. }
      split; [done|]. split; [done|]. split; [lia|]. intros _.
      destruct (Z.eqb_spec diff 0) as [|_]; [subst diff; lia|].
      split_and!; try done.
      rewrite Ht2. cbn [time set_clock T1]. f_equal. subst diff. lia.
Qed.

Lemma updatetime_fires_elapsed_witness :
  let T := timer_add timer_create_timer (TimerEvent 7 3) 2 in
  let out := (skynet_updatetime 3 T).1.2 in
  length out = 3%nat
  /\ forall f, out !! 1%nat = Some f -> TimerNode 2 (TimerEvent 7 3) ∈ f.
Proof.
  set (T := timer_add timer_create_timer (TimerEvent 7 3) 2).
  assert (Hinv : inv T /\ scheduled T (TimerNode 2 (TimerEvent 7 3))).
  { destruct (inv_timer_add timer_create_timer (TimerEvent 7 3) 2 inv_create)
      as (Hi & _ & Hs); [unfold INT_MAX; lia|]. split; [done|]. apply Hs. by left. }
  destruct Hinv as [Hinv Hs].
  destruct (updatetime_fires_elapsed 3 T Hinv) as (_ & _ & _ & Hfwd).
  - vm_compute. discriminate.
  - destruct Hfwd as (_ & _ & _ & Hlen & Hout & _); [vm_compute; discriminate|].
    split; [exact Hlen|]. intros f Hf. apply (Hout 1%nat f _ Hf). split; [done|].
    reflexivity.
Defined.

End Clock.
